(** * ShARCNetDatasetReader (orca/dataset_readers/sharc_net.py)

    A shallow embedding of the dataset reader's instance-construction code:
    the copy-id aligner [_tokens_to_ids], the rule-text rewriter
    [modify_rule] with its helpers [find_from_last] and
    [split_last_sentence], the instance builder [text_to_instance] and the
    record loop [_read].

    Python [str] values are lists of characters, Python dicts are finite
    maps, Python slices are written out with their clamping rules. *)

From Stdlib Require Import Ascii String ZArith Lia.
From stdpp Require Import gmap strings list.

Set Warnings "-clear-no-such-hyp".

Local Open Scope Z_scope.
Local Open Scope nat_scope.

(** ** Python values *)

(** A Python [str]: a sequence of characters. *)
Abbreviation str := (list ascii).

(** String literals of the source; the newline is spelled [NL]. *)
Definition lit (literal : string) : str := list_ascii_of_string literal.
Definition NL : ascii := ascii_of_nat 10.

(** [Token]: the only attribute the reader looks at is [text]. *)
Record Token := mkToken { text : str }.

(** ** The aligner *)

Section Aligner.

(** [str.lower]; the aligner only uses it to build dictionary keys. *)
Variable lower : str → str.

(** [d.setdefault(key, default)]: the value read and the dictionary after. *)
Definition setdefault (ids : gmap str nat) (key : str) (default : nat)
  : nat * gmap str nat :=
  match ids !! key with
  | Some v => (v, ids)
  | None => (default, <[key := default]> ids)
  end.

(** The [for token in tokens] loop of [_tokens_to_ids], with the two
    locals [ids] and [out] as loop state. *)
Fixpoint tokens_to_ids_loop (tokens : list Token) (ids : gmap str nat)
    (out : list nat) : list nat :=
  match tokens with
  | [] => out
  | token :: tokens' =>
      let '(v, ids') := setdefault ids (lower (text token)) (size ids) in
      tokens_to_ids_loop tokens' ids' (out ++ [v])
  end.

Definition _tokens_to_ids (tokens : list Token) : list nat :=
  tokens_to_ids_loop tokens ∅ [].

End Aligner.

(** ** Sequence and string primitives of Python *)

(** A slice bound [i] of a sequence of length [n], clamped as Python does:
    a negative bound counts from the end. *)
Definition slice_index (n : nat) (i : Z) : nat :=
  if (i <? 0)%Z then Z.to_nat (Z.max 0 (i + Z.of_nat n))
  else Z.to_nat (Z.min i (Z.of_nat n)).

(** [l[lo:hi]]; an omitted bound is [None]. *)
Definition slice {A} (l : list A) (lo hi : option Z) : list A :=
  let n := length l in
  let a := match lo with Some i => slice_index n i | None => 0 end in
  let b := match hi with Some i => slice_index n i | None => n end in
  take (b - a) (drop a l).

(** [string.startswith(prefix)]. *)
Fixpoint starts_with (prefix string : str) : bool :=
  match prefix, string with
  | [], _ => true
  | _ :: _, [] => false
  | a :: prefix', b :: string' =>
      if decide (a = b) then starts_with prefix' string' else false
  end.

(** [string.find(substring)]: the lowest index of an occurrence, or -1. *)
Fixpoint find_from (string substring : str) (i : Z) : Z :=
  if starts_with substring string then i
  else match string with
       | [] => (-1)%Z
       | _ :: string' => find_from string' substring (i + 1)%Z
       end.

Definition find (string substring : str) : Z := find_from string substring 0%Z.

(** [substring in string]. *)
Fixpoint str_in (substring string : str) : bool :=
  if starts_with substring string then true
  else match string with
       | [] => false
       | _ :: string' => str_in substring string'
       end.

(** [string.split(sep)] for a separator of one character. *)
Fixpoint split (sep : ascii) (string : str) : list str :=
  match string with
  | [] => [[]]
  | c :: string' =>
      if decide (c = sep) then [] :: split sep string'
      else match split sep string' with
           | piece :: pieces => (c :: piece) :: pieces
           | [] => [[c]]
           end
  end.

(** [''.join(pieces)]. *)
Definition join (pieces : list str) : str := concat pieces.

(** ** Regular expressions ([re])

    The fragment of Python's [re] syntax that [modify_rule]'s pattern is
    written in, and a backtracking matcher for it with the priorities of
    [re]: a greedy repetition tries one more iteration before it tries the
    rest of the pattern, a lazy one the other way round, and the first
    success in that order is the match. *)

Inductive regex :=
  | Lit (c : ascii)                    (* an ordinary or escaped character *)
  | AnyChar                            (* [.]: any character but newline *)
  | Bol                                (* [^] under re.MULTILINE *)
  | Cat (r1 r2 : regex)                (* concatenation *)
  | Star (greedy : bool) (r : regex)   (* [r*] and [r*?] *)
  | Plus (greedy : bool) (r : regex)   (* [r+] and [r+?] *)
  | Group (n : nat) (r : regex).       (* the n-th capturing group *)

Infix "⋅" := Cat (at level 60, right associativity).

(** The state of a match attempt: the current position in the subject and
    the spans of the groups captured so far. *)
Record MState := mkMState { pos : nat; caps : gmap nat (nat * nat) }.

Definition advance (st : MState) : MState :=
  {| pos := S (pos st); caps := caps st |}.

Definition set_group (n : nat) (span : nat * nat) (st : MState) : MState :=
  {| pos := pos st; caps := <[n := span]> (caps st) |}.

Section Matcher.

Variable subject : str.

(** What remains to be matched, as a function of the state reached. *)
Definition cont := MState → option MState.

(** [^] under MULTILINE: at the start of the subject and right after each
    newline. *)
Definition at_line_start (st : MState) : bool :=
  match pos st with
  | 0 => true
  | S p => bool_decide (subject !! p = Some NL)
  end.

(** Zero or more iterations of [body] followed by [k]. An iteration has to
    consume a character, so [fuel], the number of characters left when the
    loop is entered, is never exhausted before the subject is. *)
Fixpoint repeat_loop (body : cont → cont) (greedy : bool) (fuel : nat)
    (k : cont) (st : MState) : option MState :=
  match fuel with
  | 0 => k st
  | S fuel' =>
      let iterate :=
        body (λ st', if decide (pos st < pos st')
                     then repeat_loop body greedy fuel' k st' else None) in
      if greedy then
        match iterate st with Some r => Some r | None => k st end
      else
        match k st with Some r => Some r | None => iterate st end
  end.

Fixpoint rmatch (r : regex) (k : cont) (st : MState) : option MState :=
  match r with
  | Lit c =>
      match subject !! pos st with
      | Some c' => if decide (c' = c) then k (advance st) else None
      | None => None
      end
  | AnyChar =>
      match subject !! pos st with
      | Some c' => if decide (c' = NL) then None else k (advance st)
      | None => None
      end
  | Bol => if at_line_start st then k st else None
  | Cat r1 r2 => rmatch r1 (rmatch r2 k) st
  | Star greedy r =>
      repeat_loop (rmatch r) greedy (length subject - pos st) k st
  | Plus greedy r =>
      rmatch r (λ st', repeat_loop (rmatch r) greedy
                         (length subject - pos st') k st') st
  | Group n r =>
      rmatch r (λ st', k (set_group n (pos st, pos st') st')) st
  end.

(** A match object: [m.start()], [m.end()] and the group spans. *)
Record Match := mkMatch {
  m_start : nat;
  m_end : nat;
  m_spans : gmap nat (nat * nat)
}.

(** [m.group(n)] for a group that took part in the match. *)
Definition group (m : Match) (n : nat) : str :=
  match m_spans m !! n with
  | Some (b, e) => slice subject (Some (Z.of_nat b)) (Some (Z.of_nat e))
  | None => []
  end.

Definition match_at (r : regex) (start : nat) : option Match :=
  match rmatch r Some {| pos := start; caps := ∅ |} with
  | Some st => Some {| m_start := start; m_end := pos st; m_spans := caps st |}
  | None => None
  end.

(** [pattern.search(subject)]: the match at the leftmost start position that
    has one; [todo] start positions are still to be tried after [start]. *)
Fixpoint search_from (r : regex) (todo start : nat) : option Match :=
  match match_at r start with
  | Some m => Some m
  | None =>
      match todo with
      | 0 => None
      | S todo' => search_from r todo' (S start)
      end
  end.

Definition search (r : regex) : option Match :=
  search_from r (length subject) 0.

End Matcher.

(** ** The rule rewriter *)

(** The pattern of [modify_rule], compiled with re.MULTILINE. In the order
    of the source text: group 1 is a lazy run of [.]; a greedy run of
    newlines; [^]; group 2 is a greedy non-empty run of [.]; a colon and two
    newlines; group 3 is a greedy non-empty repetition of the bullet line,
    which is [^], an escaped asterisk, a space, a greedy non-empty run of
    [.] and a greedy run of newlines. The bullet line sits in a
    non-capturing group. *)
Definition pattern : regex :=
  Group 1 (Star false AnyChar) ⋅ Star true (Lit NL) ⋅ Bol ⋅
  Group 2 (Plus true AnyChar) ⋅ Lit ":" ⋅ Lit NL ⋅ Lit NL ⋅
  Group 3 (Plus true
             (Bol ⋅ Lit "*" ⋅ Lit " " ⋅ Plus true AnyChar ⋅ Star true (Lit NL))).

Definition find_from_last (string substring : str) : Z :=
  let index_back := find (reverse string) substring in
  if decide (index_back = -1)%Z then (-1)%Z
  else (Z.of_nat (length string) - index_back - 1)%Z.

Definition split_last_sentence (sentences : str) : str * str :=
  let index := find_from_last sentences (lit ".") in
  if decide (index = -1)%Z then ([], sentences)
  else (slice sentences None (Some (index + 1)%Z),
        slice sentences (Some (index + 2)%Z) None).

(** ['#,' 'both'] is one literal: adjacent string literals concatenate. *)
Definition exclude_words : list str :=
  [lit "#," ++ lit "both"; lit "following"; lit "either"; lit "including";
   lit "include"].

Definition modify_rule (rule : str) : str :=
  match search rule pattern with
  | Some m =>
      let pretext := group rule m 1 in
      let condition := group rule m 2 in
      let '(pretext2, condition) := split_last_sentence condition in
      let pretext := pretext ++ [NL] ++ pretext2 in
      if existsb (λ word, str_in word condition) exclude_words then rule
      else
        let bullets := group rule m 3 in
        let bullets_list :=
          map (λ a, condition ++ lit " " ++ slice a (Some 2%Z) None
                      ++ lit "." ++ [NL])
              (split NL bullets) in
        pretext ++ [NL] ++ join bullets_list
  | None => rule
  end.

(** ** Instances *)

(** Raised exceptions. *)
Inductive exn :=
  | KeyError (key : string)
  | UnboundLocalError (name : string).

Inductive result (A : Type) :=
  | Ok (a : A)
  | Raise (e : exn).
Arguments Ok {A} a.
Arguments Raise {A} e.

Global Instance result_bind : MBind result := λ A B f x,
  match x with
  | Ok a => f a
  | Raise e => Raise e
  end.

(** [d[key]] on a dict with string keys. *)
Definition getitem {V} (d : gmap string V) (key : string) : result V :=
  match d !! key with
  | Some v => Ok v
  | None => Raise (KeyError key)
  end.

(** [allennlp.common.util.START_SYMBOL] and [END_SYMBOL]. *)
Definition START_SYMBOL : str := lit "@start@".
Definition END_SYMBOL : str := lit "@end@".

Inductive TokenIndexer :=
  | SingleIdTokenIndexer (namespace : option str).

(** Values stored in the metadata dict. *)
Inductive MetaValue :=
  | MetaStrings (texts : list str)
  | MetaStr (value : str)
  | MetaHistory (history : list (gmap string str)).

Inductive Field :=
  | TextField (tokens : list Token) (token_indexers : gmap string TokenIndexer)
  | NamespaceSwappingField (source_tokens : list Token) (target_namespace : str)
  | ArrayField (array : list nat)
  | LabelField (label : str)
  | MetadataField (metadata : gmap string MetaValue).

Record Instance := mkInstance { fields : gmap string Field }.

(** A tokenizer is used through its [tokenize] method only. *)
Abbreviation Tokenizer := (str → list Token).

(** The attributes of the reader object ([self]). *)
Record Reader := mkReader {
  _bidaf_tokenizer : Tokenizer;
  _bidaf_token_indexers : gmap string TokenIndexer;
  _target_namespace : str;
  _source_tokenizer : Tokenizer;
  _target_tokenizer : Tokenizer;
  _source_token_indexers : gmap string TokenIndexer;
  _target_token_indexers : gmap string TokenIndexer
}.

Section TextToInstance.

Variable lower : str → str.
Variable self : Reader.

(** [for follow_up_qna in history: source_string += ... + ' '] *)
Fixpoint source_history (history : list (gmap string str)) (source_string : str)
  : result str :=
  match history with
  | [] => Ok source_string
  | follow_up_qna :: history' =>
      q ← getitem follow_up_qna "follow_up_question" ;
      source_history history' (source_string ++ q ++ lit " ")
  end.

(** The second loop over the history, on [question_text]. *)
Fixpoint question_history (history : list (gmap string str)) (question_text : str)
  : result str :=
  match history with
  | [] => Ok question_text
  | follow_up_qna :: history' =>
      let question_text := question_text ++ lit "@@QS@@ " in
      q ← getitem follow_up_qna "follow_up_question" ;
      let question_text := question_text ++ q ++ lit " " in
      a ← getitem follow_up_qna "follow_up_answer" ;
      let question_text := question_text ++ a ++ lit " " in
      question_history history' question_text
  end.

(** [x in [...]] on a list of strings. *)
Definition str_elem (x : str) (l : list str) : bool := bool_decide (x ∈ l).

Definition text_to_instance (rule_text question scenario : str)
    (history : list (gmap string str))
    (utterance_id tree_id source_url : option str)
    (answer : option str) (evidence : option (list (gmap string str)))
  : result (option Instance) :=
  (* For CopyNet Model *)
  let source_string := lit " @@RS@@ " ++ rule_text ++ lit " @@RE@@ " in
  source_string ← source_history history source_string ;
  let target_string := answer in
  let tokenized_source := _source_tokenizer self source_string in
  let tokenized_source := mkToken START_SYMBOL :: tokenized_source in
  let tokenized_source := tokenized_source ++ [mkToken END_SYMBOL] in
  let source_field := TextField tokenized_source (_source_token_indexers self) in
  let source_to_target_field :=
    NamespaceSwappingField (slice tokenized_source (Some 1%Z) (Some (-1)%Z))
                           (_target_namespace self) in
  let meta_fields : gmap string MetaValue :=
    {[ "source_tokens" :=
         MetaStrings (map text (slice tokenized_source (Some 1%Z) (Some (-1)%Z))) ]} in
  let fields_dict : gmap string Field :=
    <["source_to_target" := source_to_target_field]>
      {[ "source_tokens" := source_field ]} in
  (* For BiDAF model *)
  let passage_text := rule_text in
  let question_text := lit "@@QS@@ " ++ question in
  let question_text := question_text ++ lit " @@SS@@ " ++ scenario in
  let question_text := question_text ++ lit " @@HS@@ " in
  question_text ← question_history history question_text ;
  let question_text := question_text ++ lit "@@HE@@" in
  let passage_tokens := _bidaf_tokenizer self passage_text in
  let question_tokens := _bidaf_tokenizer self question_text in
  let fields_dict :=
    <["passage" := TextField passage_tokens (_bidaf_token_indexers self)]> fields_dict in
  let fields_dict :=
    <["question" := TextField question_tokens (_bidaf_token_indexers self)]> fields_dict in
  let '(fields_dict, meta_fields) :=
    match target_string with
    | Some target_string =>
        let tokenized_target := _target_tokenizer self target_string in
        let tokenized_target := mkToken START_SYMBOL :: tokenized_target in
        let tokenized_target := tokenized_target ++ [mkToken END_SYMBOL] in
        let target_field := TextField tokenized_target (_target_token_indexers self) in
        let fields_dict := <["target_tokens" := target_field]> fields_dict in
        let meta_fields :=
          <["target_tokens" :=
              MetaStrings (map text (slice tokenized_target (Some 1%Z) (Some (-1)%Z)))]>
            meta_fields in
        let source_and_target_token_ids :=
          _tokens_to_ids lower
            (slice tokenized_source (Some 1%Z) (Some (-1)%Z) ++ tokenized_target) in
        let source_token_ids :=
          slice source_and_target_token_ids None
                (Some (Z.of_nat (length tokenized_source) - 2)%Z) in
        let fields_dict :=
          <["source_token_ids" := ArrayField source_token_ids]> fields_dict in
        let target_token_ids :=
          slice source_and_target_token_ids
                (Some (Z.of_nat (length tokenized_source) - 2)%Z) None in
        let fields_dict :=
          <["target_token_ids" := ArrayField target_token_ids]> fields_dict in
        let action :=
          if negb (str_elem target_string [lit "Yes"; lit "No"; lit "Irrelevant"])
          then lit "More" else target_string in
        let fields_dict := <["label" := LabelField action]> fields_dict in
        (fields_dict, meta_fields)
    | None =>
        let source_token_ids :=
          _tokens_to_ids lower (slice tokenized_source (Some 1%Z) (Some (-1)%Z)) in
        let fields_dict :=
          <["source_token_ids" := ArrayField source_token_ids]> fields_dict in
        (fields_dict, meta_fields)
    end in
  let meta_fields := <["rule_text" := MetaStr rule_text]> meta_fields in
  let meta_fields := <["question" := MetaStr question]> meta_fields in
  let meta_fields := <["scenario" := MetaStr scenario]> meta_fields in
  let meta_fields := <["history" := MetaHistory history]> meta_fields in
  let fields_dict := <["metadata" := MetadataField meta_fields]> fields_dict in
  Ok (Some (mkInstance fields_dict)).

(** One record of the dataset, as [json.load] returns it. The keys that
    [_read] indexes unconditionally are fields. The two keys it tests for
    are options of a value: [None] when the key is absent, and [Some v] when
    it is present, where [v] is [None] for the JSON value null, which
    [json.load] returns as Python's None. *)
Record Utterance := mkUtterance {
  u_utterance_id : str;
  u_tree_id : str;
  u_source_url : str;
  u_snippet : str;
  u_question : str;
  u_scenario : str;
  u_history : list (gmap string str);
  u_answer : option (option str);
  u_evidence : option (option (list (gmap string str)))
}.

(** The [for utterance in dataset] loop of the generator [_read]. The locals
    [answer] and [evidence] are loop state: [None] while unbound, [Some v]
    once bound to the value [v], which may be Python's None. The result is
    the instances yielded and the exception that ended the iteration, if
    any. *)
Fixpoint read_loop (dataset : list Utterance)
    (answer : option (option str))
    (evidence : option (option (list (gmap string str))))
  : list Instance * option exn :=
  match dataset with
  | [] => ([], None)
  | utterance :: dataset' =>
      let answer :=
        match u_answer utterance with Some a => Some a | None => answer end in
      let evidence :=
        match u_evidence utterance with Some e => Some e | None => evidence end in
      match answer, evidence with
      | None, _ => ([], Some (UnboundLocalError "answer"))
      | Some _, None => ([], Some (UnboundLocalError "evidence"))
      | Some a, Some e =>
          match text_to_instance (u_snippet utterance) (u_question utterance)
                  (u_scenario utterance) (u_history utterance)
                  (Some (u_utterance_id utterance)) (Some (u_tree_id utterance))
                  (Some (u_source_url utterance)) a e with
          | Raise ex => ([], Some ex)
          | Ok instance =>
              let '(yielded, ended) := read_loop dataset' answer evidence in
              (match instance with
               | Some i => i :: yielded
               | None => yielded
               end, ended)
          end
      end
  end.

Definition _read (dataset : list Utterance) : list Instance * option exn :=
  read_loop dataset None None.

End TextToInstance.

(** ** The constructor *)

(** A token indexer as a caller can pass it: a SingleIdTokenIndexer or an
    indexer of another class. *)
Inductive IndexerArg :=
  | SingleIdArg (indexer : TokenIndexer)
  | OtherIndexerArg (class_name : string).

(** [isinstance(x, SingleIdTokenIndexer)]. *)
Definition is_single_id (x : IndexerArg) : bool :=
  match x with
  | SingleIdArg _ => true
  | OtherIndexerArg _ => false
  end.

(** [x or default] on an optional dict: [None] and the empty dict are
    false. *)
Definition dict_or {V} (x : option (gmap string V)) (default : gmap string V)
  : gmap string V :=
  match x with
  | Some d => if decide (d = ∅) then default else d
  | None => default
  end.

(** [x or default] on an optional object that is true when it is there. *)
Definition object_or {A} (x : option A) (default : A) : A :=
  match x with
  | Some a => a
  | None => default
  end.

(** The attributes [__init__] sets. The indexer dicts are kept as they were
    passed, with indexers of any class. *)
Record ReaderAttributes := mkReaderAttributes {
  a_bidaf_tokenizer : Tokenizer;
  a_bidaf_token_indexers : gmap string IndexerArg;
  a_target_namespace : str;
  a_source_tokenizer : Tokenizer;
  a_target_tokenizer : Tokenizer;
  a_source_token_indexers : gmap string IndexerArg;
  a_target_token_indexers : gmap string TokenIndexer
}.

(** The result of the constructor: the attributes, or the ConfigurationError
    it raises. *)
Inductive constructed :=
  | Constructed (self : ReaderAttributes)
  | ConfigurationError (message : string).

Section Init.

(** [WordTokenizer()], the default tokenizer. *)
Variable word_tokenizer : Tokenizer.

Definition __init__ (target_namespace : str)
    (bidaf_input_tokenizer : option Tokenizer)
    (bidaf_token_indexers : option (gmap string IndexerArg))
    (source_tokenizer target_tokenizer : option Tokenizer)
    (source_token_indexers : option (gmap string IndexerArg))
    (lazy : bool) : constructed :=
  let _bidaf_tokenizer := object_or bidaf_input_tokenizer word_tokenizer in
  let _bidaf_token_indexers :=
    dict_or bidaf_token_indexers
            {[ "tokens" := SingleIdArg (SingleIdTokenIndexer None) ]} in
  let _target_namespace := target_namespace in
  let _source_tokenizer := object_or source_tokenizer word_tokenizer in
  let _target_tokenizer := object_or target_tokenizer _source_tokenizer in
  let _source_token_indexers :=
    dict_or source_token_indexers
            {[ "tokens" := SingleIdArg (SingleIdTokenIndexer None) ]} in
  if match _source_token_indexers !! "tokens" with
     | None => true
     | Some indexer => negb (is_single_id indexer)
     end
  then ConfigurationError
         "CopyNetDatasetReader expects 'source_token_indexers' to contain a 'single_id' token indexer called 'tokens'."
  else
    Constructed {|
      a_bidaf_tokenizer := _bidaf_tokenizer;
      a_bidaf_token_indexers := _bidaf_token_indexers;
      a_target_namespace := _target_namespace;
      a_source_tokenizer := _source_tokenizer;
      a_target_tokenizer := _target_tokenizer;
      a_source_token_indexers := _source_token_indexers;
      a_target_token_indexers :=
        {[ "tokens" := SingleIdTokenIndexer (Some _target_namespace) ]}
    |}.

End Init.

(** ** Auxiliary definitions for the proofs *)

(** The dictionary [ids] once the aligner's loop has gone through [tokens]. *)
Fixpoint ids_after (lower : str → str) (tokens : list Token)
    (ids : gmap str nat) : gmap str nat :=
  match tokens with
  | [] => ids
  | token :: tokens' =>
      ids_after lower tokens' (setdefault ids (lower (text token)) (size ids)).2
  end.

(** Every id in the dictionary is below its size, and no id is used twice. *)
Definition dense (ids : gmap str nat) : Prop :=
  (∀ k v, ids !! k = Some v → v < size ids) ∧
  (∀ k1 k2 v, ids !! k1 = Some v → ids !! k2 = Some v → k1 = k2).

(** What a successful run of the matcher on [r] from [st] to [st'] means:
    the characters read and the groups set. *)
Fixpoint den (subject : str) (r : regex) (st st' : MState) : Prop :=
  match r with
  | Lit c => subject !! pos st = Some c ∧ st' = advance st
  | AnyChar => (∃ c, subject !! pos st = Some c ∧ c ≠ NL) ∧ st' = advance st
  | Bol => at_line_start subject st = true ∧ st' = st
  | Cat r1 r2 => ∃ mid, den subject r1 st mid ∧ den subject r2 mid st'
  | Star _ r => rtc (den subject r) st st'
  | Plus _ r => ∃ mid, den subject r st mid ∧ rtc (den subject r) mid st'
  | Group n r =>
      ∃ st1, den subject r st st1 ∧ st' = set_group n (pos st, pos st1) st1
  end.

(** Group [n] occurs in [r]. *)
Fixpoint binds (n : nat) (r : regex) : Prop :=
  match r with
  | Lit _ | AnyChar | Bol => False
  | Cat r1 r2 => binds n r1 ∨ binds n r2
  | Star _ r | Plus _ r => binds n r
  | Group m r => n = m ∨ binds n r
  end.

(** [r] reads at least one character whenever it matches. *)
Fixpoint consumes (r : regex) : bool :=
  match r with
  | Lit _ | AnyChar => true
  | Bol | Star _ _ => false
  | Cat r1 r2 => consumes r1 || consumes r2
  | Plus _ r | Group _ r => consumes r
  end.

(** Every repetition in [r] is over a body that reads at least one
    character. *)
Fixpoint productive (r : regex) : bool :=
  match r with
  | Lit _ | AnyChar | Bol => true
  | Cat r1 r2 => productive r1 && productive r2
  | Star _ r | Plus _ r => consumes r && productive r
  | Group _ r => productive r
  end.

(** What a match of [pattern] looks like in the subject: group 1 and group 2
    are free of newlines, group 2 is not empty and starts at or after the end
    of group 1, and a colon and two newlines follow group 2. *)
Definition match_shape (subject : str) (m : Match) : Prop :=
  ∃ b1 e1 b2 e2 e3,
    m_spans m !! 1 = Some (b1, e1) ∧ m_spans m !! 2 = Some (b2, e2) ∧
    m_spans m !! 3 = Some (e2 + 3, e3) ∧
    m_start m = b1 ∧ m_end m = e3 ∧
    b1 ≤ e1 ∧ e1 ≤ b2 ∧ b2 < e2 ∧ e2 + 3 < e3 ∧
    (∀ i, b1 ≤ i < e1 → ∃ c, subject !! i = Some c ∧ c ≠ NL) ∧
    (∀ i, e1 ≤ i < b2 → subject !! i = Some NL) ∧
    (∀ i, b2 ≤ i < e2 → ∃ c, subject !! i = Some c ∧ c ≠ NL) ∧
    subject !! e2 = Some ":"%char ∧
    subject !! (e2 + 1) = Some NL ∧ subject !! (e2 + 2) = Some NL ∧
    subject !! (e2 + 3) = Some "*"%char ∧ subject !! (e2 + 4) = Some " "%char.

(** Two newlines next to each other somewhere in the text. *)
Fixpoint adjacent_newlines (l : str) : bool :=
  match l with
  | a :: l' =>
      bool_decide (a = NL) && bool_decide (head l' = Some NL)
      || adjacent_newlines l'
  | [] => false
  end.

(** The text [modify_rule] builds when it rewrites. *)
Definition flattened (pretext pretext2 condition bullets : str) : str :=
  (pretext ++ [NL] ++ pretext2) ++ [NL]
  ++ join (map (λ a, condition ++ lit " " ++ slice a (Some 2%Z) None
                       ++ lit "." ++ [NL])
               (split NL bullets)).

Definition excluded (condition : str) : bool :=
  existsb (λ word, str_in word condition) exclude_words.

(** A history whose turns all have both keys. *)
Definition well_formed_history (history : list (gmap string str)) : Prop :=
  Forall (λ turn, is_Some (turn !! "follow_up_question")
                  ∧ is_Some (turn !! "follow_up_answer")) history.

(** A token sequence between the two sentinels. *)
Definition wrapped (tokens : list Token) : list Token :=
  mkToken START_SYMBOL :: tokens ++ [mkToken END_SYMBOL].

(** The value of a local that the loop of [_read] assigns from the records
    that have the key, after the records [seen]; [local] is its value
    before them. *)
Definition carried {A} (key : Utterance → option A) (seen : list Utterance)
    (local : option A) : option A :=
  fold_left (λ local u, match key u with Some v => Some v | None => local end)
            seen local.

(** The instances a call of [text_to_instance] in the loop contributes. *)
Definition yields (r : option Instance) : list Instance :=
  match r with Some i => [i] | None => [] end.

(** The instance of a call that returned one, and the empty instance
    otherwise. *)
Definition built (r : result (option Instance)) : Instance :=
  match r with
  | Ok (Some instance) => instance
  | _ => mkInstance ∅
  end.

(** Whether a call returned an instance. *)
Definition returns_instance (r : result (option Instance)) : bool :=
  match r with
  | Ok (Some _) => true
  | _ => false
  end.

(** Every number below the size of the dictionary is the id of some key. *)
Definition full (ids : gmap str nat) : Prop :=
  ∀ x, x < size ids → ∃ k, ids !! k = Some x.

(** The text that every match of [pattern] contains: a colon, an empty line
    and a bullet marker. *)
Definition bullet_opening : str := lit ":" ++ [NL; NL] ++ lit "* ".

(** The question and the answer of a turn of the history; the empty string
    for a missing key. *)
Definition turn_question (turn : gmap string str) : str :=
  default [] (turn !! "follow_up_question").

Definition turn_answer (turn : gmap string str) : str :=
  default [] (turn !! "follow_up_answer").

(** The string the source tokenizer is given: the rule text between its two
    markers, then the follow-up questions. *)
Definition source_string_of (rule_text : str) (history : list (gmap string str))
  : str :=
  (lit " @@RS@@ " ++ rule_text ++ lit " @@RE@@ ")
  ++ concat (map (λ turn, turn_question turn ++ lit " ") history).

(** The string the second tokenizer is given for the question field. *)
Definition question_text_of (question scenario : str)
    (history : list (gmap string str)) : str :=
  ((((lit "@@QS@@ " ++ question) ++ lit " @@SS@@ " ++ scenario)
    ++ lit " @@HS@@ ")
   ++ concat (map (λ turn, lit "@@QS@@ " ++ turn_question turn ++ lit " "
                             ++ turn_answer turn ++ lit " ") history))
  ++ lit "@@HE@@".

(** The label of an answer. *)
Definition action_of (answer : str) : str :=
  if decide (answer ∈ [lit "Yes"; lit "No"; lit "Irrelevant"]) then answer
  else lit "More".

(** A record that has both optional keys, whatever their values, and a
    history whose turns have both keys. *)
Definition complete_record (u : Utterance) : Prop :=
  is_Some (u_answer u) ∧ is_Some (u_evidence u)
  ∧ well_formed_history (u_history u).

(** Between the states [st] and [st'] the matcher has read the text [w]. *)
Definition reads (subject : str) (st st' : MState) (w : str) : Prop :=
  drop (pos st) subject = w ++ drop (pos st') subject
  ∧ pos st' = pos st + length w.

(** The text of a block of bullet lines: each item behind its marker and
    followed by a number of newlines. *)
Definition bullet_lines (items : list (str * nat)) : str :=
  concat (map (λ item, lit "* " ++ item.1 ++ replicate item.2 NL) items).

(** Every item but the last is followed by at least one newline. *)
Fixpoint separated (items : list (str * nat)) : Prop :=
  match items with
  | [] => True
  | item :: rest => (rest ≠ [] → 1 ≤ item.2) ∧ separated rest
  end.

(** An item is a non-empty text without a newline. *)
Definition item_ok (item : str * nat) : Prop := item.1 ≠ [] ∧ (NL ∉ item.1).

(** What a match of [pattern] is made of, in the rule text. *)
Definition match_parts (rule : str) (m : Match) (g1 : str) (nls : nat) (g2 : str)
    (items : list (str * nat)) : Prop :=
  reads rule {| pos := m_start m; caps := ∅ |} {| pos := m_end m; caps := ∅ |}
        (g1 ++ replicate nls NL ++ g2 ++ lit ":" ++ [NL; NL] ++ bullet_lines items)
  ∧ m_start m ≤ length rule
  ∧ group rule m 1 = g1 ∧ group rule m 2 = g2
  ∧ group rule m 3 = bullet_lines items
  ∧ (NL ∉ g1) ∧ (NL ∉ g2) ∧ g2 ≠ []
  ∧ items ≠ [] ∧ Forall item_ok items ∧ separated items.

(** The pieces [split] cuts a block of bullet lines into: each item with its
    marker, and an empty piece for every newline beyond the one that
    separates two items. *)
Fixpoint bullet_pieces (items : list (str * nat)) : list str :=
  match items with
  | [] => []
  | item :: rest =>
      (lit "* " ++ item.1)
        :: replicate (match rest with [] => item.2 | _ => item.2 - 1 end) []
        ++ bullet_pieces rest
  end.

(** The lines [modify_rule] writes for a block of bullet lines: a sentence
    for each item, and a line with the condition alone for every newline
    beyond the one that separates two items. *)
Fixpoint rewritten_lines (condition : str) (items : list (str * nat)) : str :=
  match items with
  | [] => []
  | item :: rest =>
      (condition ++ lit " " ++ item.1 ++ lit "." ++ [NL])
      ++ concat (replicate (match rest with [] => item.2 | _ => item.2 - 1 end)
                           (condition ++ lit " ." ++ [NL]))
      ++ rewritten_lines condition rest
  end.

(** The first success of [k] at the positions [p + n], ..., [p + 1], [p], in
    that order: what a greedy run over [n] characters from [p] returns. *)
Fixpoint scan_down (k : cont) (p : nat) (cs : gmap nat (nat * nat)) (n : nat)
  : option MState :=
  match n with
  | 0 => k {| pos := p; caps := cs |}
  | S n' =>
      match scan_down k (S p) cs n' with
      | Some r => Some r
      | None => k {| pos := p; caps := cs |}
      end
  end.

(** A rule text of the shape [modify_rule] is written for: an optional
    first line, newlines, a label line that ends in a colon, an empty line
    and a block of bullet lines that ends the text. *)
Definition canonical_rule (pretext : str) (nls : nat) (label : str)
    (items : list (str * nat)) : str :=
  pretext ++ replicate nls NL ++ label ++ lit ":" ++ [NL; NL]
    ++ bullet_lines items.

(** ** The specification's wording, for comparison *)

(** The split of the label line as the specification words it, to compare
    with [split_last_sentence]: the text up to and including the last period
    is the condition clause and the remainder goes to the pretext; without a
    period the whole line is pretext and the clause is empty. The result is
    (pretext part, condition clause). *)
Definition spec_split_last_sentence (block : str) : str * str :=
  let index := find_from_last block (lit ".") in
  if decide (index = -1)%Z then (block, [])
  else (slice block (Some (index + 1)%Z) None,
        slice block None (Some (index + 1)%Z)).

(** The target-side ids if, as the specification has it, the sentinels of
    both sequences were left out of the aligner's input. *)
Definition spec_target_token_ids (lower : str → str)
    (tokenized_source tokenized_target : list Token) : list nat :=
  let inner_source := slice tokenized_source (Some 1%Z) (Some (-1)%Z) in
  let inner_target := slice tokenized_target (Some 1%Z) (Some (-1)%Z) in
  drop (length inner_source) (_tokens_to_ids lower (inner_source ++ inner_target)).

(** ** Worked inputs *)

(** [str.lower] on ASCII text, for the worked examples. *)
Definition lower_char (c : ascii) : ascii :=
  let n := nat_of_ascii c in
  if decide (65 ≤ n ≤ 90) then ascii_of_nat (n + 32) else c.

Definition ascii_lower (string : str) : str := map lower_char string.

(** A tokenizer for the worked examples: the words between spaces. *)
Definition space_tokenizer : Tokenizer :=
  λ string, map mkToken (filter (λ w, w ≠ []) (split " " string)).

Definition example_reader : Reader := {|
  _bidaf_tokenizer := space_tokenizer;
  _bidaf_token_indexers := {[ "tokens" := SingleIdTokenIndexer None ]};
  _target_namespace := lit "target_tokens";
  _source_tokenizer := space_tokenizer;
  _target_tokenizer := space_tokenizer;
  _source_token_indexers := {[ "tokens" := SingleIdTokenIndexer None ]};
  _target_token_indexers :=
    {[ "tokens" := SingleIdTokenIndexer (Some (lit "target_tokens")) ]}
|}.

(** The flattening example: two bullets under the label line [Condition:]. *)
Definition rule_flatten : str :=
  lit "Intro." ++ [NL] ++ lit "Condition:" ++ [NL; NL]
  ++ lit "* item one" ++ [NL] ++ lit "* item two" ++ [NL].

(** The fallback example. *)
Definition rule_fallback : str :=
  lit "Check eligibility." ++ [NL] ++ lit "Both of the following:" ++ [NL; NL]
  ++ lit "* age>18" ++ [NL] ++ lit "* resident" ++ [NL].

Definition rule_both : str :=
  lit "You must do both:" ++ [NL; NL] ++ lit "* a" ++ [NL] ++ lit "* b".

Definition rule_Both : str :=
  lit "Both apply:" ++ [NL; NL] ++ lit "* a" ++ [NL] ++ lit "* b".

Definition rule_includes : str :=
  lit "This includes:" ++ [NL; NL] ++ lit "* a" ++ [NL] ++ lit "* b" ++ [NL].

Definition rule_Following : str :=
  lit "Following apply:" ++ [NL; NL] ++ lit "* a".

(** A rule whose first line is not part of the match. *)
Definition rule_late_match : str :=
  lit "A" ++ [NL] ++ lit "B" ++ [NL] ++ lit "Cond:" ++ [NL; NL] ++ lit "* x".

(** A label line of two sentences. *)
Definition rule_last_sentence : str :=
  lit "Intro. You qualify if:" ++ [NL; NL] ++ lit "* a".

(** A rule without the bulleted structure. *)
Definition rule_plain : str := lit "You qualify if you are a resident.".

(** The end-to-end example. *)
Definition example_rule : str := lit "You qualify if you are a resident.".
Definition example_question : str := lit "Am I eligible?".
Definition example_scenario : str := lit "I live here.".

Definition example_tokens : list Token :=
  [mkToken (lit "The"); mkToken (lit "cat"); mkToken (lit "the")].

Definition example_answer : str := lit "You are a resident.".

Definition example_turn : gmap string str :=
  <["follow_up_answer" := lit "Yes"]>
    {[ "follow_up_question" := lit "Do you live here?" ]}.

(** Three records: the first has an answer and evidence, the second has
    neither key, and the third has the key answer with the value null. *)
Definition example_first : Utterance := {|
  u_utterance_id := lit "u1"; u_tree_id := lit "t1"; u_source_url := lit "url";
  u_snippet := example_rule; u_question := example_question;
  u_scenario := example_scenario; u_history := [];
  u_answer := Some (Some (lit "Yes")); u_evidence := Some (Some [])
|}.

Definition example_second : Utterance := {|
  u_utterance_id := lit "u2"; u_tree_id := lit "t1"; u_source_url := lit "url";
  u_snippet := example_rule; u_question := lit "Can I apply?";
  u_scenario := []; u_history := [example_turn];
  u_answer := None; u_evidence := None
|}.

Definition example_null : Utterance := {|
  u_utterance_id := lit "u3"; u_tree_id := lit "t1"; u_source_url := lit "url";
  u_snippet := example_rule; u_question := lit "Can I apply?";
  u_scenario := []; u_history := [];
  u_answer := Some None; u_evidence := None
|}.

(** The tokens of [example_tokens] in other letter cases. *)
Definition example_tokens_shouted : list Token :=
  [mkToken (lit "THE"); mkToken (lit "Cat"); mkToken (lit "tHe")].

(** A turn without its answer. *)
Definition example_turn_no_answer : gmap string str :=
  {[ "follow_up_question" := lit "Do you live here?" ]}.

(** The example call with an answer, and the one without. *)
Definition example_training : result (option Instance) :=
  text_to_instance ascii_lower example_reader example_rule example_question
    example_scenario [example_turn] None None None (Some example_answer) None.

Definition example_inference : result (option Instance) :=
  text_to_instance ascii_lower example_reader example_rule example_question
    example_scenario [example_turn] None None None None None.

(** The bullet items of [rule_flatten]. *)
Definition example_items : list (str * nat) :=
  [(lit "item one", 1); (lit "item two", 1)].

(** * Properties *)

(** ** The aligner *)

Section AlignerFacts.

Variable lower : str → str.
Implicit Types (ids : gmap str nat) (tokens : list Token).

Lemma setdefault_lookup ids k d :
  (setdefault ids k d).2 !! k = Some (setdefault ids k d).1.
Proof.
  unfold setdefault. destruct (ids !! k) eqn:E; simpl; [done|].
  by rewrite lookup_insert_eq.
Qed.

Lemma setdefault_subseteq ids k d : ids ⊆ (setdefault ids k d).2.
Proof.
  unfold setdefault. destruct (ids !! k) eqn:E; simpl; [done|].
  by apply insert_subseteq.
Qed.

Lemma setdefault_dom ids k d : dom (setdefault ids k d).2 = {[k]} ∪ dom ids.
Proof.
  unfold setdefault. destruct (ids !! k) eqn:E; simpl.
  - assert (k ∈ dom ids) by (apply elem_of_dom; eauto). set_solver.
  - by rewrite dom_insert_L.
Qed.

Lemma setdefault_dense ids k : dense ids → dense (setdefault ids k (size ids)).2.
Proof.
  intros [Hlt Hinj]. unfold setdefault.
  destruct (ids !! k) eqn:E; simpl; [by split|].
  split.
  - intros k' v. rewrite map_size_insert_None by done.
    rewrite lookup_insert. case_decide.
    + intros [= <-]. lia.
    + intros Hv. apply Hlt in Hv. lia.
  - intros k1 k2 v. rewrite !lookup_insert.
    repeat case_decide; subst; try done.
    + intros [= <-] Hv. apply Hlt in Hv. lia.
    + intros Hv [= <-]. apply Hlt in Hv. lia.
    + apply Hinj.
Qed.

Lemma ids_after_app tokens1 tokens2 ids :
  ids_after lower (tokens1 ++ tokens2) ids
  = ids_after lower tokens2 (ids_after lower tokens1 ids).
Proof. revert ids. induction tokens1 as [|t ts IH]; intros ids; simpl; [done|apply IH]. Qed.

Lemma ids_after_subseteq tokens ids : ids ⊆ ids_after lower tokens ids.
Proof.
  revert ids. induction tokens as [|t ts IH]; intros ids; simpl; [done|].
  etrans; [apply setdefault_subseteq|apply IH].
Qed.

Lemma ids_after_dense tokens ids : dense ids → dense (ids_after lower tokens ids).
Proof.
  revert ids. induction tokens as [|t ts IH]; intros ids H; simpl; [done|].
  by apply IH, setdefault_dense.
Qed.

Lemma ids_after_dom tokens ids :
  dom (ids_after lower tokens ids)
  = list_to_set ((lower ∘ text) <$> tokens) ∪ dom ids.
Proof.
  revert ids. induction tokens as [|t ts IH]; intros ids; simpl.
  - set_solver.
  - rewrite IH, setdefault_dom. set_solver.
Qed.

(** The loop appends, for each token, the id its lowercase form has in the
    final dictionary. *)
Lemma tokens_to_ids_loop_spec tokens ids out :
  tokens_to_ids_loop lower tokens ids out
  = out ++ map (λ t, default 0 (ids_after lower tokens ids !! lower (text t)))
             tokens.
Proof.
  revert ids out. induction tokens as [|t ts IH]; intros ids out; simpl.
  - by rewrite app_nil_r.
  - pose proof (setdefault_lookup ids (lower (text t)) (size ids)) as Hk.
    destruct (setdefault ids (lower (text t)) (size ids)) as [v ids'] eqn:E.
    simpl in *. rewrite IH, <- app_assoc. simpl. do 3 f_equal.
    eapply lookup_weaken in Hk; [|apply ids_after_subseteq]. by rewrite Hk.
Qed.

Lemma tokens_to_ids_lookup tokens i a :
  tokens !! i = Some a →
  ∃ x, _tokens_to_ids lower tokens !! i = Some x
       ∧ ids_after lower tokens ∅ !! lower (text a) = Some x.
Proof.
  intros Ha. unfold _tokens_to_ids. rewrite tokens_to_ids_loop_spec. simpl.
  rewrite list_lookup_fmap, Ha. simpl.
  assert (lower (text a) ∈ dom (ids_after lower tokens ∅)) as Hd.
  { rewrite ids_after_dom. apply elem_of_union_l, elem_of_list_to_set.
    apply list_elem_of_fmap. exists a. split; [done|].
    by eapply list_elem_of_lookup_2. }
  apply elem_of_dom in Hd as [x Hx]. exists x. by rewrite Hx.
Qed.

Lemma dense_empty : dense ∅.
Proof. split; intros *; by rewrite lookup_empty. Qed.

Lemma tokens_to_ids_length (tokens : list Token) :
  length (_tokens_to_ids lower tokens) = length tokens.
Proof.
  unfold _tokens_to_ids. rewrite tokens_to_ids_loop_spec. simpl.
  by rewrite length_map.
Qed.

Lemma tokens_to_ids_same_id (tokens : list Token) i j a b :
  tokens !! i = Some a → tokens !! j = Some b →
  ∃ x y, _tokens_to_ids lower tokens !! i = Some x
         ∧ _tokens_to_ids lower tokens !! j = Some y
         ∧ (x = y ↔ lower (text a) = lower (text b)).
Proof.
  intros Ha Hb.
  destruct (tokens_to_ids_lookup _ _ _ Ha) as (x & Hx & Hkx).
  destruct (tokens_to_ids_lookup _ _ _ Hb) as (y & Hy & Hky).
  exists x, y. split; [done|]. split; [done|].
  destruct (ids_after_dense tokens ∅ dense_empty) as [_ Hinj].
  split.
  - intros ->. by eapply Hinj.
  - intros Heq. rewrite Heq in Hkx. congruence.
Qed.

Lemma tokens_to_ids_first_seen (tokens : list Token) i a :
  tokens !! i = Some a →
  (∀ j b, j < i → tokens !! j = Some b → lower (text b) ≠ lower (text a)) →
  _tokens_to_ids lower tokens !! i
  = Some (size (list_to_set ((lower ∘ text) <$> take i tokens) : gset str)).
Proof.
  intros Ha Hnew.
  destruct (tokens_to_ids_lookup _ _ _ Ha) as (x & Hx & Hkx).
  rewrite Hx. f_equal.
  rewrite <- (take_drop_middle tokens i a Ha) in Hkx.
  rewrite ids_after_app in Hkx. simpl in Hkx.
  set (seen := ids_after lower (take i tokens) ∅) in *.
  assert (seen !! lower (text a) = None) as Hfresh.
  { apply not_elem_of_dom. unfold seen. rewrite ids_after_dom.
    rewrite dom_empty_L, union_empty_r_L, elem_of_list_to_set.
    intros (b & Hb & Hin)%list_elem_of_fmap.
    apply list_elem_of_lookup in Hin as [j Hj].
    apply lookup_take_Some in Hj as [Hj Hlt].
    simpl in Hb. by eapply Hnew. }
  assert (setdefault seen (lower (text a)) (size seen)
          = (size seen, <[lower (text a) := size seen]> seen)) as Hsd.
  { unfold setdefault. by rewrite Hfresh. }
  rewrite Hsd in Hkx. simpl in Hkx.
  eassert (ids_after lower (drop (S i) tokens) _ !! lower (text a)
           = Some (size seen)) as Hsz.
  { eapply lookup_weaken; [apply lookup_insert_eq|apply ids_after_subseteq]. }
  rewrite Hkx in Hsz. injection Hsz as ->.
  rewrite <- size_dom. unfold seen. rewrite ids_after_dom.
  by rewrite dom_empty_L, union_empty_r_L.
Qed.

(** C1. For every token sequence the aligner returns one id per token, in
    input order; two positions get the same id exactly when the lowercase
    forms of their tokens are equal; and a token whose lowercase form has
    not occurred before gets the number of distinct lowercase forms seen
    before it, so the ids are handed out as 0, 1, 2, ... in first-seen
    order. *)
Theorem C1_tokens_to_ids_alignment tokens :
  length (_tokens_to_ids lower tokens) = length tokens ∧
  (∀ i j a b, tokens !! i = Some a → tokens !! j = Some b →
     ∃ x y, _tokens_to_ids lower tokens !! i = Some x
            ∧ _tokens_to_ids lower tokens !! j = Some y
            ∧ (x = y ↔ lower (text a) = lower (text b))) ∧
  (∀ i a, tokens !! i = Some a →
     (∀ j b, j < i → tokens !! j = Some b → lower (text b) ≠ lower (text a)) →
     _tokens_to_ids lower tokens !! i
     = Some (size (list_to_set ((lower ∘ text) <$> take i tokens) : gset str))).
Proof.
  split; [apply tokens_to_ids_length|].
  split; [apply tokens_to_ids_same_id|].
  apply tokens_to_ids_first_seen.
Qed.

End AlignerFacts.

(** ** Slices, [find] and [split_last_sentence] *)

Lemma slice_to {A} (l : list A) (i : Z) :
  (0 ≤ i)%Z → slice l None (Some i) = take (Z.to_nat i) l.
Proof.
  intros Hi. unfold slice, slice_index.
  destruct (Z.ltb_spec i 0); [lia|].
  rewrite drop_0, Nat.sub_0_r.
  destruct (decide (Z.to_nat i ≤ length l)).
  - f_equal. lia.
  - rewrite !take_ge; [done|lia|lia].
Qed.

Lemma slice_from {A} (l : list A) (i : Z) :
  (0 ≤ i)%Z → slice l (Some i) None = drop (Z.to_nat i) l.
Proof.
  intros Hi. unfold slice, slice_index.
  destruct (Z.ltb_spec i 0); [lia|].
  rewrite take_ge by (rewrite length_drop; lia).
  destruct (decide (Z.to_nat i ≤ length l)).
  - f_equal. lia.
  - rewrite !drop_ge; [done|lia|lia].
Qed.

Lemma slice_span {A} (l : list A) (b e : nat) :
  slice l (Some (Z.of_nat b)) (Some (Z.of_nat e)) = take (e - b) (drop b l).
Proof.
  unfold slice, slice_index.
  destruct (Z.ltb_spec (Z.of_nat b) 0); [lia|].
  destruct (Z.ltb_spec (Z.of_nat e) 0); [lia|].
  destruct (decide (b < length l)).
  - replace (Z.to_nat (Z.of_nat b `min` Z.of_nat (length l))) with b by lia.
    destruct (decide (e ≤ length l)).
    + f_equal. lia.
    + rewrite !take_ge; [done|rewrite length_drop; lia|rewrite length_drop; lia].
  - rewrite !drop_ge by lia. by rewrite !take_nil.
Qed.

Lemma slice_inner {A} (x y : A) (l : list A) :
  slice (x :: l ++ [y]) (Some 1%Z) (Some (-1)%Z) = l.
Proof.
  unfold slice, slice_index.
  change (1 <? 0)%Z with false. change (-1 <? 0)%Z with true. cbv iota.
  replace (Z.to_nat (1 `min` Z.of_nat (length (x :: l ++ [y])))) with 1
    by (simpl; lia).
  replace (Z.to_nat (0 `max` (-1 + Z.of_nat (length (x :: l ++ [y])))) - 1)
    with (length l) by (simpl; rewrite length_app; simpl; lia).
  simpl. by rewrite drop_0, take_app_length.
Qed.

Lemma slice_elem_of {A} (l : list A) lo hi x : x ∈ slice l lo hi → x ∈ l.
Proof.
  unfold slice. intros H.
  eapply subseteq_drop, subseteq_take, H.
Qed.

Lemma starts_with_single c string :
  starts_with [c] string = true ↔ ∃ rest, string = c :: rest.
Proof.
  destruct string as [|b rest]; simpl.
  - split; [done|]. by intros [? ?].
  - case_decide; subst.
    + split; eauto.
    + split; [done|]. intros [? [= ]]. congruence.
Qed.

Lemma find_from_absent c string i : c ∉ string → find_from string [c] i = (-1)%Z.
Proof.
  revert i. induction string as [|b rest IH]; intros i Hc; simpl; [done|].
  case_decide; subst.
  - exfalso. apply Hc. left.
  - apply IH. intros ?. apply Hc. by right.
Qed.

Lemma find_from_first c pre post i :
  c ∉ pre → find_from (pre ++ c :: post) [c] i = (i + Z.of_nat (length pre))%Z.
Proof.
  revert i. induction pre as [|b pre IH]; intros i Hc; simpl.
  - case_decide; [lia|done].
  - case_decide; subst.
    + exfalso. apply Hc. left.
    + rewrite IH; [lia|]. intros ?. apply Hc. by right.
Qed.

Lemma find_from_last_absent c string :
  c ∉ string → find_from_last string [c] = (-1)%Z.
Proof.
  intros Hc. unfold find_from_last, find.
  rewrite find_from_absent; [done|]. by rewrite elem_of_reverse.
Qed.

Lemma find_from_last_last c pre post :
  c ∉ post → find_from_last (pre ++ c :: post) [c] = Z.of_nat (length pre).
Proof.
  intros Hc. unfold find_from_last, find.
  rewrite reverse_app, reverse_cons, <- app_assoc. simpl.
  rewrite find_from_first by (by rewrite elem_of_reverse).
  rewrite length_reverse, length_app. simpl.
  case_decide; lia.
Qed.

Lemma split_last_sentence_no_period sentences :
  "."%char ∉ sentences → split_last_sentence sentences = ([], sentences).
Proof.
  intros H. unfold split_last_sentence.
  change (lit ".") with ["."%char].
  rewrite find_from_last_absent by done. by case_decide.
Qed.

Lemma split_last_sentence_period pre post :
  "."%char ∉ post →
  split_last_sentence (pre ++ "."%char :: post) = (pre ++ ["."%char], drop 1 post).
Proof.
  intros H. unfold split_last_sentence.
  change (lit ".") with ["."%char].
  rewrite find_from_last_last by done.
  case_decide; [lia|].
  rewrite slice_to, slice_from by lia. f_equal.
  - replace (Z.to_nat (Z.of_nat (length pre) + 1)) with (length pre + 1) by lia.
    rewrite take_app_add'; [|done]. by rewrite firstn_cons, take_0.
  - replace (Z.to_nat (Z.of_nat (length pre) + 2)) with (length pre + 2) by lia.
    rewrite drop_app_add'; [|done]. done.
Qed.

(** Either case applies: a block with a period has a last one. *)
Lemma last_period_split (c : ascii) string :
  c ∈ string → ∃ pre post, string = pre ++ c :: post ∧ c ∉ post.
Proof.
  induction string as [|b rest IH]; [by intros ?%elem_of_nil|].
  intros Hin. destruct (decide (c ∈ rest)) as [Hr|Hr].
  - destruct (IH Hr) as (pre & post & -> & Hp). by exists (b :: pre), post.
  - apply elem_of_cons in Hin as [->|?]; [|done]. by exists [], rest.
Qed.

Lemma split_last_sentence_parts sentences :
  ∀ x, x ∈ (split_last_sentence sentences).1 ∨ x ∈ (split_last_sentence sentences).2
       → x ∈ sentences.
Proof.
  intros x. unfold split_last_sentence. case_decide; simpl.
  - intros [?%elem_of_nil|?]; done.
  - intros [?|?]; by eapply slice_elem_of.
Qed.

(** ** The matcher *)

Section MatcherFacts.

Variable subject : str.

Lemma repeat_loop_sound (body : cont → cont) (D : relation MState) greedy fuel k st res :
  (∀ k st res, body k st = Some res → ∃ st', D st st' ∧ k st' = Some res) →
  repeat_loop body greedy fuel k st = Some res →
  ∃ st', rtc D st st' ∧ k st' = Some res.
Proof.
  intros Hbody. revert st. induction fuel as [|fuel IH]; intros st; simpl.
  - intros Hk. by exists st.
  - assert (∀ st, body (λ st', if decide (pos st < pos st')
                            then repeat_loop body greedy fuel k st' else None) st
                  = Some res → ∃ st', rtc D st st' ∧ k st' = Some res) as Hiter.
    { intros st0 (st1 & Hstep & Hrest)%Hbody. case_decide; [|done].
      apply IH in Hrest as (st' & Hrtc & Hk). exists st'. split; [|done].
      by eapply rtc_l. }
    destruct greedy.
    + destruct (body _ st) eqn:E.
      * intros [= ->]. by apply Hiter.
      * intros Hk. by exists st.
    + destruct (k st) eqn:E.
      * intros [= ->]. by exists st.
      * apply Hiter.
Qed.

Lemma rmatch_sound r : ∀ k st res,
  rmatch subject r k st = Some res →
  ∃ st', den subject r st st' ∧ k st' = Some res.
Proof.
  induction r as [c| | |r1 IH1 r2 IH2|g r IH|g r IH|n r IH]; intros k st res; simpl.
  - destruct (subject !! pos st) as [c'|] eqn:E; [|done].
    case_decide; [subst|done]. intros Hk. by exists (advance st).
  - destruct (subject !! pos st) as [c'|] eqn:E; [|done].
    case_decide; [done|]. intros Hk. exists (advance st). eauto.
  - destruct (at_line_start subject st) eqn:E; [|done].
    intros Hk. by exists st.
  - intros (mid & H1 & (st' & H2 & Hk)%IH2)%IH1. exists st'. eauto.
  - by apply repeat_loop_sound.
  - intros (mid & H1 & Hloop)%IH.
    eapply repeat_loop_sound in Hloop as (st' & Hrtc & Hk); [|done].
    exists st'. eauto.
  - intros (st1 & H1 & Hk)%IH. eexists. eauto.
Qed.

Lemma rtc_frame (D : relation MState) (n : nat) st st' :
  (∀ st st', D st st' → pos st ≤ pos st' ∧ caps st' !! n = caps st !! n) →
  rtc D st st' → pos st ≤ pos st' ∧ caps st' !! n = caps st !! n.
Proof.
  intros HD. induction 1 as [|x y z Hxy _ [IHp IHc]]; [done|].
  apply HD in Hxy as [? ?]. split; [lia|congruence].
Qed.

(** A run never moves backwards and leaves the groups it does not contain
    as they were. *)
Lemma den_frame r n : ∀ st st',
  ¬ binds n r → den subject r st st' →
  pos st ≤ pos st' ∧ caps st' !! n = caps st !! n.
Proof.
  induction r as [c| | |r1 IH1 r2 IH2|g r IH|g r IH|m r IH]; intros st st' Hn; simpl.
  - intros [_ ->]. simpl. split; [lia|done].
  - intros [_ ->]. simpl. split; [lia|done].
  - intros [_ ->]. done.
  - intros (mid & H1 & H2). simpl in Hn.
    apply IH1 in H1 as [? ?]; [|tauto]. apply IH2 in H2 as [? ?]; [|tauto].
    split; [lia|congruence].
  - apply rtc_frame. intros ? ?. by apply IH.
  - intros (mid & H1 & H2). apply IH in H1 as [? ?]; [|done].
    eapply rtc_frame in H2 as [? ?]; [|intros ? ?; by apply IH].
    split; [lia|congruence].
  - intros (st1 & H1 & ->). simpl in Hn.
    apply IH in H1 as [? ?]; [|tauto]. simpl. split; [done|].
    rewrite lookup_insert_ne; [done|]. intros <-. tauto.
Qed.

(** A run of [.] reads characters other than newline only. *)
Lemma rtc_anychar st st' :
  rtc (den subject AnyChar) st st' →
  pos st ≤ pos st' ∧ caps st' = caps st ∧
  ∀ i, pos st ≤ i < pos st' → ∃ c, subject !! i = Some c ∧ c ≠ NL.
Proof.
  induction 1 as [|x y z Hxy _ (IHp & IHc & IHr)].
  - split; [done|]. split; [done|]. intros i ?. lia.
  - destruct Hxy as [(c & Hc & Hnl) ->]. simpl in *.
    split; [lia|]. split; [done|]. intros i Hi.
    destruct (decide (i = pos x)) as [->|]; [eauto|]. apply IHr. lia.
Qed.

Lemma search_from_sound r todo start m :
  search_from subject r todo start = Some m →
  ∃ start', start ≤ start' ≤ start + todo ∧ match_at subject r start' = Some m.
Proof.
  revert start. induction todo as [|todo IH]; intros start; simpl.
  - destruct (match_at subject r start) eqn:E; [|done]. intros [= ->].
    exists start. split; [lia|done].
  - destruct (match_at subject r start) eqn:E.
    + intros [= ->]. exists start. split; [lia|done].
    + intros (start' & ? & ?)%IH. exists start'. split; [lia|done].
Qed.

End MatcherFacts.

Section MatcherComplete.

Variable subject : str.

Lemma rtc_pos (D : relation MState) st st' :
  (∀ st st', D st st' →
     pos st ≤ pos st' ∧ (pos st ≤ length subject → pos st' ≤ length subject)) →
  rtc D st st' →
  pos st ≤ pos st' ∧ (pos st ≤ length subject → pos st' ≤ length subject).
Proof.
  intros HD. induction 1 as [|x y z Hxy _ [IH1 IH2]]; [done|].
  apply HD in Hxy as [? ?]. split; [lia|auto].
Qed.

(** A run moves forward and stays within the subject. *)
Lemma den_pos r : ∀ st st',
  den subject r st st' →
  pos st ≤ pos st' ∧ (pos st ≤ length subject → pos st' ≤ length subject).
Proof.
  induction r as [c| | |r1 IH1 r2 IH2|g r IH|g r IH|n r IH]; intros st st'; simpl.
  - intros [Hc ->]. apply lookup_lt_Some in Hc. simpl. lia.
  - intros [(c & Hc & _) ->]. apply lookup_lt_Some in Hc. simpl. lia.
  - by intros [_ ->].
  - intros (mid & [? ?]%IH1 & [? ?]%IH2). split; [lia|auto].
  - by apply rtc_pos.
  - intros (mid & [? ?]%IH & [? ?]%(rtc_pos _ _ _ IH)). split; [lia|auto].
  - intros (st1 & [? ?]%IH & ->). done.
Qed.

Lemma den_consumes r : ∀ st st',
  consumes r = true → den subject r st st' → pos st < pos st'.
Proof.
  induction r as [c| | |r1 IH1 r2 IH2|g r IH|g r IH|n r IH]; intros st st'; simpl;
    try done.
  - intros _ [_ ->]. simpl. lia.
  - intros _ [_ ->]. simpl. lia.
  - intros Hc (mid & H1 & H2).
    pose proof (den_pos _ _ _ H1) as [? _]. pose proof (den_pos _ _ _ H2) as [? _].
    apply orb_true_iff in Hc as [Hc|Hc].
    + specialize (IH1 _ _ Hc H1). lia.
    + specialize (IH2 _ _ Hc H2). lia.
  - intros Hc (mid & H1 & H2). specialize (IH _ _ Hc H1).
    apply (rtc_pos _ _ _ (den_pos r)) in H2 as [? _]. lia.
  - intros Hc (st1 & H1 & ->). simpl. by eapply IH.
Qed.

(** If a loop over a consuming body fails, then no sequence of iterations
    leads to a state from which the rest of the pattern succeeds. *)
Lemma repeat_loop_complete (body : cont → cont) (D : relation MState) greedy k :
  (∀ st st', D st st' →
     pos st < pos st' ∧ (pos st ≤ length subject → pos st' ≤ length subject)) →
  (∀ k st, pos st ≤ length subject →
     body k st = None → ∀ st', D st st' → k st' = None) →
  ∀ fuel st st',
    pos st ≤ length subject → length subject - pos st ≤ fuel →
    repeat_loop body greedy fuel k st = None →
    rtc D st st' → k st' = None.
Proof.
  intros HD Hbody fuel st st' Hin Hfuel Hnone Hrtc.
  revert fuel Hin Hfuel Hnone.
  induction Hrtc as [st|st st1 st' Hstep Hrtc IH]; intros fuel Hin Hfuel Hnone.
  - destruct fuel as [|fuel]; simpl in Hnone; [done|].
    destruct greedy.
    + by destruct (body _ st).
    + by destruct (k st).
  - destruct (HD _ _ Hstep) as [Hlt Hle]. specialize (Hle Hin).
    destruct fuel as [|fuel]; [lia|]. simpl in Hnone.
    assert (body (λ st', if decide (pos st < pos st')
                         then repeat_loop body greedy fuel k st' else None) st
            = None) as Hiter.
    { destruct greedy; [by destruct (body _ st)|by destruct (k st)]. }
    pose proof (Hbody _ _ Hin Hiter _ Hstep) as Hnext. simpl in Hnext.
    rewrite decide_True in Hnext by done.
    eapply IH; [done| |exact Hnext]. lia.
Qed.

Lemma rmatch_complete r : ∀ k st,
  productive r = true → pos st ≤ length subject →
  rmatch subject r k st = None →
  ∀ st', den subject r st st' → k st' = None.
Proof.
  induction r as [c| | |r1 IH1 r2 IH2|g r IH|g r IH|n r IH];
    intros k st Hprod Hin; simpl.
  - intros Hnone st' [Hc ->]. rewrite Hc in Hnone. by rewrite decide_True in Hnone.
  - intros Hnone st' [(c & Hc & Hnl) ->]. rewrite Hc in Hnone.
    by rewrite decide_False in Hnone.
  - intros Hnone st' [Hb ->]. by rewrite Hb in Hnone.
  - simpl in Hprod. apply andb_true_iff in Hprod as [Hp1 Hp2].
    intros Hnone st' (mid & H1 & H2).
    eapply (IH2 _ mid); [done| |by eapply IH1|done].
    by eapply den_pos.
  - simpl in Hprod. apply andb_true_iff in Hprod as [Hc Hp].
    intros Hnone st'.
    eapply (repeat_loop_complete (rmatch subject r) (den subject r));
      [| |exact Hin|done|exact Hnone].
    + intros x y Hxy. split; [by eapply den_consumes|by eapply den_pos].
    + intros k' x Hx Hnone' y Hxy. by eapply IH.
  - simpl in Hprod. apply andb_true_iff in Hprod as [Hc Hp].
    intros Hnone st' (mid & H1 & H2).
    pose proof (IH _ _ Hp Hin Hnone _ H1) as Hloop. simpl in Hloop.
    eapply (repeat_loop_complete (rmatch subject r) (den subject r));
      [| | |done|exact Hloop|exact H2].
    + intros x y Hxy. split; [by eapply den_consumes|by eapply den_pos].
    + intros k' x Hx Hnone' y Hxy. by eapply IH.
    + by eapply den_pos.
  - intros Hnone st' (st1 & H1 & ->).
    by apply (IH _ _ Hprod Hin Hnone _ H1).
Qed.

Lemma search_from_complete r todo start :
  search_from subject r todo start = None →
  ∀ start', start ≤ start' ≤ start + todo → match_at subject r start' = None.
Proof.
  revert start. induction todo as [|todo IH]; intros start; simpl.
  - destruct (match_at subject r start) eqn:E; [done|].
    intros _ start' ?. by replace start' with start by lia.
  - destruct (match_at subject r start) eqn:E; [done|].
    intros Hnone start' ?. destruct (decide (start' = start)) as [->|]; [done|].
    apply (IH _ Hnone). lia.
Qed.

(** [search] finds a match exactly when there is a run of the pattern from
    some start position of the subject. *)
Lemma search_None_iff r :
  productive r = true →
  search subject r = None
  ↔ ∀ start st', start ≤ length subject →
                 ¬ den subject r {| pos := start; caps := ∅ |} st'.
Proof.
  intros Hprod. split.
  - intros Hnone start st' Hstart Hden.
    pose proof (search_from_complete _ _ _ Hnone start) as Hat.
    unfold match_at in Hat.
    destruct (rmatch subject r Some _) as [res|] eqn:E.
    + assert (0 ≤ start ≤ 0 + length subject) as Hb by lia.
      by specialize (Hat Hb).
    + by pose proof (rmatch_complete r Some {| pos := start; caps := ∅ |}
                       Hprod Hstart E _ Hden).
  - intros Hno. destruct (search subject r) as [m|] eqn:E; [|done]. exfalso.
    apply search_from_sound in E as (start & Hb & Hm). unfold match_at in Hm.
    destruct (rmatch subject r Some _) as [st|] eqn:E; [|done].
    apply rmatch_sound in E as (st' & Hden & _).
    eapply (Hno start); [lia|done].
Qed.

End MatcherComplete.

Lemma pattern_productive : productive pattern = true.
Proof. reflexivity. Qed.

Lemma rtc_lit subject c st st' :
  rtc (den subject (Lit c)) st st' →
  pos st ≤ pos st' ∧ caps st' = caps st ∧
  ∀ i, pos st ≤ i < pos st' → subject !! i = Some c.
Proof.
  induction 1 as [|x y z Hxy _ (IHp & IHc & IHr)].
  - split; [done|]. split; [done|]. intros i ?. lia.
  - destruct Hxy as [Hc ->]. simpl in *.
    split; [lia|]. split; [done|]. intros i Hi.
    destruct (decide (i = pos x)) as [->|]; [eauto|]. apply IHr. lia.
Qed.

Lemma search_pattern_shape subject m :
  search subject pattern = Some m → match_shape subject m.
Proof.
  intros (start & _ & Hm)%search_from_sound. unfold match_at in Hm.
  destruct (rmatch _ _ _ _) as [st|] eqn:E; [|done]. injection Hm as <-.
  apply rmatch_sound in E as (st' & Hden & [= ->]).
  destruct Hden as (mid1 & (st1 & Hg1 & ->) & mid2 & Hnls & mid3 & [_ ->]
    & mid4 & (st4 & (sta & Ha & Hg2) & ->) & mid5 & [Hcolon ->]
    & mid6 & [Hnl1 ->] & mid7 & [Hnl2 ->] & st8 & Hbul & ->).
  apply rtc_anychar in Hg1 as (Hp1 & Hc1 & Hr1).
  apply rtc_lit in Hnls as (Hp2 & Hc2 & Hr2).
  destruct Ha as [(c & Hc & Hcnl) ->].
  apply rtc_anychar in Hg2 as (Hp4 & Hc4 & Hr4).
  set (m0 := advance (advance (advance _))) in *.
  destruct Hbul as (stb & (m1 & [_ Hm1] & m2 & [Hstar Hm2] & m3 & [Hsp Hm3] & Hrest)
    & Hmore).
  subst m1 m2 m3.
  assert (pos m0 + 2 ≤ pos stb ∧ ∀ n, caps stb !! n = caps m0 !! n) as [Hpb Hcb].
  { destruct Hrest as (m4 & Hx & Hy). split.
    - eapply (den_frame _ _ 0) in Hx as [? _]; [|simpl; tauto].
      eapply (den_frame _ _ 0) in Hy as [? _]; [|simpl; tauto].
      simpl in *. lia.
    - intros n.
      eapply (den_frame _ _ n) in Hx as [_ ?]; [|simpl; tauto].
      eapply (den_frame _ _ n) in Hy as [_ ?]; [|simpl; tauto].
      simpl in *. congruence. }
  assert (pos stb ≤ pos st8 ∧ ∀ n, caps st8 !! n = caps stb !! n) as [Hp8 Hc8].
  { split.
    - eapply (rtc_frame _ 0) in Hmore as [? _]; [done|].
      intros ? ?. apply den_frame. simpl. tauto.
    - intros n. eapply (rtc_frame _ n) in Hmore as [_ ?]; [done|].
      intros ? ?. apply den_frame. simpl. tauto. }
  subst m0. simpl in *.
  exists start, (pos st1), (pos mid2), (pos st4), (pos st8). simpl.
  replace (pos st4 + 3) with (S (S (S (pos st4)))) by lia.
  replace (pos st4 + 4) with (S (S (S (S (pos st4))))) by lia.
  replace (pos st4 + 1) with (S (pos st4)) by lia.
  replace (pos st4 + 2) with (S (S (pos st4))) by lia.
  split_and!; try done; try lia.
  - rewrite lookup_insert_ne by done.
    rewrite Hc8, Hcb, lookup_insert_ne by done.
    rewrite Hc4, Hc2. apply lookup_insert_eq.
  - rewrite lookup_insert_ne by done.
    rewrite Hc8, Hcb. apply lookup_insert_eq.
  - apply lookup_insert_eq.
  - intros i Hi. destruct (decide (i = pos mid2)) as [->|]; [eauto|].
    apply Hr4. lia.
Qed.

(** ** The rule rewriter *)

Lemma modify_rule_matched rule m :
  search rule pattern = Some m →
  modify_rule rule
  = let '(pretext2, condition) := split_last_sentence (group rule m 2) in
    if excluded condition then rule
    else flattened (group rule m 1) pretext2 condition (group rule m 3).
Proof. intros H. unfold modify_rule. rewrite H. done. Qed.

Lemma adjacent_newlines_lookup l i :
  l !! i = Some NL → l !! S i = Some NL → adjacent_newlines l = true.
Proof.
  revert i. induction l as [|a l IH]; intros i; [done|].
  destruct i as [|i]; simpl.
  - intros [= ->] H. destruct l as [|b l]; [done|]. injection H as ->.
    by rewrite !bool_decide_eq_true_2.
  - intros H1 H2. rewrite (IH i H1 H2). apply orb_true_r.
Qed.

Lemma adjacent_newlines_skip w l :
  NL ∉ w → adjacent_newlines (w ++ NL :: l) = adjacent_newlines (NL :: l).
Proof.
  induction w as [|a w IH]; [done|]. intros Hw.
  apply not_elem_of_cons in Hw as [Ha Hw].
  change ((a :: w) ++ NL :: l) with (a :: (w ++ NL :: l)).
  cbn [adjacent_newlines]. rewrite IH by done.
  by rewrite (bool_decide_eq_false_2 (a = NL)).
Qed.

(** Text made of non-empty lines, each closed by a newline, neither starts
    with a newline nor has two in a row. *)
Lemma adjacent_newlines_lines (ws : list str) :
  Forall (λ w, w ≠ [] ∧ NL ∉ w) ws →
  head (concat (map (λ w, w ++ [NL]) ws)) ≠ Some NL
  ∧ adjacent_newlines (concat (map (λ w, w ++ [NL]) ws)) = false.
Proof.
  induction 1 as [|w ws [Hne Hw] _ [IHh IHa]]; [done|].
  simpl. rewrite <- app_assoc. simpl. split.
  - destruct w as [|a w]; [done|]. simpl. intros [= ->]. apply Hw. left.
  - rewrite adjacent_newlines_skip by done.
    cbn [adjacent_newlines]. rewrite IHa.
    by rewrite (bool_decide_eq_false_2 (head _ = Some NL)).
Qed.

Lemma split_sep_free sep string : Forall (λ p, sep ∉ p) (split sep string).
Proof.
  induction string as [|c string IH]; simpl.
  - constructor; [apply not_elem_of_nil|constructor].
  - case_decide; subst.
    + constructor; [apply not_elem_of_nil|done].
    + destruct (split sep string) as [|p ps].
      * constructor; [|done]. by intros ->%list_elem_of_singleton.
      * inversion IH; subst. constructor; [|done].
        by intros [->|?]%elem_of_cons.
Qed.

Lemma span_newline_free (subject : str) b e :
  (∀ i, b ≤ i < e → ∃ c, subject !! i = Some c ∧ c ≠ NL) →
  NL ∉ slice subject (Some (Z.of_nat b)) (Some (Z.of_nat e)).
Proof.
  intros H. rewrite slice_span. intros Hin.
  apply elem_of_take in Hin as (j & Hj & Hlt).
  rewrite lookup_drop in Hj.
  destruct (H (b + j)) as (c & Hc & Hnl); [lia|]. congruence.
Qed.

Lemma flattened_lines g1 p2 cond g3 :
  NL ∉ cond →
  ∃ ws, Forall (λ w, w ≠ [] ∧ NL ∉ w) ws
        ∧ flattened g1 p2 cond g3
          = g1 ++ NL :: p2 ++ NL :: concat (map (λ w, w ++ [NL]) ws).
Proof.
  intros Hcond.
  exists (map (λ a, cond ++ lit " " ++ slice a (Some 2%Z) None ++ lit ".")
              (split NL g3)).
  split.
  - apply Forall_map. eapply Forall_impl; [apply split_sep_free|].
    intros a Ha. cbv beta. split.
    + destruct cond; done.
    + rewrite !not_elem_of_app. split_and!; [done|..].
      * intros [=]%list_elem_of_singleton.
      * intros ?%slice_elem_of. done.
      * intros [=]%list_elem_of_singleton.
  - unfold flattened, join. rewrite <- !app_assoc. do 4 f_equal.
    rewrite map_map. f_equal. apply map_ext. intros a. by rewrite <- !app_assoc.
Qed.

(** Past its first line the rewritten text has no two newlines in a row. *)
Lemma flattened_lookup_newlines g1 p2 cond g3 j :
  NL ∉ p2 → NL ∉ cond →
  length g1 < j →
  flattened g1 p2 cond g3 !! j = Some NL →
  flattened g1 p2 cond g3 !! S j ≠ Some NL.
Proof.
  intros Hp2 Hcond Hj H1 H2.
  destruct (flattened_lines g1 p2 cond g3 Hcond) as (ws & Hws & Heq).
  rewrite Heq in H1, H2. clear Heq.
  rewrite lookup_app_r in H1, H2 by lia.
  replace (S j - length g1) with (S (j - length g1)) in H2 by lia.
  destruct (j - length g1) as [|j'] eqn:Ej; [lia|].
  rewrite !lookup_cons in H1, H2.
  pose proof (adjacent_newlines_lookup _ _ H1 H2) as Hadj.
  rewrite adjacent_newlines_skip in Hadj by done.
  destruct (adjacent_newlines_lines ws Hws) as [Hh Ha].
  cbn [adjacent_newlines] in Hadj.
  rewrite Ha, (bool_decide_eq_false_2 (head _ = Some NL)) in Hadj by done.
  done.
Qed.

Lemma starts_with_spec prefix string :
  starts_with prefix string = true ↔ ∃ rest, string = prefix ++ rest.
Proof.
  revert string. induction prefix as [|a p IH]; intros string; simpl.
  - split; eauto.
  - destruct string as [|b string].
    + split; [done|]. by intros [? ?].
    + case_decide; subst.
      * rewrite IH. split; intros [rest H]; exists rest; simpl in *; congruence.
      * split; [done|]. intros [rest [= ]]. congruence.
Qed.

(** [substring in string] holds exactly when [string] has an occurrence of
    [substring]. *)
Lemma str_in_spec substring string :
  str_in substring string = true ↔ ∃ a b, string = a ++ substring ++ b.
Proof.
  induction string as [|c string IH]; simpl.
  - destruct (starts_with substring []) eqn:E.
    + apply starts_with_spec in E as [rest E]. split; [|done]. intros _. by exists [], rest.
    + split; [done|]. intros (a & b & H).
      destruct a; [|done]. simpl in H.
      assert (starts_with substring [] = true) by (apply starts_with_spec; eauto).
      congruence.
  - destruct (starts_with substring (c :: string)) eqn:E.
    + apply starts_with_spec in E as [rest E]. split; [|done]. intros _. by exists [], rest.
    + rewrite IH. split.
      * intros (a & b & ->). by exists (c :: a), b.
      * intros (a & b & H). destruct a as [|c' a].
        -- simpl in H.
           assert (starts_with substring (c :: string) = true)
             by (apply starts_with_spec; eauto).
           congruence.
        -- injection H as -> ->. eauto.
Qed.

Lemma excluded_spec condition :
  excluded condition = true
  ↔ ∃ word, word ∈ exclude_words ∧ ∃ a b, condition = a ++ word ++ b.
Proof.
  unfold excluded. rewrite existsb_exists. split.
  - intros (w & Hin & Hw). exists w. split; [by apply list_elem_of_In|].
    by apply str_in_spec.
  - intros (w & Hin & Hw). exists w. split; [by apply list_elem_of_In|].
    by apply str_in_spec.
Qed.

(** When the pattern matches and no exclusion word stops it, the text
    changes: the colon line, the empty line after it and the first bullet
    cannot survive the rewriting. *)
Lemma flattened_ne_rule rule m :
  search rule pattern = Some m →
  flattened (group rule m 1) (split_last_sentence (group rule m 2)).1
            (split_last_sentence (group rule m 2)).2 (group rule m 3) ≠ rule.
Proof.
  intros (b1 & e1 & b2 & e2 & e3 & H1 & H2 & H3 & _ & _ & Hb1 & He1 & Hb2 & _
          & Hr1 & _ & Hr2 & _ & Hn1 & Hn2 & _)%search_pattern_shape Heq.
  unfold group in Heq. rewrite H1, H2, H3 in Heq.
  set (g1 := slice rule _ (Some (Z.of_nat e1))) in *.
  set (g2 := slice rule _ (Some (Z.of_nat e2))) in *.
  assert (NL ∉ g2) as Hg2 by by apply span_newline_free.
  assert (length g1 ≤ e1 - b1) as Hlen.
  { unfold g1. rewrite slice_span, length_take. lia. }
  rewrite <- Heq in Hn1, Hn2.
  replace (e2 + 2) with (S (e2 + 1)) in Hn2 by lia.
  eapply flattened_lookup_newlines; [| |  |exact Hn1|exact Hn2].
  - intros ?. apply Hg2. apply split_last_sentence_parts. eauto.
  - intros ?. apply Hg2. apply split_last_sentence_parts. eauto.
  - lia.
Qed.

(** The matches [search] finds on two of the worked inputs. *)
Example search_rule_flatten :
  ∃ m, search rule_flatten pattern = Some m
       ∧ m_start m = 0 ∧ m_end m = 41
       ∧ group rule_flatten m 1 = lit "Intro."
       ∧ group rule_flatten m 2 = lit "Condition"
       ∧ group rule_flatten m 3
         = lit "* item one" ++ [NL] ++ lit "* item two" ++ [NL].
Proof. eexists. split_and!; vm_compute; reflexivity. Qed.

Example search_rule_late_match :
  ∃ m, search rule_late_match pattern = Some m
       ∧ m_start m = 2 ∧ m_end m = 14
       ∧ group rule_late_match m 1 = lit "B"
       ∧ group rule_late_match m 2 = lit "Cond"
       ∧ group rule_late_match m 3 = lit "* x"
       ∧ modify_rule rule_late_match
         = lit "B" ++ [NL; NL] ++ lit "Cond x." ++ [NL].
Proof. eexists. split_and!; vm_compute; reflexivity. Qed.

(** C8. On an input in which the pattern does not occur, [modify_rule]
    returns the input, so applying it twice is the same as applying it
    once. [modify_rule] is a total function: it always returns a text. *)
Theorem C8_modify_rule_without_match (x : str) :
  search x pattern = None →
  modify_rule x = x ∧ modify_rule (modify_rule x) = modify_rule x.
Proof.
  intros H. assert (modify_rule x = x) as Hx.
  { unfold modify_rule. by rewrite H. }
  by rewrite !Hx.
Qed.

(** C8 on a rule without bullets. *)
Lemma C8_witness :
  search rule_plain pattern = None
  ∧ modify_rule rule_plain = rule_plain
  ∧ modify_rule (modify_rule rule_plain) = modify_rule rule_plain.
Proof.
  assert (search rule_plain pattern = None) as H by (vm_compute; reflexivity).
  split; [exact H|]. exact (C8_modify_rule_without_match rule_plain H).
Defined.

(** C3 (amended). When the pattern matches, the label line (group 2) is split
    at its last period. The text up to and including that period is added
    to the pretext, after a newline; what follows the period, less one
    character, is the condition clause that is put in front of every bullet.
    When the label line has no period, nothing is added to the pretext but
    the newline, and the whole label line is the condition clause. *)
Theorem C3_last_sentence_is_condition (rule : str) (m : Match) :
  search rule pattern = Some m →
  (∀ pre post,
     group rule m 2 = pre ++ "."%char :: post → "."%char ∉ post →
     excluded (drop 1 post) = false →
     modify_rule rule
     = flattened (group rule m 1) (pre ++ ["."%char]) (drop 1 post)
                 (group rule m 3)) ∧
  ("."%char ∉ group rule m 2 → excluded (group rule m 2) = false →
   modify_rule rule
   = flattened (group rule m 1) [] (group rule m 2) (group rule m 3)).
Proof.
  intros Hm. split.
  - intros pre post Hg Hpost Hex.
    rewrite (modify_rule_matched _ _ Hm), Hg.
    rewrite split_last_sentence_period by done. by rewrite Hex.
  - intros Hnone Hex.
    rewrite (modify_rule_matched _ _ Hm).
    rewrite split_last_sentence_no_period by done. by rewrite Hex.
Qed.

(** C3 on a label line of two sentences. *)
Lemma C3_witness :
  ∃ m, search rule_last_sentence pattern = Some m
       ∧ modify_rule rule_last_sentence
         = flattened (group rule_last_sentence m 1) (lit "Intro.")
                     (lit "You qualify if") (group rule_last_sentence m 3).
Proof.
  eexists. split; [vm_compute; reflexivity|].
  refine (proj1 (C3_last_sentence_is_condition rule_last_sentence _ _)
            (lit "Intro") (lit " You qualify if") _ _ _).
  - vm_compute; reflexivity.
  - vm_compute; reflexivity.
  - rewrite list_elem_of_In. vm_compute. intuition discriminate.
  - vm_compute; reflexivity.
Defined.

(** The claim of C3 as worded fails on both of its cases. On
    [rule_last_sentence] the clause put in front of the bullet is the last
    sentence of the label line, not the text up to its last period. On
    [rule_flatten], whose label line has no period, the whole label line is
    the clause, and it is not moved to the pretext. *)
Lemma C3_counterexample :
  (∃ m, search rule_last_sentence pattern = Some m ∧
     let block := group rule_last_sentence m 2 in
     block = lit "Intro. You qualify if" ∧
     spec_split_last_sentence block = (lit " You qualify if", lit "Intro.") ∧
     split_last_sentence block = (lit "Intro.", lit "You qualify if") ∧
     modify_rule rule_last_sentence
     = [NL] ++ lit "Intro." ++ [NL] ++ lit "You qualify if a." ++ [NL] ∧
     modify_rule rule_last_sentence
     ≠ flattened (group rule_last_sentence m 1)
                 (spec_split_last_sentence block).1
                 (spec_split_last_sentence block).2
                 (group rule_last_sentence m 3)) ∧
  (∃ m, search rule_flatten pattern = Some m ∧
     let block := group rule_flatten m 2 in
     block = lit "Condition" ∧
     spec_split_last_sentence block = (lit "Condition", []) ∧
     split_last_sentence block = ([], lit "Condition") ∧
     modify_rule rule_flatten
     ≠ flattened (group rule_flatten m 1)
                 (spec_split_last_sentence block).1
                 (spec_split_last_sentence block).2
                 (group rule_flatten m 3)).
Proof.
  split.
  - eexists. split; [vm_compute; reflexivity|].
    split_and!; try (vm_compute; reflexivity).
    vm_compute. discriminate.
  - eexists. split; [vm_compute; reflexivity|].
    split_and!; try (vm_compute; reflexivity).
    vm_compute. discriminate.
Qed.

(** C10. The exclusion list has five entries, the first being the single
    string made of a hash sign, a comma and the word both. When the pattern
    matches, [modify_rule] returns its input unchanged exactly when one of
    the five entries occurs, with the same letter case, as a substring of
    the condition clause. So a clause with none of the five is rewritten,
    whatever other words it has, and a clause with the word includes is left
    alone, as that word contains the entry include. *)
Theorem C10_exclusion_is_substring_test (rule : str) (m : Match) :
  search rule pattern = Some m →
  let condition := (split_last_sentence (group rule m 2)).2 in
  exclude_words
  = [lit "#,both"; lit "following"; lit "either"; lit "including"; lit "include"] ∧
  (lit "both" ∉ exclude_words) ∧
  (modify_rule rule = rule
   ↔ ∃ word, word ∈ exclude_words ∧ ∃ a b, condition = a ++ word ++ b) ∧
  ((∀ word, word ∈ exclude_words → ¬ ∃ a b, condition = a ++ word ++ b) →
   modify_rule rule
   = flattened (group rule m 1) (split_last_sentence (group rule m 2)).1
               condition (group rule m 3)
   ∧ modify_rule rule ≠ rule) ∧
  ((∃ a b, condition = a ++ lit "includes" ++ b) → modify_rule rule = rule).
Proof.
  intros Hm condition.
  pose proof (modify_rule_matched _ _ Hm) as Hmod.
  pose proof (flattened_ne_rule _ _ Hm) as Hne.
  destruct (split_last_sentence (group rule m 2)) as [pretext2 cond] eqn:Hsplit.
  simpl in *. subst condition.
  assert (modify_rule rule = rule
          ↔ ∃ word, word ∈ exclude_words ∧ ∃ a b, cond = a ++ word ++ b) as Hiff.
  { rewrite <- excluded_spec, Hmod. destruct (excluded cond); split; congruence. }
  split; [reflexivity|].
  split; [rewrite list_elem_of_In; vm_compute; intuition discriminate|].
  split; [exact Hiff|]. split.
  - intros Hnone. assert (excluded cond = false) as Hex.
    { apply not_true_is_false. rewrite excluded_spec.
      intros (w & Hw & Hocc). by eapply Hnone. }
    rewrite Hmod, Hex. done.
  - intros (a & b & ->). apply Hiff. exists (lit "include").
    split; [unfold exclude_words; set_solver|].
    exists a, ("s"%char :: b). reflexivity.
Qed.

(** C10 on a clause that has the word both and none of the five entries. *)
Lemma C10_witness :
  ∃ m, search rule_both pattern = Some m
       ∧ modify_rule rule_both
         = flattened (group rule_both m 1) []
                     (lit "You must do both") (group rule_both m 3)
       ∧ modify_rule rule_both ≠ rule_both.
Proof.
  eexists. split; [vm_compute; reflexivity|].
  refine (proj1 (proj2 (proj2 (proj2
            (C10_exclusion_is_substring_test rule_both _ _)))) _).
  - vm_compute; reflexivity.
  - intros word Hw Hocc.
    assert (excluded (lit "You must do both") = true) as Hex
      by (apply excluded_spec; eauto).
    vm_compute in Hex. discriminate.
Defined.

(** The literal cases of C10 on concrete rules. *)
Example exclusion_cases :
  modify_rule rule_both
  = [NL; NL] ++ lit "You must do both a." ++ [NL] ++ lit "You must do both b." ++ [NL]
  ∧ modify_rule rule_Both
    = [NL; NL] ++ lit "Both apply a." ++ [NL] ++ lit "Both apply b." ++ [NL]
  ∧ modify_rule rule_Following
    = [NL; NL] ++ lit "Following apply a." ++ [NL]
  ∧ modify_rule rule_includes = rule_includes.
Proof. split_and!; vm_compute; reflexivity. Qed.

(** C4 at its failing input. The condition clause of [rule_both] contains
    the word both, and the rule is rewritten all the same; the fallback
    example of the specification is returned unchanged, because of the word
    following. *)
Theorem C4_both_does_not_stop_rewriting :
  (∃ m, search rule_both pattern = Some m
        ∧ str_in (lit "both") (split_last_sentence (group rule_both m 2)).2 = true)
  ∧ modify_rule rule_both
    = [NL; NL] ++ lit "You must do both a." ++ [NL] ++ lit "You must do both b." ++ [NL]
  ∧ modify_rule rule_both ≠ rule_both
  ∧ modify_rule rule_fallback = rule_fallback.
Proof.
  split_and!.
  - eexists. split; vm_compute; reflexivity.
  - vm_compute; reflexivity.
  - vm_compute; discriminate.
  - vm_compute; reflexivity.
Qed.

(** C6 at its failing input. The bullets of [rule_flatten] end with a
    newline, so splitting them at newlines gives a third, empty piece, and
    the output has a third line made of the condition clause alone. *)
Theorem C6_empty_piece_gives_extra_line :
  (∃ m, search rule_flatten pattern = Some m
        ∧ group rule_flatten m 3
          = lit "* item one" ++ [NL] ++ lit "* item two" ++ [NL]
        ∧ split NL (group rule_flatten m 3)
          = [lit "* item one"; lit "* item two"; []])
  ∧ modify_rule rule_flatten
    = lit "Intro." ++ [NL; NL] ++ lit "Condition item one." ++ [NL]
      ++ lit "Condition item two." ++ [NL] ++ lit "Condition ." ++ [NL].
Proof.
  split.
  - eexists. split_and!; vm_compute; reflexivity.
  - vm_compute; reflexivity.
Qed.

(** ** Instances *)

Section InstanceFacts.

Variable lower : str → str.
Variable self : Reader.

Lemma source_history_ok history source_string :
  well_formed_history history →
  ∃ r, source_history history source_string = Ok r.
Proof.
  intros H. revert source_string.
  induction H as [|turn history [[q Hq] _] _ IH]; intros source_string; simpl.
  - eauto.
  - unfold getitem. rewrite Hq. simpl. apply IH.
Qed.

Lemma question_history_ok history question_text :
  well_formed_history history →
  ∃ r, question_history history question_text = Ok r.
Proof.
  intros H. revert question_text.
  induction H as [|turn history [[q Hq] [a Ha]] _ IH]; intros question_text; simpl.
  - eauto.
  - unfold getitem. rewrite Hq, Ha. simpl. apply IH.
Qed.

Lemma slice_wrapped tokens :
  slice (wrapped tokens) (Some 1%Z) (Some (-1)%Z) = tokens.
Proof. apply slice_inner. Qed.

Lemma length_wrapped tokens : length (wrapped tokens) = length tokens + 2.
Proof. unfold wrapped. simpl. rewrite length_app. simpl. lia. Qed.

(** The id fields of a successfully built instance. *)
Lemma text_to_instance_ids rule_text question scenario history
    utterance_id tree_id source_url answer evidence instance :
  text_to_instance lower self rule_text question scenario history
    utterance_id tree_id source_url answer evidence = Ok (Some instance) →
  ∃ source_string,
    source_history history (lit " @@RS@@ " ++ rule_text ++ lit " @@RE@@ ")
    = Ok source_string ∧
    let tokenized_source := wrapped (_source_tokenizer self source_string) in
    fields instance !! "source_tokens"
    = Some (TextField tokenized_source (_source_token_indexers self)) ∧
    match answer with
    | Some target_string =>
        let tokenized_target := wrapped (_target_tokenizer self target_string) in
        let joint :=
          _tokens_to_ids lower
            (slice tokenized_source (Some 1%Z) (Some (-1)%Z) ++ tokenized_target) in
        fields instance !! "target_tokens"
        = Some (TextField tokenized_target (_target_token_indexers self)) ∧
        fields instance !! "source_token_ids"
        = Some (ArrayField (take (length tokenized_source - 2) joint)) ∧
        fields instance !! "target_token_ids"
        = Some (ArrayField (drop (length tokenized_source - 2) joint)) ∧
        is_Some (fields instance !! "label")
    | None =>
        fields instance !! "target_tokens" = None ∧
        fields instance !! "source_token_ids"
        = Some (ArrayField
                  (_tokens_to_ids lower
                     (slice tokenized_source (Some 1%Z) (Some (-1)%Z)))) ∧
        fields instance !! "target_token_ids" = None ∧
        fields instance !! "label" = None
    end.
Proof.
  unfold text_to_instance.
  destruct (source_history history _) as [source_string|] eqn:Hs; [|done].
  cbn [mbind result_bind].
  destruct (question_history history _) as [question_text|] eqn:Hq; [|done].
  cbn [mbind result_bind app].
  fold (wrapped (_source_tokenizer self source_string)).
  destruct answer as [target_string|].
  - fold (wrapped (_target_tokenizer self target_string)).
    intros [= <-]. exists source_string. split; [done|]. cbv zeta. cbn [fields].
    change (S (length (_source_tokenizer self source_string ++ [mkToken END_SYMBOL])))
      with (length (wrapped (_source_tokenizer self source_string))).
    rewrite !slice_to, !slice_from by (rewrite length_wrapped; lia).
    replace (Z.to_nat (Z.of_nat (length (wrapped (_source_tokenizer self source_string))) - 2))
      with (length (wrapped (_source_tokenizer self source_string)) - 2) by lia.
    split_and!; by simplify_map_eq.
  - intros [= <-]. exists source_string. split; [done|]. cbv zeta. cbn [fields].
    split_and!; by simplify_map_eq.
Qed.


(** C5. With an answer, the ids come from one call of the aligner on the
    inner source tokens followed by the whole wrapped target sequence. The
    result is cut in two: [source_token_ids] has as many ids as the wrapped
    source sequence has tokens, less 2, and [target_token_ids] as many as the
    wrapped target sequence has tokens. A source token and a target token
    get the same id exactly when their lowercase texts are equal. *)
Theorem C5_training_ids_are_joint rule_text question scenario history
    utterance_id tree_id source_url target_string evidence instance :
  text_to_instance lower self rule_text question scenario history
    utterance_id tree_id source_url (Some target_string) evidence
  = Ok (Some instance) →
  ∃ source_string source_token_ids target_token_ids,
    source_history history (lit " @@RS@@ " ++ rule_text ++ lit " @@RE@@ ")
    = Ok source_string ∧
    let tokenized_source := wrapped (_source_tokenizer self source_string) in
    let tokenized_target := wrapped (_target_tokenizer self target_string) in
    let inner_source := slice tokenized_source (Some 1%Z) (Some (-1)%Z) in
    fields instance !! "source_token_ids" = Some (ArrayField source_token_ids) ∧
    fields instance !! "target_token_ids" = Some (ArrayField target_token_ids) ∧
    source_token_ids ++ target_token_ids
    = _tokens_to_ids lower (inner_source ++ tokenized_target) ∧
    length source_token_ids = length tokenized_source - 2 ∧
    length target_token_ids = length tokenized_target ∧
    ∀ i j a b,
      inner_source !! i = Some a → tokenized_target !! j = Some b →
      ∃ x y, source_token_ids !! i = Some x ∧ target_token_ids !! j = Some y
             ∧ (x = y ↔ lower (text a) = lower (text b)).
Proof.
  intros (source_string & Hs & _ & _ & Hsids & Htids & _)%text_to_instance_ids.
  cbv zeta in *.
  set (tokenized_source := wrapped (_source_tokenizer self source_string)) in *.
  set (tokenized_target := wrapped (_target_tokenizer self target_string)) in *.
  set (inner := slice tokenized_source (Some 1%Z) (Some (-1)%Z)) in *.
  set (joint := _tokens_to_ids lower (inner ++ tokenized_target)) in *.
  assert (length inner = length tokenized_source - 2) as Hinner.
  { unfold inner, tokenized_source. rewrite slice_wrapped, length_wrapped. lia. }
  assert (length joint = length inner + length tokenized_target) as Hjoint.
  { unfold joint. by rewrite tokens_to_ids_length, length_app. }
  exists source_string, (take (length tokenized_source - 2) joint),
    (drop (length tokenized_source - 2) joint).
  split_and!; try done.
  - by rewrite take_drop.
  - rewrite length_take. fold tokenized_source. lia.
  - rewrite length_drop. fold tokenized_target. lia.
  - fold tokenized_source tokenized_target. fold inner.
    intros i j a b Ha Hb.
    pose proof (lookup_lt_Some _ _ _ Ha) as Hi.
    destruct (tokens_to_ids_same_id lower (inner ++ tokenized_target) i (length inner + j) a b)
      as (x & y & Hx & Hy & Hxy).
    { by rewrite lookup_app_l. }
    { rewrite lookup_app_r by lia. by replace (length inner + j - length inner) with j by lia. }
    exists x, y. fold joint in Hx, Hy. split_and!; [| |done].
    + rewrite lookup_take_lt by lia. done.
    + rewrite lookup_drop, <- Hinner. done.
Qed.

(** C7. Without an answer the instance has no [target_tokens], no
    [target_token_ids] and no [label] field, and [source_token_ids] is the
    aligner's result on the inner source tokens alone. With or without an
    answer, on a history whose turns have both keys, [text_to_instance]
    raises nothing and returns an instance, never [None]. *)
Theorem C7_inference_mode_and_totality rule_text question scenario history
    utterance_id tree_id source_url :
  well_formed_history history →
  (∀ answer evidence, ∃ instance,
     text_to_instance lower self rule_text question scenario history
       utterance_id tree_id source_url answer evidence = Ok (Some instance)) ∧
  (∀ evidence, ∃ instance source_string,
     text_to_instance lower self rule_text question scenario history
       utterance_id tree_id source_url None evidence = Ok (Some instance) ∧
     source_history history (lit " @@RS@@ " ++ rule_text ++ lit " @@RE@@ ")
     = Ok source_string ∧
     fields instance !! "target_tokens" = None ∧
     fields instance !! "target_token_ids" = None ∧
     fields instance !! "label" = None ∧
     fields instance !! "source_token_ids"
     = Some (ArrayField
               (_tokens_to_ids lower
                  (slice (wrapped (_source_tokenizer self source_string))
                         (Some 1%Z) (Some (-1)%Z)))) ∧
     slice (wrapped (_source_tokenizer self source_string)) (Some 1%Z) (Some (-1)%Z)
     = _source_tokenizer self source_string).
Proof.
  intros Hwf.
  assert (∀ answer evidence, ∃ instance,
     text_to_instance lower self rule_text question scenario history
       utterance_id tree_id source_url answer evidence = Ok (Some instance)) as Htotal.
  { intros answer evidence. unfold text_to_instance.
    destruct (source_history_ok history
                (lit " @@RS@@ " ++ rule_text ++ lit " @@RE@@ ") Hwf) as [r ->].
    cbn [mbind result_bind].
    edestruct (question_history_ok history) as [r' ->]; [exact Hwf|].
    cbn [mbind result_bind]. destruct answer; eauto. }
  split; [exact Htotal|].
  intros evidence. destruct (Htotal None evidence) as [instance Hi].
  destruct (text_to_instance_ids _ _ _ _ _ _ _ _ _ _ Hi)
    as (source_string & Hs & _ & Htt & Hsids & Htids & Hlabel).
  exists instance, source_string. split_and!; try done. apply slice_wrapped.
Qed.

(** C2 (amended). In both modes the source-side sentinels are left out of
    the sequence given to the aligner: the sequence starts with the inner
    source tokens, and [source_token_ids] has one id per inner source token.
    The target-side sentinels are not left out: with an answer, the whole
    wrapped target sequence follows the inner source tokens, and
    [target_token_ids] has one id for each target token and one for each of
    the two sentinels. *)
Theorem C2_source_sentinels_excluded rule_text question scenario history
    utterance_id tree_id source_url answer evidence instance :
  text_to_instance lower self rule_text question scenario history
    utterance_id tree_id source_url answer evidence = Ok (Some instance) →
  ∃ source_string,
    source_history history (lit " @@RS@@ " ++ rule_text ++ lit " @@RE@@ ")
    = Ok source_string ∧
    let inner_source := _source_tokenizer self source_string in
    fields instance !! "source_tokens"
    = Some (TextField (wrapped inner_source) (_source_token_indexers self)) ∧
    match answer with
    | None =>
        fields instance !! "source_token_ids"
        = Some (ArrayField (_tokens_to_ids lower inner_source))
    | Some target_string =>
        let inner_target := _target_tokenizer self target_string in
        ∃ source_token_ids target_token_ids,
          fields instance !! "source_token_ids" = Some (ArrayField source_token_ids) ∧
          fields instance !! "target_token_ids" = Some (ArrayField target_token_ids) ∧
          source_token_ids ++ target_token_ids
          = _tokens_to_ids lower
              (inner_source ++ [mkToken START_SYMBOL] ++ inner_target
                 ++ [mkToken END_SYMBOL]) ∧
          length source_token_ids = length inner_source ∧
          length target_token_ids = length inner_target + 2
    end.
Proof.
  intros (source_string & Hs & Hst & Hrest)%text_to_instance_ids.
  exists source_string. cbv zeta in *. split; [done|]. split; [done|].
  rewrite slice_wrapped in Hrest. destruct answer as [target_string|].
  - destruct Hrest as (_ & Hsids & Htids & _).
    rewrite length_wrapped in Hsids, Htids.
    replace (length (_source_tokenizer self source_string) + 2 - 2)
      with (length (_source_tokenizer self source_string)) in * by lia.
    eexists _, _. split; [exact Hsids|]. split; [exact Htids|].
    split; [by rewrite take_drop|].
    rewrite length_take, length_drop, tokens_to_ids_length, length_app, length_wrapped.
    lia.
  - by destruct Hrest as (_ & Hsids & _).
Qed.

End InstanceFacts.

(** ** The record loop *)

Section ReadFacts.

Variable lower : str → str.
Variable self : Reader.

Lemma read_loop_app seen rest answer evidence :
  read_loop lower self (seen ++ rest) answer evidence
  = match read_loop lower self seen answer evidence with
    | (yielded, Some ex) => (yielded, Some ex)
    | (yielded, None) =>
        let '(yielded', ended) :=
          read_loop lower self rest (carried u_answer seen answer)
                    (carried u_evidence seen evidence) in
        (yielded ++ yielded', ended)
    end.
Proof.
  revert answer evidence. induction seen as [|u seen IH]; intros answer evidence.
  - simpl. by destruct (read_loop lower self rest answer evidence).
  - cbn [app read_loop carried fold_left].
    set (answer' := match u_answer u with Some a => Some a | None => answer end).
    set (evidence' := match u_evidence u with Some e => Some e | None => evidence end).
    destruct answer' as [a|] eqn:Ea; [|done].
    destruct evidence' as [e|] eqn:Ee; [|done].
    destruct (text_to_instance _ _ _ _ _ _ _ _ _ _ _) as [i|ex]; [|done].
    rewrite IH. unfold carried.
    destruct (read_loop lower self seen (Some a) (Some e)) as [ys [ex|]]; [done|].
    destruct (read_loop lower self rest _ _) as [ys' r'].
    by destruct i.
Qed.

Lemma carried_Some {A} (key : Utterance → option A) seen v :
  is_Some (carried key seen (Some v)).
Proof.
  revert v. induction seen as [|u seen IH]; intros v; simpl; [eauto|].
  destruct (key u); apply IH.
Qed.

(** Once the loop has gone through a record without an exception, both
    locals are bound. *)
Lemma read_loop_bound seen answer evidence :
  seen ≠ [] → (read_loop lower self seen answer evidence).2 = None →
  is_Some (carried u_answer seen answer)
  ∧ is_Some (carried u_evidence seen evidence).
Proof.
  destruct seen as [|u seen]; [done|]. intros _.
  cbn [read_loop carried fold_left].
  destruct (match u_answer u with Some a => Some a | None => answer end) as [a|];
    [|done].
  destruct (match u_evidence u with Some e => Some e | None => evidence end) as [e|];
    [|done].
  intros _. split; apply carried_Some.
Qed.

(** An instance built with an answer has a label, so the loop yields
    labelled instances only as long as no answer it binds is None. *)
Lemma read_loop_labelled dataset answer evidence instance :
  answer ≠ Some None → Forall (λ u, u_answer u ≠ Some None) dataset →
  instance ∈ (read_loop lower self dataset answer evidence).1 →
  is_Some (fields instance !! "label").
Proof.
  intros Hanswer Hall. revert answer evidence Hanswer.
  induction Hall as [|u dataset Hu _ IH]; intros answer evidence Hanswer;
    cbn [read_loop].
  - by intros ?%elem_of_nil.
  - set (answer' := match u_answer u with Some a => Some a | None => answer end).
    assert (answer' ≠ Some None) as Hanswer'
      by (unfold answer'; by destruct (u_answer u)).
    destruct answer' as [[a|]|]; [|done|by intros ?%elem_of_nil].
    destruct (match u_evidence u with Some e => Some e | None => evidence end) as [e|];
      [|by intros ?%elem_of_nil].
    destruct (text_to_instance _ _ _ _ _ _ _ _ _ _ _) as [i|ex] eqn:Hi;
      [|by intros ?%elem_of_nil].
    destruct (read_loop lower self dataset (Some (Some a)) (Some e)) as [ys r] eqn:Hr.
    simpl. destruct i as [i|].
    + intros [->|Hin]%elem_of_cons.
      * by destruct (text_to_instance_ids _ _ _ _ _ _ _ _ _ _ _ _ Hi)
          as (? & _ & _ & _ & _ & _ & ?).
      * eapply (IH (Some (Some a)) (Some e)); [done|]. by rewrite Hr.
    + intros Hin. eapply (IH (Some (Some a)) (Some e)); [done|]. by rewrite Hr.
Qed.

(** C9 (amended). The loop of [_read] binds [answer] and [evidence] only
    from records that have the key. If the first record has no answer,
    [_read] raises UnboundLocalError and yields nothing. If the records
    [seen] went through without an exception, the next record [u] is built
    with the answer and the evidence of the most recent records that had the
    keys, which are earlier records when [u] lacks the keys. When no record
    has the key answer with the value null, every instance [_read] yields
    was built with an answer and so has a label: none is in inference
    mode. *)
Theorem C9_read_carries_answer_over :
  (∀ u rest, u_answer u = None →
     _read lower self (u :: rest) = ([], Some (UnboundLocalError "answer"))) ∧
  (∀ seen u rest,
     seen ≠ [] → (_read lower self seen).2 = None →
     ∃ a e,
       carried u_answer (seen ++ [u]) None = Some a ∧
       carried u_evidence (seen ++ [u]) None = Some e ∧
       (u_answer u = None → carried u_answer seen None = Some a) ∧
       (u_evidence u = None → carried u_evidence seen None = Some e) ∧
       _read lower self (seen ++ u :: rest)
       = match text_to_instance lower self (u_snippet u) (u_question u)
                 (u_scenario u) (u_history u) (Some (u_utterance_id u))
                 (Some (u_tree_id u)) (Some (u_source_url u)) a e with
         | Raise ex => ((_read lower self seen).1, Some ex)
         | Ok instance =>
             let '(yielded, ended) := read_loop lower self rest (Some a) (Some e) in
             ((_read lower self seen).1 ++ yields instance ++ yielded, ended)
         end) ∧
  (∀ dataset instance,
     Forall (λ u, u_answer u ≠ Some None) dataset →
     instance ∈ (_read lower self dataset).1 →
     is_Some (fields instance !! "label")).
Proof.
  split_and!.
  - intros u rest Hu. unfold _read. cbn [read_loop]. by rewrite Hu.
  - intros seen u rest Hne Hok. unfold _read in *.
    destruct (read_loop_bound seen None None Hne Hok) as [[a0 Ha0] [e0 He0]].
    unfold carried in *. rewrite !fold_left_app. cbn [fold_left].
    rewrite Ha0, He0.
    exists (default a0 (u_answer u)), (default e0 (u_evidence u)).
    split_and!.
    + by destruct (u_answer u).
    + by destruct (u_evidence u).
    + by intros ->.
    + by intros ->.
    + rewrite read_loop_app. unfold carried. rewrite Ha0, He0.
      destruct (read_loop lower self seen None None) as [ys r] eqn:Hseen.
      simpl in Hok. subst r. cbn [read_loop fst].
      assert (match u_answer u with Some a => Some a | None => Some a0 end
              = Some (default a0 (u_answer u))) as -> by by destruct (u_answer u).
      assert (match u_evidence u with Some e => Some e | None => Some e0 end
              = Some (default e0 (u_evidence u))) as -> by by destruct (u_evidence u).
      destruct (text_to_instance _ _ _ _ _ _ _ _ _ _ _) as [i|ex].
      * destruct (read_loop lower self rest _ _) as [ys' r'].
        by destruct i.
      * by rewrite app_nil_r.
  - intros dataset instance Hall. by apply read_loop_labelled.
Qed.

End ReadFacts.

(** ** The worked examples *)

Lemma built_spec (r : result (option Instance)) :
  returns_instance r = true → r = Ok (Some (built r)).
Proof. by destruct r as [[i|]|ex]. Qed.

(** The claim of C2 as worded fails with an answer of one token: the target
    side gets three ids, the first and the last being those of the two
    sentinels, and not the single id it would get if the sentinels were left
    out. *)
Lemma C2_counterexample :
  ∃ instance source_string,
    text_to_instance ascii_lower example_reader example_rule example_question
      example_scenario [] None None None (Some (lit "Yes")) None
    = Ok (Some instance) ∧
    source_history [] (lit " @@RS@@ " ++ example_rule ++ lit " @@RE@@ ")
    = Ok source_string ∧
    _target_tokenizer example_reader (lit "Yes") = [mkToken (lit "Yes")] ∧
    fields instance !! "target_token_ids" = Some (ArrayField [8; 9; 10]) ∧
    fields instance !! "target_token_ids"
    ≠ Some (ArrayField
              (spec_target_token_ids ascii_lower
                 (wrapped (_source_tokenizer example_reader source_string))
                 (wrapped (_target_tokenizer example_reader (lit "Yes"))))).
Proof.
  eexists. eexists. split; [vm_compute; reflexivity|].
  split; [vm_compute; reflexivity|].
  split; [vm_compute; reflexivity|].
  split; [vm_compute; reflexivity|].
  vm_compute. discriminate.
Qed.

Example tokens_to_ids_example :
  _tokens_to_ids ascii_lower example_tokens = [0; 1; 0].
Proof. vm_compute; reflexivity. Qed.

(** C1 on three tokens, the first and the last differing in case only. *)
Lemma C1_witness :
  length (_tokens_to_ids ascii_lower example_tokens) = 3
  ∧ ∃ x y, _tokens_to_ids ascii_lower example_tokens !! 0 = Some x
           ∧ _tokens_to_ids ascii_lower example_tokens !! 2 = Some y
           ∧ x = y.
Proof.
  destruct (C1_tokens_to_ids_alignment ascii_lower example_tokens)
    as (Hlen & Hsame & _).
  split; [exact Hlen|].
  destruct (Hsame 0 2 (mkToken (lit "The")) (mkToken (lit "the")) eq_refl eq_refl)
    as (x & y & Hx & Hy & Hxy).
  exists x, y. split; [exact Hx|]. split; [exact Hy|].
  apply Hxy. vm_compute; reflexivity.
Defined.

(** C5 on the end-to-end example with an answer of four tokens. *)
Lemma C5_witness :
  ∃ instance,
    text_to_instance ascii_lower example_reader example_rule example_question
      example_scenario [] None None None (Some example_answer) None
    = Ok (Some instance) ∧
    ∃ source_token_ids target_token_ids,
      fields instance !! "source_token_ids" = Some (ArrayField source_token_ids) ∧
      fields instance !! "target_token_ids" = Some (ArrayField target_token_ids) ∧
      length source_token_ids = 9 ∧ length target_token_ids = 6.
Proof.
  exists (built (text_to_instance ascii_lower example_reader example_rule
                   example_question example_scenario [] None None None
                   (Some example_answer) None)).
  split; [apply built_spec; vm_compute; reflexivity|].
  edestruct (C5_training_ids_are_joint ascii_lower example_reader example_rule
               example_question example_scenario [] None None None
               example_answer None)
    as (ss & sids & tids & Hs & H1 & H2 & _ & H4 & H5 & _);
    [apply built_spec; vm_compute; reflexivity|].
  injection Hs as <-.
  exists sids, tids. split; [exact H1|]. split; [exact H2|].
  split; (etrans; [eassumption|vm_compute; reflexivity]).
Defined.

Lemma example_history_well_formed : well_formed_history [example_turn].
Proof.
  constructor; [|constructor].
  split; eexists; vm_compute; reflexivity.
Qed.

(** C7 on the end-to-end example with a history of one turn. *)
Lemma C7_witness :
  well_formed_history [example_turn] ∧
  ∃ instance,
    text_to_instance ascii_lower example_reader example_rule example_question
      example_scenario [example_turn] None None None None None
    = Ok (Some instance) ∧
    fields instance !! "target_tokens" = None ∧
    fields instance !! "target_token_ids" = None ∧
    fields instance !! "label" = None.
Proof.
  split; [exact example_history_well_formed|].
  destruct (proj2 (C7_inference_mode_and_totality ascii_lower example_reader
                     example_rule example_question example_scenario
                     [example_turn] None None None
                     example_history_well_formed) None)
    as (instance & ss & Hi & _ & H1 & H2 & H3 & _).
  exists instance. split; [exact Hi|]. split; [exact H1|]. split; [exact H2|exact H3].
Defined.

(** C2 on the end-to-end example. *)
Lemma C2_witness :
  ∃ instance,
    text_to_instance ascii_lower example_reader example_rule example_question
      example_scenario [] None None None (Some (lit "Yes")) None
    = Ok (Some instance) ∧
    ∃ source_token_ids target_token_ids,
      fields instance !! "source_token_ids" = Some (ArrayField source_token_ids) ∧
      fields instance !! "target_token_ids" = Some (ArrayField target_token_ids) ∧
      length source_token_ids = 9 ∧ length target_token_ids = 1 + 2.
Proof.
  exists (built (text_to_instance ascii_lower example_reader example_rule
                   example_question example_scenario [] None None None
                   (Some (lit "Yes")) None)).
  split; [apply built_spec; vm_compute; reflexivity|].
  edestruct (C2_source_sentinels_excluded ascii_lower example_reader example_rule
               example_question example_scenario [] None None None
               (Some (lit "Yes")) None)
    as (ss & Hs & _ & sids & tids & H1 & H2 & _ & H4 & H5);
    [apply built_spec; vm_compute; reflexivity|].
  injection Hs as <-.
  exists sids, tids. split; [exact H1|]. split; [exact H2|].
  split; (etrans; [eassumption|vm_compute; reflexivity]).
Defined.

(** C9 on the two example records, in both orders. *)
Lemma C9_witness :
  _read ascii_lower example_reader [example_second; example_first]
  = ([], Some (UnboundLocalError "answer"))
  ∧ (∃ first second,
      _read ascii_lower example_reader [example_first; example_second]
      = ([first; second], None)
      ∧ text_to_instance ascii_lower example_reader (u_snippet example_second)
          (u_question example_second) (u_scenario example_second)
          (u_history example_second) (Some (u_utterance_id example_second))
          (Some (u_tree_id example_second)) (Some (u_source_url example_second))
          (Some (lit "Yes")) (Some [])
        = Ok (Some second)
      ∧ fields second !! "label" = Some (LabelField (lit "Yes")))
  ∧ Forall (λ u, u_answer u ≠ Some None) [example_first; example_second]
  ∧ ∀ instance,
      instance ∈ (_read ascii_lower example_reader [example_first; example_second]).1 →
      is_Some (fields instance !! "label").
Proof.
  destruct (C9_read_carries_answer_over ascii_lower example_reader)
    as (Hfirst & Hlater & Hlabel).
  assert (Forall (λ u, u_answer u ≠ Some None) [example_first; example_second])
    as Hall by (repeat constructor; discriminate).
  split; [exact (Hfirst example_second [example_first] eq_refl)|].
  split; [|split; [exact Hall|]].
  2:{ intros instance. exact (Hlabel _ instance Hall). }
  destruct (Hlater [example_first] example_second [])
    as (a & e & Ha & He & _ & _ & Hread);
    [discriminate|vm_compute; reflexivity|].
  injection Ha as <-. injection He as <-.
  exists (built (text_to_instance ascii_lower example_reader
                   (u_snippet example_first) (u_question example_first)
                   (u_scenario example_first) (u_history example_first)
                   (Some (u_utterance_id example_first))
                   (Some (u_tree_id example_first))
                   (Some (u_source_url example_first))
                   (Some (lit "Yes")) (Some []))),
         (built (text_to_instance ascii_lower example_reader
                   (u_snippet example_second) (u_question example_second)
                   (u_scenario example_second) (u_history example_second)
                   (Some (u_utterance_id example_second))
                   (Some (u_tree_id example_second))
                   (Some (u_source_url example_second))
                   (Some (lit "Yes")) (Some []))).
  split; [|split].
  - etrans; [exact Hread|]. vm_compute. reflexivity.
  - vm_compute. reflexivity.
  - vm_compute. reflexivity.
Defined.

(** C9 as it was stated, refuted. The first record has the answer Yes and
    the second has the key answer with the value null: the second instance
    is built without an answer, after a record that had one, and has neither
    a label nor target tokens. *)
Lemma C9_counterexample :
  u_answer example_first = Some (Some (lit "Yes"))
  ∧ u_answer example_null = Some None
  ∧ ∃ first second,
      _read ascii_lower example_reader [example_first; example_null]
      = ([first; second], None)
      ∧ fields first !! "label" = Some (LabelField (lit "Yes"))
      ∧ fields second !! "label" = None
      ∧ fields second !! "target_tokens" = None
      ∧ fields second !! "target_token_ids" = None.
Proof.
  split; [reflexivity|]. split; [reflexivity|].
  exists (built (text_to_instance ascii_lower example_reader
                   (u_snippet example_first) (u_question example_first)
                   (u_scenario example_first) (u_history example_first)
                   (Some (u_utterance_id example_first))
                   (Some (u_tree_id example_first))
                   (Some (u_source_url example_first))
                   (Some (lit "Yes")) (Some []))),
         (built (text_to_instance ascii_lower example_reader
                   (u_snippet example_null) (u_question example_null)
                   (u_scenario example_null) (u_history example_null)
                   (Some (u_utterance_id example_null))
                   (Some (u_tree_id example_null))
                   (Some (u_source_url example_null))
                   None (Some []))).
  split_and!; vm_compute; reflexivity.
Qed.

(** * Further properties *)

(** ** The aligner *)

Lemma size_list_to_set_le (l : list str) :
  size (list_to_set l : gset str) ≤ length l.
Proof.
  induction l as [|x l IH]; simpl.
  - change (size (∅ : gset str) ≤ 0). by rewrite size_empty.
  - change (size ({[x]} ∪ list_to_set l : gset str) ≤ S (length l)).
    rewrite size_union_alt, size_singleton.
    assert (size (list_to_set l ∖ {[x]} : gset str) ≤ size (list_to_set l : gset str))
      by (apply subseteq_size; set_solver).
    lia.
Qed.

Section AlignerMore.

Variable lower : str → str.
Implicit Types (ids : gmap str nat) (tokens : list Token).

Lemma setdefault_full ids k : full ids → full (setdefault ids k (size ids)).2.
Proof.
  intros Hfull. unfold setdefault.
  destruct (ids !! k) eqn:E; simpl; [done|].
  intros x. rewrite map_size_insert_None by done. intros Hx.
  destruct (decide (x = size ids)) as [->|Hne].
  - exists k. apply lookup_insert_eq.
  - destruct (Hfull x) as [k' Hk']; [lia|]. exists k'.
    rewrite lookup_insert_ne; [done|]. intros <-. congruence.
Qed.

Lemma ids_after_full tokens ids : full ids → full (ids_after lower tokens ids).
Proof.
  revert ids. induction tokens as [|t ts IH]; intros ids H; simpl; [done|].
  by apply IH, setdefault_full.
Qed.

Lemma full_empty : full ∅.
Proof. intros x. rewrite map_size_empty. lia. Qed.

Lemma ids_after_size tokens :
  size (ids_after lower tokens ∅)
  = size (list_to_set ((lower ∘ text) <$> tokens) : gset str).
Proof.
  rewrite <- size_dom, ids_after_dom. by rewrite dom_empty_L, union_empty_r_L.
Qed.

Lemma tokens_to_ids_elem_of tokens x :
  x ∈ _tokens_to_ids lower tokens
  ↔ x < size (list_to_set ((lower ∘ text) <$> tokens) : gset str).
Proof.
  rewrite <- ids_after_size. split.
  - intros (i & Hi)%list_elem_of_lookup.
    pose proof (lookup_lt_Some _ _ _ Hi) as Hlt.
    rewrite tokens_to_ids_length in Hlt.
    destruct (lookup_lt_is_Some_2 tokens i Hlt) as [a Ha].
    destruct (tokens_to_ids_lookup lower _ _ _ Ha) as (y & Hy & Hk).
    assert (y = x) as -> by congruence.
    destruct (ids_after_dense lower tokens ∅ dense_empty) as [Hlt' _].
    by eapply Hlt'.
  - intros Hx.
    destruct (ids_after_full tokens ∅ full_empty x Hx) as [k Hk].
    assert (k ∈ dom (ids_after lower tokens ∅)) as Hd by (apply elem_of_dom; eauto).
    rewrite ids_after_dom, dom_empty_L, union_empty_r_L in Hd.
    apply elem_of_list_to_set, list_elem_of_fmap in Hd as (a & -> & Ha).
    apply list_elem_of_lookup in Ha as [i Ha].
    destruct (tokens_to_ids_lookup lower _ _ _ Ha) as (y & Hy & Hk').
    simpl in Hk. assert (y = x) as -> by congruence.
    by eapply list_elem_of_lookup_2.
Qed.

(** X1. The ids the aligner returns are exactly the numbers below the number
    of distinct lowercase forms of the tokens: none is skipped and none is
    larger. *)
Theorem tokens_to_ids_range tokens x :
  x ∈ _tokens_to_ids lower tokens
  ↔ x < size (list_to_set ((lower ∘ text) <$> tokens) : gset str).
Proof. apply tokens_to_ids_elem_of. Qed.

Lemma tokens_to_ids_loop_app tokens1 tokens2 ids out :
  tokens_to_ids_loop lower (tokens1 ++ tokens2) ids out
  = tokens_to_ids_loop lower tokens2 (ids_after lower tokens1 ids)
      (tokens_to_ids_loop lower tokens1 ids out).
Proof.
  revert ids out. induction tokens1 as [|t ts IH]; intros ids out; simpl; [done|].
  destruct (setdefault ids (lower (text t)) (size ids)) as [v ids'] eqn:E.
  simpl. apply IH.
Qed.

Lemma tokens_to_ids_loop_out tokens ids out :
  tokens_to_ids_loop lower tokens ids out
  = out ++ tokens_to_ids_loop lower tokens ids [].
Proof.
  rewrite !tokens_to_ids_loop_spec. done.
Qed.

Lemma tokens_to_ids_take tokens1 tokens2 :
  take (length tokens1) (_tokens_to_ids lower (tokens1 ++ tokens2))
  = _tokens_to_ids lower tokens1.
Proof.
  unfold _tokens_to_ids. rewrite tokens_to_ids_loop_app, tokens_to_ids_loop_out.
  rewrite take_app_length'; [done|].
  fold (_tokens_to_ids lower tokens1). by rewrite tokens_to_ids_length.
Qed.

(** X2. Tokens that come later never change the ids of the tokens before
    them: the ids of a sequence followed by another start with the ids of the
    first sequence alone. *)
Theorem tokens_to_ids_prefix tokens1 tokens2 :
  take (length tokens1) (_tokens_to_ids lower (tokens1 ++ tokens2))
  = _tokens_to_ids lower tokens1.
Proof. apply tokens_to_ids_take. Qed.

Lemma tokens_to_ids_loop_keys tokens1 tokens2 ids out :
  (lower ∘ text) <$> tokens1 = (lower ∘ text) <$> tokens2 →
  tokens_to_ids_loop lower tokens1 ids out = tokens_to_ids_loop lower tokens2 ids out.
Proof.
  revert tokens2 ids out.
  induction tokens1 as [|t ts IH]; intros [|t' ts'] ids out; try done.
  simpl. intros [= Hk Hrest]. rewrite Hk.
  destruct (setdefault ids (lower (text t')) (size ids)) as [v ids'].
  by apply IH.
Qed.

(** X3. The ids depend on the lowercase forms of the tokens only: two token
    sequences with the same lowercase forms, position by position, get the
    same ids. *)
Theorem tokens_to_ids_case_insensitive tokens1 tokens2 :
  (lower ∘ text) <$> tokens1 = (lower ∘ text) <$> tokens2 →
  _tokens_to_ids lower tokens1 = _tokens_to_ids lower tokens2.
Proof. apply tokens_to_ids_loop_keys. Qed.

(** X4. The id at a position is at most the position: the first token gets
    0 and an id grows by at most one from the largest id before it. *)
Theorem tokens_to_ids_bounded_by_position tokens i x :
  _tokens_to_ids lower tokens !! i = Some x → x ≤ i.
Proof.
  intros Hx.
  pose proof (lookup_lt_Some _ _ _ Hx) as Hlt.
  rewrite tokens_to_ids_length in Hlt.
  assert (x ∈ _tokens_to_ids lower (take (S i) tokens)) as Hin.
  { rewrite <- (take_drop (S i) tokens) in Hx.
    rewrite <- (tokens_to_ids_take (take (S i) tokens) (drop (S i) tokens)).
    apply list_elem_of_lookup. exists i.
    rewrite lookup_take_lt; [done|]. rewrite length_take. lia. }
  apply tokens_to_ids_elem_of in Hin.
  assert (size (list_to_set ((lower ∘ text) <$> take (S i) tokens) : gset str)
          ≤ S i); [|lia].
  etrans; [apply size_list_to_set_le|].
  rewrite length_fmap, length_take. lia.
Qed.

End AlignerMore.

(** ** [find_from_last] and [split_last_sentence] *)

(** X5. Given a substring of one character, [find_from_last] returns -1
    exactly when the character does not occur in the string, and otherwise
    the index of its last occurrence: the character is at that index and
    nowhere after it. *)
Theorem find_from_last_char (string : str) (c : ascii) :
  (find_from_last string [c] = (-1)%Z ↔ c ∉ string) ∧
  (c ∈ string →
   ∃ r, find_from_last string [c] = Z.of_nat r ∧ r < length string
        ∧ string !! r = Some c ∧ c ∉ drop (S r) string).
Proof.
  assert (c ∈ string →
    ∃ r, find_from_last string [c] = Z.of_nat r ∧ r < length string
         ∧ string !! r = Some c ∧ c ∉ drop (S r) string) as Hin.
  { intros (pre & post & -> & Hpost)%last_period_split.
    exists (length pre). rewrite find_from_last_last by done.
    split; [done|]. split; [rewrite length_app; simpl; lia|].
    split; [by rewrite list_lookup_middle|].
    replace (S (length pre)) with (length pre + 1) by lia.
    by rewrite drop_app_add' by done. }
  split; [|exact Hin]. split.
  - intros Hr Hc. destruct (Hin Hc) as (r & Hr' & _). lia.
  - apply find_from_last_absent.
Qed.

(** X6. Whatever the input, the second part [split_last_sentence] returns
    has no period, the first part is empty or ends with a period, the first
    part is a prefix of the input and the second a suffix of it. *)
Theorem split_last_sentence_parts_shape (sentences : str) :
  let '(first, second) := split_last_sentence sentences in
  ("."%char ∉ second) ∧
  (first = [] ∨ last first = Some "."%char) ∧
  first `prefix_of` sentences ∧ second `suffix_of` sentences.
Proof.
  destruct (decide ("."%char ∈ sentences)) as [Hin|Hout].
  - apply last_period_split in Hin as (pre & post & -> & Hpost).
    rewrite split_last_sentence_period by done.
    split_and!.
    + intros ?. apply Hpost. by eapply subseteq_drop.
    + right. by rewrite last_snoc.
    + exists post. by rewrite <- app_assoc.
    + destruct post as [|c post]; simpl.
      * exists (pre ++ ["."%char]). by rewrite app_nil_r.
      * exists (pre ++ ["."%char; c]). by rewrite <- app_assoc.
  - rewrite split_last_sentence_no_period by done.
    split_and!; [done|by left|apply prefix_nil|done].
Qed.


(** ** The rule rewriter *)

Lemma modify_rule_unchanged_iff (rule : str) :
  modify_rule rule = rule
  ↔ match search rule pattern with
    | None => True
    | Some m => excluded (split_last_sentence (group rule m 2)).2 = true
    end.
Proof.
  destruct (search rule pattern) as [m|] eqn:Hm.
  - rewrite (modify_rule_matched _ _ Hm).
    pose proof (flattened_ne_rule _ _ Hm) as Hne.
    destruct (split_last_sentence (group rule m 2)) as [pretext2 cond].
    simpl in *. destruct (excluded cond); split; congruence.
  - unfold modify_rule. rewrite Hm. done.
Qed.

(** X8. [modify_rule] returns its input unchanged in two cases only: the
    pattern does not match, or it matches and the condition clause contains
    an entry of the exclusion list. In every other case the output differs
    from the input. *)
Theorem modify_rule_fixed_points (rule : str) :
  modify_rule rule = rule
  ↔ match search rule pattern with
    | None => True
    | Some m => excluded (split_last_sentence (group rule m 2)).2 = true
    end.
Proof. apply modify_rule_unchanged_iff. Qed.

Lemma search_contains_opening (rule : str) (m : Match) :
  search rule pattern = Some m → ∃ a b, rule = a ++ bullet_opening ++ b.
Proof.
  intros (b1 & e1 & b2 & e2 & e3 & _ & _ & _ & _ & _ & _ & _ & _ & _ & _ & _ & _
          & H0 & H1 & H2 & H3 & H4)%search_pattern_shape.
  exists (take e2 rule), (drop (e2 + 5) rule).
  rewrite <- (take_drop e2 rule) at 1. f_equal.
  rewrite (drop_S _ _ _ H0).
  replace (S e2) with (e2 + 1) by lia. rewrite (drop_S _ _ _ H1).
  replace (S (e2 + 1)) with (e2 + 2) by lia. rewrite (drop_S _ _ _ H2).
  replace (S (e2 + 2)) with (e2 + 3) by lia. rewrite (drop_S _ _ _ H3).
  replace (S (e2 + 3)) with (e2 + 4) by lia. rewrite (drop_S _ _ _ H4).
  replace (S (e2 + 4)) with (e2 + 5) by lia. done.
Qed.

(** X9. A rule text that nowhere has a colon followed by an empty line and
    a bullet marker is returned unchanged. *)
Theorem modify_rule_needs_bullet_opening (rule : str) :
  str_in bullet_opening rule = false → modify_rule rule = rule.
Proof.
  intros Hno. apply modify_rule_unchanged_iff.
  destruct (search rule pattern) as [m|] eqn:Hm; [|done]. exfalso.
  apply search_contains_opening in Hm.
  apply str_in_spec in Hm. congruence.
Qed.

Section Reads.

Variable subject : str.

Lemma reads_refl st : reads subject st st [].
Proof. split; simpl; [done|lia]. Qed.

Lemma reads_trans st mid st' w1 w2 :
  reads subject st mid w1 → reads subject mid st' w2 →
  reads subject st st' (w1 ++ w2).
Proof.
  intros [H1 P1] [H2 P2]. split.
  - by rewrite H1, H2, app_assoc.
  - rewrite length_app. lia.
Qed.

Lemma reads_lit st c :
  subject !! pos st = Some c → reads subject st (advance st) [c].
Proof. intros H. split; simpl; [by apply drop_S|lia]. Qed.

Lemma reads_pos st st' st1 st1' w :
  pos st1 = pos st → pos st1' = pos st' →
  reads subject st st' w → reads subject st1 st1' w.
Proof. unfold reads. by intros -> ->. Qed.

Lemma reads_slice st st' w :
  reads subject st st' w →
  slice subject (Some (Z.of_nat (pos st))) (Some (Z.of_nat (pos st'))) = w.
Proof.
  intros [H P]. rewrite slice_span, H.
  replace (pos st' - pos st) with (length w) by lia.
  apply take_app_length.
Qed.

Lemma reads_bound st st' w :
  reads subject st st' w → pos st ≤ length subject → pos st' ≤ length subject.
Proof.
  intros [H P] Hle.
  assert (length (drop (pos st) subject) = length (w ++ drop (pos st') subject))
    as Hlen by by rewrite H.
  rewrite length_app, !length_drop in Hlen. lia.
Qed.

Lemma rtc_anychar_reads st st' :
  rtc (den subject AnyChar) st st' →
  ∃ w, reads subject st st' w ∧ (NL ∉ w) ∧ caps st' = caps st.
Proof.
  induction 1 as [st|st mid st' [(c & Hc & Hnl) ->] _ (w & Hw & Hfree & Hcaps)].
  - exists []. split; [apply reads_refl|]. split; [apply not_elem_of_nil|done].
  - exists (c :: w). split; [|split].
    + eapply (reads_trans _ _ _ [c] w); [by apply reads_lit|done].
    + by apply not_elem_of_cons.
    + done.
Qed.

Lemma rtc_lit_reads c st st' :
  rtc (den subject (Lit c)) st st' →
  ∃ k, reads subject st st' (replicate k c) ∧ caps st' = caps st.
Proof.
  induction 1 as [st|st mid st' [Hc ->] _ (k & Hw & Hcaps)].
  - exists 0. split; [apply reads_refl|done].
  - exists (S k). split; [|done].
    eapply (reads_trans _ _ _ [c] (replicate k c)); [by apply reads_lit|done].
Qed.

(** One bullet line, as the body of the repetition of group 3 reads it. *)
Lemma bullet_line_reads st st' :
  den subject
    (Bol ⋅ Lit "*" ⋅ Lit " " ⋅ Plus true AnyChar ⋅ Star true (Lit NL)) st st' →
  at_line_start subject st = true ∧ caps st' = caps st ∧
  ∃ item, item_ok item
          ∧ reads subject st st' (lit "* " ++ item.1 ++ replicate item.2 NL).
Proof.
  intros (m1 & [Hbol ->] & m2 & [Hstar ->] & m3 & [Hsp ->]
          & m4 & (m5 & [(c & Hc & Hnl) ->] & Hrun) & Hnls).
  apply rtc_anychar_reads in Hrun as (w & Hw & Hfree & Hcaps1).
  apply rtc_lit_reads in Hnls as (k & Hk & Hcaps2).
  split; [done|]. split; [simpl in *; congruence|].
  exists (c :: w, k). split.
  - split; [done|]. simpl. by apply not_elem_of_cons.
  - simpl.
    eapply (reads_trans _ _ _ ["*"%char] _); [by apply reads_lit|].
    eapply (reads_trans _ _ _ [" "%char] _); [by apply reads_lit|].
    eapply (reads_trans _ _ _ (c :: w) _); [|done].
    eapply (reads_trans _ _ _ [c] w); [by apply reads_lit|done].
Qed.

(** A bullet line that starts a line is not stuck to the text before it. *)
Lemma reads_before_line_start st mid (w : str) :
  reads subject st mid w → w ≠ [] → at_line_start subject mid = true →
  last w = Some NL.
Proof.
  intros [H P] Hw Hbol. unfold at_line_start in Hbol.
  destruct (pos mid) as [|p] eqn:Ep.
  - destruct w; [done|]. simpl in P. lia.
  - apply bool_decide_eq_true in Hbol.
    assert (subject !! p = w !! (length w - 1)) as Hp.
    { assert (drop (pos st) subject !! (length w - 1) = w !! (length w - 1)) as Hd.
      { rewrite H, lookup_app_l; [done|]. destruct w; simpl in *; [done|lia]. }
      rewrite lookup_drop in Hd.
      replace (pos st + (length w - 1)) with p in Hd; [done|].
      destruct w; simpl in *; [done|lia]. }
    rewrite last_lookup. replace (pred (length w)) with (length w - 1) by lia.
    congruence.
Qed.

Lemma bullet_lines_cons item items :
  bullet_lines (item :: items)
  = (lit "* " ++ item.1 ++ replicate item.2 NL) ++ bullet_lines items.
Proof. done. Qed.

(** A run of bullet lines. *)
Lemma rtc_bullet_lines_reads st st' :
  rtc (den subject
         (Bol ⋅ Lit "*" ⋅ Lit " " ⋅ Plus true AnyChar ⋅ Star true (Lit NL)))
      st st' →
  caps st' = caps st ∧
  ∃ items, Forall item_ok items ∧ separated items
           ∧ reads subject st st' (bullet_lines items)
           ∧ (items ≠ [] → at_line_start subject st = true).
Proof.
  induction 1 as [st|st mid st' Hline _ (Hcaps & items & Hok & Hsep & Hrest & Hbol)].
  - split; [done|]. exists []. split_and!; [constructor|done|apply reads_refl|done].
  - apply bullet_line_reads in Hline as (Hstart & Hcaps1 & item & Hitem & Hread).
    split; [congruence|]. exists (item :: items).
    split_and!; [by constructor| |by eapply reads_trans|done].
    split; [|done]. intros Hne.
    pose proof (reads_before_line_start _ _ _ Hread) as Hlast.
    destruct item as [w k]. simpl in *.
    destruct k as [|k]; [|lia]. exfalso.
    rewrite app_nil_r in Hlast.
    destruct Hitem as [Hw Hfree]. simpl in *.
    assert (last (lit "* " ++ w) = Some NL) as Hl.
    { apply Hlast; [done|by apply Hbol]. }
    rewrite last_app in Hl.
    destruct (last w) as [c|] eqn:E.
    + injection Hl as ->. by apply Hfree, last_Some_elem_of.
    + by apply last_None in E.
Qed.

End Reads.

Lemma search_pattern_parts (rule : str) (m : Match) :
  search rule pattern = Some m →
  ∃ g1 nls g2 items, match_parts rule m g1 nls g2 items.
Proof.
  intros (start & Hstart & Hm)%search_from_sound. unfold match_at in Hm.
  destruct (rmatch _ _ _ _) as [st|] eqn:E; [|done]. injection Hm as <-.
  apply rmatch_sound in E as (st' & Hden & [= ->]).
  destruct Hden as (mid1 & (st1 & Hg1 & ->) & mid2 & Hnls & mid3 & [_ ->]
    & mid4 & (st4 & (sta & Ha & Hg2) & ->) & mid5 & [Hcolon ->]
    & mid6 & [Hnl1 ->] & mid7 & [Hnl2 ->] & st8 & Hbul & ->).
  apply rtc_anychar_reads in Hg1 as (w1 & Hr1 & Hf1 & Hc1).
  apply rtc_lit_reads in Hnls as (k & Hrn & Hcn).
  destruct Ha as [(c & Hc & Hcnl) ->].
  apply rtc_anychar_reads in Hg2 as (w2 & Hr2 & Hf2 & Hc2).
  set (m0 := advance (advance (advance _))) in *.
  assert (pos m0 < pos st8) as Hlt.
  { destruct Hbul as (stb & Hline & Hmore).
    apply den_consumes in Hline; [|done].
    apply (rtc_pos rule _ _ _ (den_pos rule _)) in Hmore as [? _]. lia. }
  assert (rtc (den rule (Bol ⋅ Lit "*" ⋅ Lit " " ⋅ Plus true AnyChar
                           ⋅ Star true (Lit NL))) m0 st8) as Hrun.
  { destruct Hbul as (stb & Hline & Hmore). by eapply rtc_l. }
  apply rtc_bullet_lines_reads in Hrun as (Hc8 & items & Hok & Hsep & Hr3 & _).
  assert (items ≠ []) as Hne.
  { intros ->. destruct Hr3 as [_ Hp]. unfold m0 in Hlt, Hp.
    simpl in Hlt, Hp. lia. }
  exists w1, k, (c :: w2), items. unfold match_parts.
  cbn [m_start m_end m_spans].
  cbn [pos caps set_group advance] in Hc1, Hcn, Hc2, Hcolon, Hnl1, Hnl2, Hc8.
  assert (reads rule (advance mid2) (set_group 2 (pos mid2, pos st4) st4) w2) as Hr2'
    by (eapply reads_pos; [| |exact Hr2]; done).
  assert (reads rule mid2 (set_group 2 (pos mid2, pos st4) st4) (c :: w2)) as Hrg2.
  { eapply (reads_trans _ _ _ _ [c] w2); [by apply reads_lit|done]. }
  assert (reads rule {| pos := start; caps := ∅ |} mid2 (w1 ++ replicate k NL)) as Hr12.
  { eapply reads_trans; [exact Hr1|].
    eapply reads_pos; [| |exact Hrn]; done. }
  split_and!; try done; try lia.
  - eapply (reads_pos _ {| pos := start; caps := ∅ |} st8); [done|done|].
    rewrite (app_assoc w1).
    eapply reads_trans; [exact Hr12|].
    eapply reads_trans; [exact Hrg2|].
    eapply (reads_trans _ _ _ _ [":"%char]); [by apply reads_lit|].
    eapply (reads_trans _ _ _ _ [NL]); [by apply reads_lit|].
    eapply (reads_trans _ _ _ _ [NL]); [by apply reads_lit|].
    exact Hr3.
  - unfold group. cbn [m_spans caps set_group].
    rewrite lookup_insert_ne by done.
    rewrite Hc8. unfold m0. cbn [caps set_group advance].
    rewrite lookup_insert_ne by done.
    rewrite Hc2, Hcn, lookup_insert_eq.
    by apply (reads_slice _ {| pos := start; caps := ∅ |} st1).
  - unfold group. cbn [m_spans caps set_group].
    rewrite lookup_insert_ne by done.
    rewrite Hc8. unfold m0. cbn [caps set_group advance].
    rewrite lookup_insert_eq.
    by apply (reads_slice _ mid2 (set_group 2 (pos mid2, pos st4) st4)).
  - unfold group. cbn [m_spans caps set_group]. rewrite lookup_insert_eq.
    by apply (reads_slice _ m0 st8).
  - by apply not_elem_of_cons.
Qed.

Lemma split_nonempty sep string : split sep string ≠ [].
Proof.
  destruct string as [|c string]; simpl; [done|].
  case_decide; [done|]. by destruct (split sep string).
Qed.

Lemma split_app_free sep (w string : str) :
  sep ∉ w →
  split sep (w ++ string)
  = (w ++ default [] (head (split sep string))) :: tail (split sep string).
Proof.
  induction w as [|c w IH]; intros Hw; simpl.
  - pose proof (split_nonempty sep string). by destruct (split sep string).
  - apply not_elem_of_cons in Hw as [Hc Hw].
    rewrite decide_False by done. rewrite IH by done. done.
Qed.

Lemma split_replicate sep k (string : str) :
  split sep (replicate k sep ++ string) = replicate k [] ++ split sep string.
Proof.
  induction k as [|k IH]; simpl; [done|].
  rewrite decide_True by done. by rewrite IH.
Qed.

Lemma split_bullet_lines items :
  items ≠ [] → Forall item_ok items → separated items →
  split NL (bullet_lines items) = bullet_pieces items.
Proof.
  induction items as [|[w k] rest IH]; [done|]. intros _ Hok Hsep.
  apply Forall_cons in Hok as [[Hw Hfree] Hok]. destruct Hsep as [Hk Hsep].
  simpl in Hw, Hfree, Hk.
  rewrite bullet_lines_cons. cbn [fst snd bullet_pieces].
  rewrite <- !app_assoc, (app_assoc (lit "* ") w).
  rewrite split_app_free.
  2:{ rewrite not_elem_of_app. split; [|done].
      rewrite list_elem_of_In. vm_compute. intuition discriminate. }
  rewrite split_replicate.
  destruct rest as [|item' rest'].
  - change (bullet_lines []) with (@nil ascii). cbn [split bullet_pieces].
    rewrite app_nil_r. destruct k as [|k]; simpl.
    + by rewrite app_nil_r.
    + rewrite app_nil_r. f_equal. by rewrite <- replicate_S_end.
  - rewrite IH by done. destruct k as [|k]; [specialize (Hk ltac:(done)); lia|].
    simpl. rewrite app_nil_r, Nat.sub_0_r. done.
Qed.

Lemma rewritten_lines_pieces condition items :
  join (map (λ a, condition ++ lit " " ++ slice a (Some 2%Z) None
                    ++ lit "." ++ [NL])
            (bullet_pieces items))
  = rewritten_lines condition items.
Proof.
  unfold join. induction items as [|[w k] rest IH]; [done|].
  cbn [bullet_pieces rewritten_lines fst snd map concat].
  rewrite map_app, concat_app, IH. rewrite slice_from by lia.
  rewrite <- !app_assoc.
  change (drop (Z.to_nat 2) (lit "* " ++ w)) with w.
  do 6 f_equal.
  induction (match rest with [] => k | _ => k - 1 end) as [|n IHn]; [done|].
  cbn [replicate map concat]. rewrite IHn, slice_from by lia.
  by rewrite <- !app_assoc.
Qed.

(** X10. A match of the pattern cuts the rule text into the text before the
    match, group 1, a run of newlines, group 2, a colon and two newlines,
    group 3 and the text after the match. Group 1 and group 2 have no
    newline and group 2 is not empty. Group 3 is a non-empty sequence of
    bullet lines, each a marker, a non-empty item without a newline and a run
    of newlines, which is not empty between two items. *)
Theorem pattern_match_structure (rule : str) (m : Match) :
  search rule pattern = Some m →
  ∃ before nls items after,
    rule = before ++ group rule m 1 ++ replicate nls NL ++ group rule m 2
             ++ lit ":" ++ [NL; NL] ++ group rule m 3 ++ after ∧
    length before = m_start m ∧
    length rule = m_end m + length after ∧
    (NL ∉ group rule m 1) ∧ (NL ∉ group rule m 2) ∧ group rule m 2 ≠ [] ∧
    group rule m 3 = bullet_lines items ∧
    items ≠ [] ∧ Forall item_ok items ∧ separated items.
Proof.
  intros (g1 & nls & g2 & items & Hreads & Hstart & <- & <- & H3 & Hf1 & Hf2
          & Hne2 & Hne & Hok & Hsep)%search_pattern_parts.
  pose proof (reads_bound _ _ _ _ Hreads Hstart) as Hend.
  destruct Hreads as [Hdrop Hpos]. simpl in Hdrop, Hpos, Hend.
  exists (take (m_start m) rule), nls, items, (drop (m_end m) rule).
  split_and!; try done.
  - rewrite <- (take_drop (m_start m) rule) at 1. f_equal.
    rewrite Hdrop, H3. by rewrite <- !app_assoc.
  - rewrite length_take. lia.
  - rewrite length_drop. lia.
Qed.

(** X11. When the pattern matches and no exclusion word stops the
    rewriting, the output is the pretext, then a sentence for each bullet
    item, in order: the condition clause, a space, the item and a period.
    Each newline of the bullet block beyond the one that separates two items,
    the one that ends the block included, adds a line with the condition
    clause, a space and a period. *)
Theorem modify_rule_rewritten_lines (rule : str) (m : Match) :
  search rule pattern = Some m →
  excluded (split_last_sentence (group rule m 2)).2 = false →
  ∃ items,
    group rule m 3 = bullet_lines items ∧
    items ≠ [] ∧ Forall item_ok items ∧ separated items ∧
    modify_rule rule
    = (group rule m 1 ++ [NL] ++ (split_last_sentence (group rule m 2)).1)
      ++ [NL]
      ++ rewritten_lines (split_last_sentence (group rule m 2)).2 items.
Proof.
  intros Hm Hex.
  destruct (search_pattern_parts _ _ Hm)
    as (g1 & nls & g2 & items & _ & _ & _ & _ & H3 & _ & _ & _ & Hne & Hok & Hsep).
  exists items. split_and!; try done.
  rewrite (modify_rule_matched _ _ Hm).
  destruct (split_last_sentence (group rule m 2)) as [pretext2 condition].
  simpl in *. rewrite Hex. unfold flattened.
  by rewrite H3, split_bullet_lines, rewritten_lines_pieces.
Qed.

(** *** Rule texts of the canonical shape

    The matcher is followed step by step on a rule text of the canonical
    shape: the lazy run of group 1 stops at the end of the first line, the
    greedy runs take all they can, and no alternative is ever resumed after
    the label has been found. *)

Section MatcherRuns.

Variable subject : str.

Lemma rmatch_lit_hit c k p cs :
  subject !! p = Some c →
  rmatch subject (Lit c) k {| pos := p; caps := cs |}
  = k {| pos := S p; caps := cs |}.
Proof. intros H. simpl. rewrite H. by rewrite decide_True. Qed.

Lemma rmatch_lit_miss c k p cs :
  subject !! p ≠ Some c →
  rmatch subject (Lit c) k {| pos := p; caps := cs |} = None.
Proof.
  intros H. simpl. destruct (subject !! p) as [c'|]; [|done].
  case_decide; [congruence|done].
Qed.

Lemma rmatch_any_hit k p cs c :
  subject !! p = Some c → c ≠ NL →
  rmatch subject AnyChar k {| pos := p; caps := cs |}
  = k {| pos := S p; caps := cs |}.
Proof. intros H Hc. simpl. rewrite H. by rewrite decide_False. Qed.

Lemma rmatch_any_miss k p cs :
  (∀ c, subject !! p = Some c → c = NL) →
  rmatch subject AnyChar k {| pos := p; caps := cs |} = None.
Proof.
  intros H. simpl. destruct (subject !! p) as [c|] eqn:E; [|done].
  by rewrite (H c eq_refl), decide_True.
Qed.

(** A greedy repetition of a body that reads one character: when the body
    goes through [n] characters from [p] and not through the next one, the
    repetition returns the first success of the rest of the pattern, from
    the longest run to the empty one. *)
Lemma greedy_scan (body : cont → cont) (good : nat → Prop) k cs :
  (∀ k p cs, good p →
     body k {| pos := p; caps := cs |} = k {| pos := S p; caps := cs |}) →
  (∀ k p cs, ¬ good p → body k {| pos := p; caps := cs |} = None) →
  ∀ n p fuel,
    (∀ i, i < n → good (p + i)) → ¬ good (p + n) → n ≤ fuel →
    repeat_loop body true fuel k {| pos := p; caps := cs |}
    = scan_down k p cs n.
Proof.
  intros Hhit Hmiss n. induction n as [|n IH]; intros p fuel Hrun Hstop Hfuel.
  - rewrite Nat.add_0_r in Hstop. destruct fuel as [|fuel]; simpl; [done|].
    by rewrite Hmiss.
  - destruct fuel as [|fuel]; [lia|]. cbn [repeat_loop scan_down].
    rewrite Hhit by (specialize (Hrun 0); rewrite Nat.add_0_r in Hrun; apply Hrun; lia).
    cbn [pos]. rewrite decide_True by lia.
    rewrite IH; [done| | |lia].
    + intros i Hi. replace (S p + i) with (p + S i) by lia. apply Hrun. lia.
    + by replace (S p + n) with (p + S n) by lia.
Qed.

(** The same for a lazy repetition, when the rest of the pattern fails at
    every shorter run. *)
Lemma lazy_scan (body : cont → cont) (good : nat → Prop) k cs :
  (∀ k p cs, good p →
     body k {| pos := p; caps := cs |} = k {| pos := S p; caps := cs |}) →
  ∀ n p fuel,
    (∀ i, i < n → good (p + i)) → n ≤ fuel →
    (∀ i, i < n → k {| pos := p + i; caps := cs |} = None) →
    repeat_loop body false fuel k {| pos := p; caps := cs |}
    = match k {| pos := p + n; caps := cs |} with
      | Some r => Some r
      | None => repeat_loop body false (fuel - n) k {| pos := p + n; caps := cs |}
      end.
Proof.
  intros Hhit n. induction n as [|n IH]; intros p fuel Hrun Hfuel Hfail.
  - rewrite Nat.add_0_r, Nat.sub_0_r.
    destruct fuel as [|fuel]; simpl; by destruct (k _).
  - destruct fuel as [|fuel]; [lia|]. cbn [repeat_loop].
    specialize (Hfail 0 ltac:(lia)) as Hfail0. rewrite Nat.add_0_r in Hfail0.
    rewrite Hfail0.
    rewrite Hhit by (specialize (Hrun 0); rewrite Nat.add_0_r in Hrun; apply Hrun; lia).
    cbn [pos]. rewrite decide_True by lia.
    rewrite IH; [| |lia|].
    + by replace (S p + n) with (p + S n) by lia.
    + intros i Hi. replace (S p + i) with (p + S i) by lia. apply Hrun. lia.
    + intros i Hi. replace (S p + i) with (p + S i) by lia. apply Hfail. lia.
Qed.

Lemma scan_down_longest k p cs n r :
  k {| pos := p + n; caps := cs |} = Some r → scan_down k p cs n = Some r.
Proof.
  revert p. induction n as [|n IH]; intros p H; simpl.
  - by rewrite Nat.add_0_r in H.
  - rewrite IH; [done|]. by replace (S p + n) with (p + S n) by lia.
Qed.

Lemma scan_down_second k p cs n r :
  k {| pos := p + S n; caps := cs |} = None →
  k {| pos := p + n; caps := cs |} = Some r →
  scan_down k p cs (S n) = Some r.
Proof.
  revert p. induction n as [|n IH]; intros p Hnone Hsome.
  - simpl. replace (p + 1) with (S p) in Hnone by lia. rewrite Hnone.
    by rewrite Nat.add_0_r in Hsome.
  - cbn [scan_down]. cbn [scan_down] in IH. rewrite IH; [done| |].
    + by replace (S p + S n) with (p + S (S n)) by lia.
    + by replace (S p + n) with (p + S n) by lia.
Qed.

Lemma scan_down_none k p cs n :
  (∀ i, i ≤ n → k {| pos := p + i; caps := cs |} = None) →
  scan_down k p cs n = None.
Proof.
  revert p. induction n as [|n IH]; intros p H; simpl.
  - specialize (H 0 ltac:(lia)). by rewrite Nat.add_0_r in H.
  - rewrite IH.
    + specialize (H 0 ltac:(lia)). by rewrite Nat.add_0_r in H.
    + intros i Hi. replace (S p + i) with (p + S i) by lia. apply H. lia.
Qed.

End MatcherRuns.

Section CanonicalRule.

Variable subject : str.

Local Abbreviation bullet_line :=
  (Bol ⋅ Lit "*" ⋅ Lit " " ⋅ Plus true AnyChar ⋅ Star true (Lit NL)).
Local Abbreviation tail3 := (Group 3 (Plus true bullet_line)).
Local Abbreviation tail2 := (Lit ":" ⋅ Lit NL ⋅ Lit NL ⋅ tail3).
Local Abbreviation tail1 := (Bol ⋅ Group 2 (Plus true AnyChar) ⋅ tail2).
Local Abbreviation tail0 := (Star true (Lit NL) ⋅ tail1).

Lemma rmatch_cat r1 r2 k st :
  rmatch subject (r1 ⋅ r2) k st = rmatch subject r1 (rmatch subject r2 k) st.
Proof. done. Qed.

Lemma rmatch_bol k st :
  rmatch subject Bol k st = if at_line_start subject st then k st else None.
Proof. done. Qed.

Lemma rmatch_star greedy r k st :
  rmatch subject (Star greedy r) k st
  = repeat_loop (rmatch subject r) greedy (length subject - pos st) k st.
Proof. done. Qed.

Lemma rmatch_plus greedy r k st :
  rmatch subject (Plus greedy r) k st
  = rmatch subject r
      (λ st', repeat_loop (rmatch subject r) greedy (length subject - pos st') k st')
      st.
Proof. done. Qed.

Lemma rmatch_group n r k st :
  rmatch subject (Group n r) k st
  = rmatch subject r (λ st', k (set_group n (pos st, pos st') st')) st.
Proof. done. Qed.

Lemma drop_lookup_head {A} (l : list A) p c tl :
  drop p l = c :: tl → l !! p = Some c.
Proof. intros H. by rewrite <- (Nat.add_0_r p), <- lookup_drop, H. Qed.

Lemma drop_lookup_app {A} (l : list A) p w tl i :
  drop p l = w ++ tl → i < length w → l !! (p + i) = w !! i.
Proof. intros H Hi. by rewrite <- lookup_drop, H, lookup_app_l. Qed.

Lemma drop_lookup_end {A} (l : list A) p w tl :
  drop p l = w ++ tl → l !! (p + length w) = head tl.
Proof.
  intros H. rewrite <- lookup_drop, H, lookup_app_r by lia.
  rewrite Nat.sub_diag. by destruct tl.
Qed.

Lemma drop_app_shift {A} (l : list A) p w tl :
  drop p l = w ++ tl → drop (p + length w) l = tl.
Proof. intros H. by rewrite <- drop_drop, H, drop_app_length. Qed.

Lemma drop_length {A} (l : list A) p w tl :
  drop p l = w ++ tl → length w + length tl = length l - p.
Proof.
  intros H. assert (length (drop p l) = length (w ++ tl)) as Hl by by rewrite H.
  rewrite length_drop, length_app in Hl. lia.
Qed.

Lemma greedy_any w tl k p cs fuel :
  drop p subject = w ++ tl → NL ∉ w → (∀ c, head tl = Some c → c = NL) →
  length w ≤ fuel →
  repeat_loop (rmatch subject AnyChar) true fuel k {| pos := p; caps := cs |}
  = scan_down k p cs (length w).
Proof.
  intros Hdrop Hfree Hstop Hfuel.
  apply (greedy_scan _ (λ q, ∃ c, subject !! q = Some c ∧ c ≠ NL)).
  - intros k' q cs' (c & Hc & Hnl). by eapply rmatch_any_hit.
  - intros k' q cs' Hq. apply rmatch_any_miss. intros c Hc.
    destruct (decide (c = NL)); [done|]. exfalso. apply Hq. eauto.
  - intros i Hi. destruct (lookup_lt_is_Some_2 w i Hi) as [c Hc].
    exists c. split; [by rewrite (drop_lookup_app _ _ _ _ _ Hdrop Hi)|].
    intros ->. by apply Hfree, (list_elem_of_lookup_2 _ i).
  - intros (c & Hc & Hnl). rewrite (drop_lookup_end _ _ _ _ Hdrop) in Hc. auto.
  - done.
Qed.

Lemma greedy_nl n tl k p cs fuel :
  drop p subject = replicate n NL ++ tl → head tl ≠ Some NL → n ≤ fuel →
  repeat_loop (rmatch subject (Lit NL)) true fuel k {| pos := p; caps := cs |}
  = scan_down k p cs n.
Proof.
  intros Hdrop Hstop Hfuel.
  apply (greedy_scan _ (λ q, subject !! q = Some NL)).
  - intros k' q cs' Hq. by apply rmatch_lit_hit.
  - intros k' q cs' Hq. by apply rmatch_lit_miss.
  - intros i Hi.
    rewrite (drop_lookup_app _ _ _ _ i Hdrop) by by rewrite length_replicate.
    by apply lookup_replicate_2.
  - pose proof (drop_lookup_end _ _ _ _ Hdrop) as H.
    rewrite length_replicate in H. by rewrite H.
  - done.
Qed.

Lemma lazy_any w tl k p cs fuel r :
  drop p subject = w ++ tl → NL ∉ w → length w ≤ fuel →
  (∀ i, i < length w → k {| pos := p + i; caps := cs |} = None) →
  k {| pos := p + length w; caps := cs |} = Some r →
  repeat_loop (rmatch subject AnyChar) false fuel k {| pos := p; caps := cs |}
  = Some r.
Proof.
  intros Hdrop Hfree Hfuel Hfail Hk.
  rewrite (lazy_scan _ (λ q, ∃ c, subject !! q = Some c ∧ c ≠ NL) k cs)
    with (n := length w); [by rewrite Hk| | |done|done].
  - intros k' q cs' (c & Hc & Hnl). by eapply rmatch_any_hit.
  - intros i Hi. destruct (lookup_lt_is_Some_2 w i Hi) as [c Hc].
    exists c. split; [by rewrite (drop_lookup_app _ _ _ _ _ Hdrop Hi)|].
    intros ->. by apply Hfree, (list_elem_of_lookup_2 _ i).
Qed.

Lemma at_line_start_after q cs :
  subject !! q = Some NL →
  at_line_start subject {| pos := S q; caps := cs |} = true.
Proof. intros H. unfold at_line_start. simpl. by apply bool_decide_eq_true. Qed.

Lemma at_line_start_inside q cs :
  subject !! q ≠ Some NL →
  at_line_start subject {| pos := S q; caps := cs |} = false.
Proof. intros H. unfold at_line_start. simpl. by apply bool_decide_eq_false. Qed.

(** One bullet line and what follows it. *)
Lemma bullet_line_eval w n tl K p cs r :
  drop p subject = lit "* " ++ w ++ replicate n NL ++ tl →
  w ≠ [] → NL ∉ w → (n = 0 → tl = []) → head tl ≠ Some NL →
  at_line_start subject {| pos := p; caps := cs |} = true →
  K {| pos := p + 2 + length w + n; caps := cs |} = Some r →
  rmatch subject bullet_line K {| pos := p; caps := cs |} = Some r.
Proof.
  intros Hdrop Hw Hfree Hlast Htl Hbol HK.
  destruct w as [|c w]; [done|]. apply not_elem_of_cons in Hfree as [Hc Hfree].
  assert (drop (S p) subject = " "%char :: c :: w ++ replicate n NL ++ tl) as Hd1
    by (replace (S p) with (p + length ["*"%char]) by (simpl; lia);
        by apply drop_app_shift).
  assert (drop (S (S p)) subject = c :: w ++ replicate n NL ++ tl) as Hd2
    by (replace (S (S p)) with (S p + length [" "%char]) by (simpl; lia);
        by apply drop_app_shift).
  assert (drop (S (S (S p))) subject = w ++ replicate n NL ++ tl) as Hd3
    by (replace (S (S (S p))) with (S (S p) + length [c]) by (simpl; lia);
        by apply drop_app_shift).
  pose proof (drop_app_shift _ _ _ _ Hd3) as Hd4.
  pose proof (drop_lookup_head _ _ _ _ Hdrop) as H0.
  pose proof (drop_lookup_head _ _ _ _ Hd1) as H1.
  pose proof (drop_lookup_head _ _ _ _ Hd2) as H2.
  rewrite rmatch_cat, rmatch_bol, Hbol.
  rewrite rmatch_cat, (rmatch_lit_hit _ _ _ _ _ H0).
  rewrite rmatch_cat, (rmatch_lit_hit _ _ _ _ _ H1).
  rewrite rmatch_cat, rmatch_plus, (rmatch_any_hit _ _ _ _ _ H2 (not_eq_sym Hc)).
  cbv beta. cbn [pos].
  pose proof (drop_length _ _ _ _ Hd3) as Hlen.
  rewrite length_app, length_replicate in Hlen.
  rewrite (greedy_any _ _ _ _ _ _ Hd3); [|done| |lia].
  2:{ intros c'. destruct n as [|n]; [by rewrite (Hlast eq_refl)|].
      simpl. by intros [= <-]. }
  apply scan_down_longest. rewrite rmatch_star. cbn [pos].
  rewrite (greedy_nl _ _ _ _ _ _ Hd4); [|done|lia].
  apply scan_down_longest. rewrite <- HK. f_equal. f_equal. simpl. lia.
Qed.

Lemma line_end_newline (a : str) n tl p :
  drop p subject = a ++ replicate n NL ++ tl → 1 ≤ n →
  subject !! (p + length a + (n - 1)) = Some NL.
Proof.
  intros Hdrop%drop_app_shift Hn.
  rewrite (drop_lookup_app _ _ _ _ (n - 1) Hdrop) by (rewrite length_replicate; lia).
  apply lookup_replicate_2. lia.
Qed.

Lemma bullet_lines_length items : length items ≤ length (bullet_lines items).
Proof.
  induction items as [|item items IH]; [done|].
  rewrite bullet_lines_cons, !length_app. simpl. lia.
Qed.

Lemma bullet_lines_head items : head (bullet_lines items) ≠ Some NL.
Proof. by destruct items. Qed.

(** The repetition of the bullet line over a block that ends the subject. *)
Lemma bullet_loop_eval items kf cs r :
  ∀ p fuel,
    drop p subject = bullet_lines items → p ≤ length subject →
    (items ≠ [] → at_line_start subject {| pos := p; caps := cs |} = true) →
    Forall item_ok items → separated items → length items ≤ fuel →
    kf {| pos := length subject; caps := cs |} = Some r →
    repeat_loop (rmatch subject bullet_line) true fuel kf
                {| pos := p; caps := cs |} = Some r.
Proof.
  induction items as [|[w n] rest IH]; intros p fuel Hdrop Hp Hbol Hok Hsep Hfuel Hk.
  - assert (p = length subject) as ->.
    { assert (length (drop p subject) = 0) as H by by rewrite Hdrop.
      rewrite length_drop in H. lia. }
    destruct fuel as [|fuel]; cbn [repeat_loop]; [done|].
    rewrite rmatch_cat, rmatch_bol. destruct (at_line_start _ _); [|done].
    rewrite rmatch_cat, rmatch_lit_miss; [done|].
    by rewrite lookup_ge_None_2.
  - destruct fuel as [|fuel]; [simpl in Hfuel; lia|]. cbn [repeat_loop].
    apply Forall_cons in Hok as [[Hw Hfree] Hok]. destruct Hsep as [Hn Hsep].
    cbn [fst snd] in Hw, Hfree, Hn.
    rewrite bullet_lines_cons in Hdrop. cbn [fst snd] in Hdrop.
    pose proof (drop_app_shift _ _ _ _ Hdrop) as Hrest.
    pose proof (drop_length _ _ _ _ Hdrop) as Hlen.
    rewrite !length_app, length_replicate in Hrest, Hlen.
    change (length (lit "* ")) with 2 in Hrest, Hlen.
    rewrite <- !app_assoc in Hdrop.
    rewrite (bullet_line_eval w n (bullet_lines rest) _ p cs r); try done.
    + intros ->. destruct rest; [done|]. specialize (Hn ltac:(done)). lia.
    + apply bullet_lines_head.
    + by apply Hbol.
    + cbn [pos]. rewrite decide_True by lia.
      apply IH; try done.
      * rewrite <- Hrest. f_equal. lia.
      * lia.
      * intros Hne. specialize (Hn Hne).
        replace (p + 2 + length w + n) with (S (p + length (lit "* " ++ w) + (n - 1)))
          by (rewrite length_app; simpl; lia).
        apply at_line_start_after.
        apply (line_end_newline _ n (bullet_lines rest)); [|done].
        by rewrite <- app_assoc.
      * simpl in Hfuel. lia.
Qed.

Lemma tail3_eval items k p cs r :
  drop p subject = bullet_lines items →
  items ≠ [] → Forall item_ok items → separated items →
  at_line_start subject {| pos := p; caps := cs |} = true →
  k {| pos := length subject; caps := <[3 := (p, length subject)]> cs |} = Some r →
  rmatch subject tail3 k {| pos := p; caps := cs |} = Some r.
Proof.
  intros Hdrop Hne Hok Hsep Hbol Hk.
  rewrite rmatch_group, rmatch_plus.
  destruct items as [|[w n] rest]; [done|].
  apply Forall_cons in Hok as [[Hw Hfree] Hok]. destruct Hsep as [Hn Hsep].
  cbn [fst snd] in Hw, Hfree, Hn.
  rewrite bullet_lines_cons in Hdrop. cbn [fst snd] in Hdrop.
  pose proof (drop_app_shift _ _ _ _ Hdrop) as Hrest.
  pose proof (drop_length _ _ _ _ Hdrop) as Hlen.
  pose proof (drop_length _ _ [] _ Hrest) as Hlen'.
  rewrite !length_app, length_replicate in Hrest, Hlen, Hlen'.
  change (length (lit "* ")) with 2 in Hrest, Hlen, Hlen'.
  rewrite <- !app_assoc in Hdrop.
  apply (bullet_line_eval w n (bullet_lines rest)); try done.
  - intros ->. destruct rest; [done|]. specialize (Hn ltac:(done)). lia.
  - apply bullet_lines_head.
  - cbn [pos].
    pose proof (bullet_lines_length rest) as Hb.
    apply (bullet_loop_eval rest); try done.
    + rewrite <- Hrest. f_equal. lia.
    + lia.
    + intros Hne'. specialize (Hn Hne').
      replace (p + 2 + length w + n) with (S (p + length (lit "* " ++ w) + (n - 1)))
          by (rewrite length_app; simpl; lia).
      apply at_line_start_after.
      apply (line_end_newline _ n (bullet_lines rest)); [|done].
      by rewrite <- app_assoc.
    + simpl in Hlen'. lia.
Qed.

Lemma tail2_fails k p cs :
  ¬ (subject !! p = Some ":"%char ∧ subject !! S p = Some NL
     ∧ subject !! S (S p) = Some NL) →
  rmatch subject tail2 k {| pos := p; caps := cs |} = None.
Proof.
  intros Hno. rewrite rmatch_cat.
  destruct (decide (subject !! p = Some ":"%char)) as [H0|H0];
    [|by rewrite rmatch_lit_miss].
  rewrite (rmatch_lit_hit _ _ _ _ _ H0), rmatch_cat.
  destruct (decide (subject !! S p = Some NL)) as [H1|H1];
    [|by rewrite rmatch_lit_miss].
  rewrite (rmatch_lit_hit _ _ _ _ _ H1), rmatch_cat.
  rewrite rmatch_lit_miss; [done|]. intros H2. by apply Hno.
Qed.

Lemma tail2_eval items k p cs r :
  drop p subject = lit ":" ++ [NL; NL] ++ bullet_lines items →
  items ≠ [] → Forall item_ok items → separated items →
  k {| pos := length subject; caps := <[3 := (p + 3, length subject)]> cs |}
  = Some r →
  rmatch subject tail2 k {| pos := p; caps := cs |} = Some r.
Proof.
  intros Hdrop Hne Hok Hsep Hk.
  assert (drop (S p) subject = [NL; NL] ++ bullet_lines items) as Hd1
    by (replace (S p) with (p + length [":"%char]) by (simpl; lia);
        by apply drop_app_shift).
  assert (drop (S (S p)) subject = [NL] ++ bullet_lines items) as Hd2
    by (replace (S (S p)) with (S p + length [NL]) by (simpl; lia);
        by apply drop_app_shift).
  assert (drop (S (S (S p))) subject = bullet_lines items) as Hd3
    by (replace (S (S (S p))) with (S (S p) + length [NL]) by (simpl; lia);
        by apply drop_app_shift).
  pose proof (drop_lookup_head _ _ _ _ Hdrop) as H0.
  pose proof (drop_lookup_head _ _ _ _ Hd1) as H1.
  pose proof (drop_lookup_head _ _ _ _ Hd2) as H2.
  rewrite rmatch_cat, (rmatch_lit_hit _ _ _ _ _ H0).
  rewrite rmatch_cat, (rmatch_lit_hit _ _ _ _ _ H1).
  rewrite rmatch_cat, (rmatch_lit_hit _ _ _ _ _ H2).
  apply (tail3_eval items); try done.
  - by apply at_line_start_after.
  - rewrite <- Hk. do 4 f_equal. lia.
Qed.

Lemma tail1_eval label items k p cs r :
  drop p subject = label ++ lit ":" ++ [NL; NL] ++ bullet_lines items →
  label ≠ [] → NL ∉ label →
  items ≠ [] → Forall item_ok items → separated items →
  at_line_start subject {| pos := p; caps := cs |} = true →
  k {| pos := length subject;
       caps := <[3 := (p + length label + 3, length subject)]>
                 (<[2 := (p, p + length label)]> cs) |} = Some r →
  rmatch subject tail1 k {| pos := p; caps := cs |} = Some r.
Proof.
  intros Hdrop Hlabel Hfree Hne Hok Hsep Hbol Hk.
  destruct label as [|c l]; [done|]. apply not_elem_of_cons in Hfree as [Hc Hfree].
  assert (drop (S p) subject = (l ++ [":"%char]) ++ [NL; NL] ++ bullet_lines items)
    as Hd1.
  { replace (S p) with (p + length [c]) by (simpl; lia).
    apply drop_app_shift. rewrite Hdrop. simpl. by rewrite <- app_assoc. }
  pose proof (drop_lookup_head _ _ _ _ Hdrop) as H0.
  pose proof (drop_length _ _ _ _ Hd1) as Hlen.
  rewrite length_app in Hlen. simpl in Hlen.
  rewrite rmatch_cat, rmatch_bol, Hbol, rmatch_cat, rmatch_group, rmatch_plus.
  rewrite (rmatch_any_hit _ _ _ _ _ H0 (not_eq_sym Hc)).
  cbv beta. cbn [pos].
  rewrite (greedy_any _ _ _ _ _ _ Hd1).
  - rewrite length_app. simpl. rewrite Nat.add_1_r.
    apply scan_down_second; unfold set_group; cbn [pos caps].
    + apply tail2_fails. intros [H _].
      assert (subject !! (S p + S (length l)) = Some NL) as He.
      { replace (S p + S (length l)) with (S p + length (l ++ [":"%char]))
          by (rewrite length_app; simpl; lia).
        exact (drop_lookup_end _ _ _ _ Hd1). }
      rewrite He in H. by vm_compute in H.
    + apply (tail2_eval items); try done.
      * replace (S p + length l) with (S p + length l + 0) by lia.
        assert (drop (S p) subject
                = l ++ lit ":" ++ [NL; NL] ++ bullet_lines items) as Hd1'
          by by rewrite Hd1, <- app_assoc.
        rewrite Nat.add_0_r. by apply drop_app_shift in Hd1'.
      * rewrite <- Hk. simpl. repeat f_equal; lia.
  - rewrite not_elem_of_app. split; [done|].
    rewrite list_elem_of_In. vm_compute. intuition discriminate.
  - simpl. by intros c' [= <-].
  - rewrite length_app. simpl. lia.
Qed.

Lemma tail0_eval nls label items k p cs r :
  drop p subject
  = replicate nls NL ++ label ++ lit ":" ++ [NL; NL] ++ bullet_lines items →
  label ≠ [] → NL ∉ label →
  items ≠ [] → Forall item_ok items → separated items →
  (nls = 0 → at_line_start subject {| pos := p; caps := cs |} = true) →
  k {| pos := length subject;
       caps := <[3 := (p + nls + length label + 3, length subject)]>
                 (<[2 := (p + nls, p + nls + length label)]> cs) |} = Some r →
  rmatch subject tail0 k {| pos := p; caps := cs |} = Some r.
Proof.
  intros Hdrop Hlabel Hfree Hne Hok Hsep Hbol Hk.
  pose proof (drop_length _ _ _ _ Hdrop) as Hlen.
  rewrite length_replicate in Hlen.
  rewrite rmatch_cat, rmatch_star. cbn [pos].
  rewrite (greedy_nl _ _ _ _ _ _ Hdrop); [| |lia].
  2:{ destruct label as [|c l]; [done|]. simpl. intros [= ->].
      apply Hfree. by left. }
  apply scan_down_longest.
  apply (tail1_eval label items); try done.
  - pose proof (drop_app_shift _ _ _ _ Hdrop) as H.
    by rewrite length_replicate in H.
  - destruct nls as [|nls].
    + rewrite Nat.add_0_r. by apply Hbol.
    + replace (p + S nls) with (S (p + length (@nil ascii) + (S nls - 1)))
        by (simpl; lia).
      apply at_line_start_after.
      by apply (line_end_newline [] (S nls) _ p Hdrop); lia.
Qed.

(** Inside a first line that is followed by one newline and a line that
    does not start with a newline, the pattern after group 1 does not
    match. *)
Lemma tail0_fails_inside (pretext tl : str) c k i cs :
  subject = pretext ++ NL :: c :: tl → NL ∉ pretext → c ≠ NL →
  i < length pretext →
  rmatch subject tail0 k {| pos := i; caps := cs |} = None.
Proof.
  intros Hsub Hfree Hc Hi.
  assert (∀ q, q < length pretext → ∃ a, subject !! q = Some a ∧ a ≠ NL) as Hpre.
  { intros q Hq. destruct (lookup_lt_is_Some_2 pretext q Hq) as [a Ha].
    exists a. split; [by rewrite Hsub, lookup_app_l|].
    intros ->. by apply Hfree, (list_elem_of_lookup_2 _ q). }
  assert (subject !! length pretext = Some NL) as Hnl.
  { rewrite Hsub, lookup_app_r by lia. by rewrite Nat.sub_diag. }
  assert (subject !! S (length pretext) = Some c) as Hnext.
  { rewrite Hsub, lookup_app_r by lia.
    by replace (S (length pretext) - length pretext) with 1 by lia. }
  destruct (Hpre i Hi) as (a & Ha & Hane).
  assert (drop i subject = replicate 0 NL ++ drop i subject) as Hd0 by done.
  rewrite rmatch_cat, rmatch_star.
  rewrite (greedy_nl 0 _ _ _ _ _ Hd0); [| |lia].
  2:{ rewrite <- (Nat.add_0_r i), <- lookup_drop in Ha.
      destruct (drop i subject); simpl in *; congruence. }
  cbn [scan_down]. rewrite rmatch_cat, rmatch_bol.
  destruct i as [|q].
  2:{ rewrite at_line_start_inside; [done|].
      destruct (Hpre q ltac:(lia)) as (b & Hb & Hbne). congruence. }
  change (at_line_start subject {| pos := 0; caps := cs |}) with true. cbv iota.
  rewrite rmatch_cat, rmatch_group, rmatch_plus.
  rewrite (rmatch_any_hit _ _ _ _ _ Ha Hane). cbv beta. cbn [pos].
  destruct pretext as [|a' w]; [simpl in Hi; lia|].
  assert (drop 1 subject = w ++ NL :: c :: tl) as Hd1 by by rewrite Hsub.
  pose proof (drop_length _ _ _ _ Hd1) as Hlen.
  apply not_elem_of_cons in Hfree as [_ Hfree].
  rewrite (greedy_any _ _ _ _ _ _ Hd1); [|done| |lia].
  2:{ simpl. by intros c' [= <-]. }
  apply scan_down_none. intros j Hj. unfold set_group. cbn [pos caps].
  apply tail2_fails. intros (H0 & H1 & H2).
  cbn [Nat.add] in H0, H1, H2. cbn [length] in Hnl, Hnext.
  destruct (decide (j = length w)) as [->|].
  - rewrite Hnl in H0. by vm_compute in H0.
  - destruct (decide (S j = length w)) as [Hj'|].
    + rewrite Hj' in H2. congruence.
    + destruct (Hpre (S (S j))) as (b & Hb & Hbne); [simpl; lia|]. congruence.
Qed.

End CanonicalRule.

(** The match object of a rule text of the canonical shape. *)
Lemma search_canonical (pretext : str) (nls : nat) (label : str)
    (items : list (str * nat)) :
  (pretext ≠ [] → nls = 1) → NL ∉ pretext → label ≠ [] → NL ∉ label →
  items ≠ [] → Forall item_ok items → separated items →
  let rule := canonical_rule pretext nls label items in
  search rule pattern
  = Some {| m_start := 0; m_end := length rule;
            m_spans :=
              <[3 := (length pretext + nls + length label + 3, length rule)]>
                (<[2 := (length pretext + nls,
                         length pretext + nls + length label)]>
                   (<[1 := (0, length pretext)]> ∅)) |}.
Proof.
  intros Hnls Hpre Hlabel Hfree Hne Hok Hsep rule.
  assert (match_at rule pattern 0
          = Some {| m_start := 0; m_end := length rule;
                    m_spans :=
                      <[3 := (length pretext + nls + length label + 3, length rule)]>
                        (<[2 := (length pretext + nls,
                                 length pretext + nls + length label)]>
                           (<[1 := (0, length pretext)]> ∅)) |}) as Hm.
  2:{ unfold search. destruct (length rule); simpl; by rewrite Hm. }
  unfold match_at.
  assert (rmatch rule pattern Some {| pos := 0; caps := ∅ |}
          = Some {| pos := length rule;
                    caps :=
                      <[3 := (length pretext + nls + length label + 3, length rule)]>
                        (<[2 := (length pretext + nls,
                                 length pretext + nls + length label)]>
                           (<[1 := (0, length pretext)]> ∅)) |}) as ->; [|done].
  unfold pattern. rewrite rmatch_cat, rmatch_group, rmatch_star. cbn [pos].
  assert (drop 0 rule = pretext ++ replicate nls NL ++ label ++ lit ":" ++ [NL; NL]
                          ++ bullet_lines items) as Hd0 by done.
  pose proof (drop_length _ _ _ _ Hd0) as Hlen.
  apply (lazy_any rule pretext _ _ 0 ∅ _ _ Hd0); [done|lia| |].
  - intros i Hi. unfold set_group. cbn [pos caps Nat.add].
    rewrite Hnls in * by (intros ->; simpl in Hi; lia).
    destruct label as [|c l]; [done|]. apply not_elem_of_cons in Hfree as [Hc _].
    by apply (tail0_fails_inside rule pretext
                (l ++ lit ":" ++ [NL; NL] ++ bullet_lines items) c).
  - unfold set_group. cbn [pos caps Nat.add].
    apply (tail0_eval rule nls label items); try done.
    + by apply (drop_app_shift _ 0 _ _ Hd0).
    + intros ->. destruct pretext; [done|]. by specialize (Hnls ltac:(done)).
Qed.

Lemma search_canonical_groups (pretext : str) (nls : nat) (label : str)
    (items : list (str * nat)) :
  (pretext ≠ [] → nls = 1) → NL ∉ pretext → label ≠ [] → NL ∉ label →
  items ≠ [] → Forall item_ok items → separated items →
  ∃ m, search (canonical_rule pretext nls label items) pattern = Some m
       ∧ m_start m = 0
       ∧ m_end m = length (canonical_rule pretext nls label items)
       ∧ group (canonical_rule pretext nls label items) m 1 = pretext
       ∧ group (canonical_rule pretext nls label items) m 2 = label
       ∧ group (canonical_rule pretext nls label items) m 3 = bullet_lines items.
Proof.
  intros Hnls Hpre Hlabel Hfree Hne Hok Hsep.
  eexists. split; [by apply search_canonical|].
  unfold group. cbn [m_start m_end m_spans].
  rewrite (lookup_insert_eq _ 3).
  rewrite (lookup_insert_ne _ 3 2), (lookup_insert_eq _ 2) by done.
  rewrite (lookup_insert_ne _ 3 1), (lookup_insert_ne _ 2 1), (lookup_insert_eq _ 1)
    by done.
  rewrite !slice_span. unfold canonical_rule.
  split_and!; [done|done| | |].
  - by rewrite drop_0, Nat.sub_0_r, take_app_length.
  - rewrite (app_assoc pretext).
    replace (length pretext + nls) with (length (pretext ++ replicate nls NL))
      by (by rewrite length_app, length_replicate).
    rewrite drop_app_length.
    replace (length (pretext ++ replicate nls NL) + length label
             - length (pretext ++ replicate nls NL)) with (length label) by lia.
    by rewrite take_app_length.
  - rewrite (app_assoc pretext), (app_assoc _ label).
    rewrite (app_assoc _ (lit ":")), (app_assoc _ [NL; NL]).
    replace (length pretext + nls + length label + 3)
      with (length ((((pretext ++ replicate nls NL) ++ label) ++ lit ":") ++ [NL; NL]))
      by (rewrite !length_app, length_replicate; simpl; lia).
    rewrite drop_app_length. apply take_ge.
    rewrite !length_app. lia.
Qed.

(** X12. A rule text made of an optional first line, a label line that ends in
    a colon, an empty line and a block of bullet lines that ends the text is
    matched as a whole: group 1 is the first line, group 2 the label and
    group 3 the bullet block. *)
Theorem search_pattern_canonical (pretext : str) (nls : nat) (label : str)
    (items : list (str * nat)) :
  (pretext ≠ [] → nls = 1) → NL ∉ pretext → label ≠ [] → NL ∉ label →
  items ≠ [] → Forall item_ok items → separated items →
  ∃ m, search (canonical_rule pretext nls label items) pattern = Some m
       ∧ m_start m = 0
       ∧ m_end m = length (canonical_rule pretext nls label items)
       ∧ group (canonical_rule pretext nls label items) m 1 = pretext
       ∧ group (canonical_rule pretext nls label items) m 2 = label
       ∧ group (canonical_rule pretext nls label items) m 3 = bullet_lines items.
Proof. apply search_canonical_groups. Qed.

(** X13. On such a rule text [modify_rule] returns the text unchanged when the
    condition clause of the label contains an entry of the exclusion list,
    and otherwise the first line, the sentences of the label before its last
    one, and the rewritten lines of the bullet block. *)
Theorem modify_rule_canonical (pretext : str) (nls : nat) (label : str)
    (items : list (str * nat)) :
  (pretext ≠ [] → nls = 1) → NL ∉ pretext → label ≠ [] → NL ∉ label →
  items ≠ [] → Forall item_ok items → separated items →
  modify_rule (canonical_rule pretext nls label items)
  = if excluded (split_last_sentence label).2
    then canonical_rule pretext nls label items
    else (pretext ++ [NL] ++ (split_last_sentence label).1) ++ [NL]
         ++ rewritten_lines (split_last_sentence label).2 items.
Proof.
  intros Hnls Hpre Hlabel Hfree Hne Hok Hsep.
  destruct (search_canonical_groups pretext nls label items)
    as (m & Hm & _ & _ & H1 & H2 & H3); try done.
  rewrite (modify_rule_matched _ _ Hm), H1, H2, H3.
  destruct (split_last_sentence label) as [pretext2 condition]. cbn [fst snd].
  destruct (excluded condition); [done|]. unfold flattened.
  by rewrite split_bullet_lines, rewritten_lines_pieces.
Qed.

(** ** Instances *)

Section InstanceMore.

Variable lower : str → str.
Variable self : Reader.

Lemma source_history_raises history source_string :
  Exists (λ turn, turn !! "follow_up_question" = None) history →
  source_history history source_string = Raise (KeyError "follow_up_question").
Proof.
  revert source_string. induction history as [|turn history IH];
    intros source_string Hex; [by apply Exists_nil in Hex|].
  simpl. unfold getitem.
  destruct (turn !! "follow_up_question") as [q|] eqn:Hq; [|done].
  simpl. apply IH. apply Exists_cons in Hex as [?|?]; [congruence|done].
Qed.

Lemma question_history_raises history question_text :
  Forall (λ turn, is_Some (turn !! "follow_up_question")) history →
  Exists (λ turn, turn !! "follow_up_answer" = None) history →
  question_history history question_text = Raise (KeyError "follow_up_answer").
Proof.
  revert question_text. induction history as [|turn history IH];
    intros question_text Hall Hex; [by apply Exists_nil in Hex|].
  apply Forall_cons in Hall as [[q Hq] Hall].
  simpl. unfold getitem. rewrite Hq. simpl.
  destruct (turn !! "follow_up_answer") as [a|] eqn:Ha; [|done].
  simpl. apply IH; [done|].
  apply Exists_cons in Hex as [?|?]; [congruence|done].
Qed.

Lemma source_history_closed history source_string :
  Forall (λ turn, is_Some (turn !! "follow_up_question")) history →
  source_history history source_string
  = Ok (source_string
        ++ concat (map (λ turn, turn_question turn ++ lit " ") history)).
Proof.
  intros Hall. revert source_string.
  induction Hall as [|turn history [q Hq] _ IH]; intros source_string;
    cbn [source_history map concat].
  - by rewrite app_nil_r.
  - unfold getitem, turn_question. rewrite Hq.
    cbn [mbind result_bind default]. rewrite IH. by rewrite <- !app_assoc.
Qed.

Lemma question_history_closed history question_text :
  well_formed_history history →
  question_history history question_text
  = Ok (question_text
        ++ concat (map (λ turn, lit "@@QS@@ " ++ turn_question turn ++ lit " "
                                  ++ turn_answer turn ++ lit " ") history)).
Proof.
  intros Hall. revert question_text.
  induction Hall as [|turn history [[q Hq] [a Ha]] _ IH]; intros question_text;
    cbn [question_history map concat].
  - by rewrite app_nil_r.
  - unfold getitem, turn_question, turn_answer. rewrite Hq, Ha.
    cbn [mbind result_bind default]. rewrite IH. by rewrite <- !app_assoc.
Qed.

Lemma well_formed_history_questions history :
  well_formed_history history →
  Forall (λ turn, is_Some (turn !! "follow_up_question")) history.
Proof. intros H. eapply Forall_impl; [exact H|]. simpl. tauto. Qed.

(** Either every turn has both keys, or some turn lacks the question, or
    all have the question and some turn lacks the answer. *)
Lemma history_cases history :
  well_formed_history history
  ∨ Exists (λ turn, turn !! "follow_up_question" = None) history
  ∨ (Forall (λ turn, is_Some (turn !! "follow_up_question")) history
     ∧ Exists (λ turn, turn !! "follow_up_answer" = None) history).
Proof.
  induction history as [|turn history IH].
  - left. constructor.
  - destruct (turn !! "follow_up_question") as [q|] eqn:Hq;
      [|right; left; by left].
    destruct IH as [IH|[IH|[IH1 IH2]]].
    + destruct (turn !! "follow_up_answer") as [a|] eqn:Ha.
      * left. constructor; [eauto|done].
      * right. right. split.
        -- constructor; [eauto|]. by apply well_formed_history_questions.
        -- by left.
    + right. left. by right.
    + right. right. split; [constructor; eauto|by right].
Qed.

Lemma text_to_instance_raises_question rule_text question scenario history
    utterance_id tree_id source_url answer evidence :
  Exists (λ turn, turn !! "follow_up_question" = None) history →
  text_to_instance lower self rule_text question scenario history
    utterance_id tree_id source_url answer evidence
  = Raise (KeyError "follow_up_question").
Proof.
  intros Hex. unfold text_to_instance. by rewrite source_history_raises.
Qed.

Lemma text_to_instance_raises_answer rule_text question scenario history
    utterance_id tree_id source_url answer evidence :
  Forall (λ turn, is_Some (turn !! "follow_up_question")) history →
  Exists (λ turn, turn !! "follow_up_answer" = None) history →
  text_to_instance lower self rule_text question scenario history
    utterance_id tree_id source_url answer evidence
  = Raise (KeyError "follow_up_answer").
Proof.
  intros Hall Hex. unfold text_to_instance.
  rewrite source_history_closed by done. cbn [mbind result_bind].
  by rewrite question_history_raises.
Qed.

Lemma text_to_instance_returns rule_text question scenario history
    utterance_id tree_id source_url answer evidence :
  well_formed_history history →
  ∃ instance,
    text_to_instance lower self rule_text question scenario history
      utterance_id tree_id source_url answer evidence = Ok (Some instance).
Proof.
  intros Hwf. unfold text_to_instance.
  rewrite source_history_closed by by apply well_formed_history_questions.
  cbn [mbind result_bind].
  rewrite question_history_closed by done.
  cbn [mbind result_bind]. destruct answer; eauto.
Qed.

Lemma text_to_instance_ok_well_formed rule_text question scenario history
    utterance_id tree_id source_url answer evidence r :
  text_to_instance lower self rule_text question scenario history
    utterance_id tree_id source_url answer evidence = Ok r →
  well_formed_history history.
Proof.
  intros Hi.
  destruct (history_cases history) as [?|[H|[H1 H2]]]; [done|..].
  - by rewrite text_to_instance_raises_question in Hi.
  - by rewrite text_to_instance_raises_answer in Hi.
Qed.

(** X14. [text_to_instance] fails in one way only, a KeyError from a turn of
    the history: for the key follow_up_question when some turn lacks it, and
    for the key follow_up_answer when every turn has a question and some turn
    lacks the answer. It returns an instance exactly when every turn has
    both keys. *)
Theorem text_to_instance_key_errors rule_text question scenario history
    utterance_id tree_id source_url answer evidence :
  let result :=
    text_to_instance lower self rule_text question scenario history
      utterance_id tree_id source_url answer evidence in
  (Exists (λ turn, turn !! "follow_up_question" = None) history →
   result = Raise (KeyError "follow_up_question")) ∧
  (Forall (λ turn, is_Some (turn !! "follow_up_question")) history →
   Exists (λ turn, turn !! "follow_up_answer" = None) history →
   result = Raise (KeyError "follow_up_answer")) ∧
  ((∃ instance, result = Ok (Some instance)) ↔ well_formed_history history).
Proof.
  intros result. split; [apply text_to_instance_raises_question|].
  split; [apply text_to_instance_raises_answer|]. split.
  - intros [instance Hi]. by eapply text_to_instance_ok_well_formed.
  - apply text_to_instance_returns.
Qed.

(** The whole instance a successful call returns. *)
Lemma text_to_instance_ok rule_text question scenario history
    utterance_id tree_id source_url answer evidence instance :
  text_to_instance lower self rule_text question scenario history
    utterance_id tree_id source_url answer evidence = Ok (Some instance) →
  let inner_source := _source_tokenizer self (source_string_of rule_text history) in
  let base : gmap string Field :=
    <["question" := TextField
        (_bidaf_tokenizer self (question_text_of question scenario history))
        (_bidaf_token_indexers self)]>
    (<["passage" := TextField (_bidaf_tokenizer self rule_text)
                      (_bidaf_token_indexers self)]>
     (<["source_to_target" := NamespaceSwappingField inner_source
                                (_target_namespace self)]>
      {[ "source_tokens" := TextField (wrapped inner_source)
                              (_source_token_indexers self) ]})) in
  let echo (meta : gmap string MetaValue) : gmap string MetaValue :=
    <["history" := MetaHistory history]>
    (<["scenario" := MetaStr scenario]>
     (<["question" := MetaStr question]>
      (<["rule_text" := MetaStr rule_text]> meta))) in
  fields instance =
  match answer with
  | Some target_string =>
      let inner_target := _target_tokenizer self target_string in
      let joint := _tokens_to_ids lower (inner_source ++ wrapped inner_target) in
      <["metadata" := MetadataField
          (echo (<["target_tokens" := MetaStrings (map text inner_target)]>
                 {[ "source_tokens" := MetaStrings (map text inner_source) ]}))]>
      (<["label" := LabelField (action_of target_string)]>
       (<["target_token_ids" := ArrayField (drop (length inner_source) joint)]>
        (<["source_token_ids" := ArrayField (take (length inner_source) joint)]>
         (<["target_tokens" := TextField (wrapped inner_target)
                                 (_target_token_indexers self)]> base))))
  | None =>
      <["metadata" := MetadataField
          (echo {[ "source_tokens" := MetaStrings (map text inner_source) ]})]>
      (<["source_token_ids" := ArrayField (_tokens_to_ids lower inner_source)]>
         base)
  end.
Proof.
  intros Hi. pose proof (text_to_instance_ok_well_formed _ _ _ _ _ _ _ _ _ _ Hi) as Hwf.
  unfold text_to_instance in Hi.
  rewrite source_history_closed in Hi by by apply well_formed_history_questions.
  cbn [mbind result_bind] in Hi.
  rewrite question_history_closed in Hi by done.
  cbn [mbind result_bind app] in Hi.
  fold (source_string_of rule_text history) in Hi.
  fold (question_text_of question scenario history) in Hi.
  fold (wrapped (_source_tokenizer self (source_string_of rule_text history))) in Hi.
  destruct answer as [target_string|].
  - fold (wrapped (_target_tokenizer self target_string)) in Hi.
    injection Hi as <-. cbv zeta. cbn [fields].
    rewrite !slice_wrapped.
    change (S (length (_source_tokenizer self (source_string_of rule_text history)
                       ++ [mkToken END_SYMBOL])))
      with (length (wrapped (_source_tokenizer self (source_string_of rule_text history)))).
    rewrite length_wrapped.
    rewrite slice_to, slice_from by lia.
    replace (Z.to_nat (Z.of_nat (length (_source_tokenizer self
               (source_string_of rule_text history)) + 2) - 2))
      with (length (_source_tokenizer self (source_string_of rule_text history)))
      by lia.
    unfold action_of, str_elem.
    destruct (decide (target_string ∈ [lit "Yes"; lit "No"; lit "Irrelevant"]))
      as [Hin|Hout].
    + by rewrite bool_decide_eq_true_2 by exact Hin.
    + by rewrite bool_decide_eq_false_2 by exact Hout.
  - injection Hi as <-. cbv zeta. cbn [fields].
    by rewrite !slice_wrapped.
Qed.

End InstanceMore.

Section InstanceFields.

Variable lower : str → str.
Variable self : Reader.

(** X15. With an answer, the label is the answer itself when the answer is
    Yes, No or Irrelevant, and More for every other answer; so the label is
    always one of these four strings. *)
Theorem text_to_instance_label rule_text question scenario history
    utterance_id tree_id source_url target_string evidence instance :
  text_to_instance lower self rule_text question scenario history
    utterance_id tree_id source_url (Some target_string) evidence
  = Ok (Some instance) →
  ∃ action,
    fields instance !! "label" = Some (LabelField action) ∧
    action ∈ [lit "Yes"; lit "No"; lit "Irrelevant"; lit "More"] ∧
    (target_string ∈ [lit "Yes"; lit "No"; lit "Irrelevant"] →
     action = target_string) ∧
    (target_string ∉ [lit "Yes"; lit "No"; lit "Irrelevant"] →
     action = lit "More").
Proof.
  intros Hi%text_to_instance_ok. cbv zeta in Hi.
  exists (action_of target_string). split; [rewrite Hi; by simplify_map_eq|].
  unfold action_of.
  destruct (decide (target_string ∈ [lit "Yes"; lit "No"; lit "Irrelevant"]))
    as [Hin|Hout].
  - split; [set_solver|]. split; [done|]. intros ?. done.
  - split; [set_solver|]. split; [done|]. done.
Qed.

(** X16. The instance has six fields without an answer and nine with one:
    the answer adds target_tokens, target_token_ids and label, and nothing
    else depends on whether there is an answer. *)
Theorem text_to_instance_field_names rule_text question scenario history
    utterance_id tree_id source_url answer evidence instance :
  text_to_instance lower self rule_text question scenario history
    utterance_id tree_id source_url answer evidence = Ok (Some instance) →
  dom (fields instance)
  = ({[ "source_tokens"; "source_to_target"; "passage"; "question";
        "source_token_ids"; "metadata" ]} : gset string)
    ∪ match answer with
      | Some _ => {[ "target_tokens"; "target_token_ids"; "label" ]}
      | None => ∅
      end.
Proof.
  intros Hi%text_to_instance_ok. cbv zeta in Hi. rewrite Hi.
  destruct answer; rewrite !dom_insert_L, dom_singleton_L; set_solver.
Qed.

(** X17. The three views of the inner source tokens have the same length and
    the same order: [source_to_target] holds the tokens of [source_tokens]
    without the two sentinels, [source_token_ids] has one id for each of
    them, and the metadata has their texts. *)
Theorem text_to_instance_source_views rule_text question scenario history
    utterance_id tree_id source_url answer evidence instance :
  text_to_instance lower self rule_text question scenario history
    utterance_id tree_id source_url answer evidence = Ok (Some instance) →
  ∃ inner_source source_token_ids metadata,
    fields instance !! "source_tokens"
    = Some (TextField (mkToken START_SYMBOL :: inner_source ++ [mkToken END_SYMBOL])
                      (_source_token_indexers self)) ∧
    fields instance !! "source_to_target"
    = Some (NamespaceSwappingField inner_source (_target_namespace self)) ∧
    fields instance !! "source_token_ids" = Some (ArrayField source_token_ids) ∧
    length source_token_ids = length inner_source ∧
    fields instance !! "metadata" = Some (MetadataField metadata) ∧
    metadata !! "source_tokens" = Some (MetaStrings (map text inner_source)).
Proof.
  intros Hi%text_to_instance_ok. cbv zeta in Hi.
  exists (_source_tokenizer self (source_string_of rule_text history)).
  destruct answer as [target_string|].
  - eexists _, _. rewrite Hi. split_and!; try by simplify_map_eq.
    rewrite length_take, tokens_to_ids_length, length_app. lia.
  - eexists _, _. rewrite Hi. split_and!; try by simplify_map_eq.
    apply tokens_to_ids_length.
Qed.

(** X18. The answer does not change the source side of the instance: with
    and without an answer, the fields source_tokens, source_to_target,
    passage, question and source_token_ids are the same. *)
Theorem text_to_instance_source_side_ignores_answer rule_text question scenario
    history utterance_id tree_id source_url target_string evidence
    with_answer without_answer :
  text_to_instance lower self rule_text question scenario history
    utterance_id tree_id source_url (Some target_string) evidence
  = Ok (Some with_answer) →
  text_to_instance lower self rule_text question scenario history
    utterance_id tree_id source_url None evidence
  = Ok (Some without_answer) →
  ∀ name,
    name ∈ ["source_tokens"; "source_to_target"; "passage"; "question";
            "source_token_ids"] →
    fields with_answer !! name = fields without_answer !! name.
Proof.
  intros H1%text_to_instance_ok H2%text_to_instance_ok name Hname.
  cbv zeta in H1, H2. rewrite H1, H2.
  rewrite (tokens_to_ids_take lower).
  repeat (apply elem_of_cons in Hname as [->|Hname]); try by simplify_map_eq.
  by apply elem_of_nil in Hname.
Qed.

(** X19. What the tokenizers are given. The source tokenizer gets the rule
    text between the markers @@RS@@ and @@RE@@ followed by every follow-up
    question and a space; the second tokenizer gets the rule text for the
    passage and, for the question, the question, the scenario and every turn
    of the history, each behind its marker, closed by @@HE@@. *)
Theorem text_to_instance_tokenizer_inputs rule_text question scenario history
    utterance_id tree_id source_url answer evidence instance :
  text_to_instance lower self rule_text question scenario history
    utterance_id tree_id source_url answer evidence = Ok (Some instance) →
  fields instance !! "source_tokens"
  = Some (TextField
            (mkToken START_SYMBOL
               :: _source_tokenizer self
                    (lit " @@RS@@ " ++ rule_text ++ lit " @@RE@@ "
                       ++ concat (map (λ turn, turn_question turn ++ lit " ")
                                      history))
               ++ [mkToken END_SYMBOL])
            (_source_token_indexers self)) ∧
  fields instance !! "passage"
  = Some (TextField (_bidaf_tokenizer self rule_text) (_bidaf_token_indexers self)) ∧
  fields instance !! "question"
  = Some (TextField
            (_bidaf_tokenizer self
               (lit "@@QS@@ " ++ question ++ lit " @@SS@@ " ++ scenario
                  ++ lit " @@HS@@ "
                  ++ concat (map (λ turn, lit "@@QS@@ " ++ turn_question turn
                                            ++ lit " " ++ turn_answer turn
                                            ++ lit " ") history)
                  ++ lit "@@HE@@"))
            (_bidaf_token_indexers self)).
Proof.
  intros Hi%text_to_instance_ok. cbv zeta in Hi. rewrite Hi.
  assert (source_string_of rule_text history
          = lit " @@RS@@ " ++ rule_text ++ lit " @@RE@@ "
              ++ concat (map (λ turn, turn_question turn ++ lit " ") history)) as <-.
  { unfold source_string_of. by rewrite <- !app_assoc. }
  assert (question_text_of question scenario history
          = lit "@@QS@@ " ++ question ++ lit " @@SS@@ " ++ scenario
              ++ lit " @@HS@@ "
              ++ concat (map (λ turn, lit "@@QS@@ " ++ turn_question turn
                                        ++ lit " " ++ turn_answer turn
                                        ++ lit " ") history)
              ++ lit "@@HE@@") as <-.
  { unfold question_text_of. by rewrite <- !app_assoc. }
  destruct answer; split_and!; by simplify_map_eq.
Qed.

End InstanceFields.

(** ** The record loop *)

Section ReadMore.

Variable lower : str → str.
Variable self : Reader.

Lemma text_to_instance_raise_is_key_error rule_text question scenario history
    utterance_id tree_id source_url answer evidence ex :
  text_to_instance lower self rule_text question scenario history
    utterance_id tree_id source_url answer evidence = Raise ex →
  ex = KeyError "follow_up_question" ∨ ex = KeyError "follow_up_answer".
Proof.
  intros Hi. destruct (history_cases history) as [Hwf|[H|[H1 H2]]].
  - edestruct (text_to_instance_returns lower self) as [i Hok]; [exact Hwf|].
    rewrite Hok in Hi. done.
  - rewrite text_to_instance_raises_question in Hi by done. left. congruence.
  - rewrite text_to_instance_raises_answer in Hi by done. right. congruence.
Qed.

Lemma text_to_instance_not_none rule_text question scenario history
    utterance_id tree_id source_url answer evidence :
  text_to_instance lower self rule_text question scenario history
    utterance_id tree_id source_url answer evidence ≠ Ok None.
Proof.
  intros Hi.
  pose proof (text_to_instance_ok_well_formed _ _ _ _ _ _ _ _ _ _ _ _ Hi) as Hwf.
  edestruct (text_to_instance_returns lower self) as [i Hok]; [exact Hwf|].
  rewrite Hok in Hi. done.
Qed.

(** With both locals bound, the loop raises no UnboundLocalError, yields one
    instance for each record it gets through, and gets through all of them
    unless a history raises. *)
Lemma read_loop_bound_locals dataset a e :
  let '(yielded, ended) := read_loop lower self dataset (Some a) (Some e) in
  match ended with
  | None => length yielded = length dataset
  | Some ex =>
      length yielded < length dataset
      ∧ (ex = KeyError "follow_up_question" ∨ ex = KeyError "follow_up_answer")
  end.
Proof.
  revert a e. induction dataset as [|u dataset IH]; intros a e; [done|].
  cbn [read_loop].
  set (a' := match u_answer u with Some x => Some x | None => Some a end).
  set (e' := match u_evidence u with Some x => Some x | None => Some e end).
  assert (∃ a1, a' = Some a1) as [a1 ->] by (unfold a'; destruct (u_answer u); eauto).
  assert (∃ e1, e' = Some e1) as [e1 ->] by (unfold e'; destruct (u_evidence u); eauto).
  destruct (text_to_instance _ _ _ _ _ _ _ _ _ _ _) as [[i|]|ex] eqn:Hi.
  - specialize (IH a1 e1).
    destruct (read_loop lower self dataset (Some a1) (Some e1)) as [ys [ex|]];
      simpl; [|lia]. split; [lia|tauto].
  - by apply text_to_instance_not_none in Hi.
  - simpl. split; [lia|]. by eapply text_to_instance_raise_is_key_error.
Qed.

Lemma read_loop_complete_records dataset answer evidence :
  Forall complete_record dataset →
  ∃ instances,
    read_loop lower self dataset answer evidence = (instances, None) ∧
    Forall2 (λ u instance,
               ∃ answer evidence,
                 u_answer u = Some answer ∧ u_evidence u = Some evidence ∧
                 text_to_instance lower self (u_snippet u) (u_question u)
                   (u_scenario u) (u_history u) (Some (u_utterance_id u))
                   (Some (u_tree_id u)) (Some (u_source_url u))
                   answer evidence = Ok (Some instance))
            dataset instances.
Proof.
  intros Hall. revert answer evidence.
  induction Hall as [|u dataset ([a Ha] & [e He] & Hwf) _ IH];
    intros answer evidence.
  - exists []. split; [done|constructor].
  - cbn [read_loop]. rewrite Ha, He.
    edestruct (text_to_instance_returns lower self) as [i Hi]; [exact Hwf|].
    rewrite Hi. destruct (IH (Some a) (Some e)) as (instances & -> & Hrest).
    exists (i :: instances). split; [done|]. constructor; [|done].
    by exists a, e.
Qed.

(** X20. When every record has the keys answer and evidence and a history
    whose turns have both keys, [_read] raises nothing and yields one
    instance per record, in the order of the records, each built from the
    answer and the evidence of its own record. *)
Theorem read_complete_dataset (dataset : list Utterance) :
  Forall complete_record dataset →
  ∃ instances,
    _read lower self dataset = (instances, None) ∧
    Forall2 (λ u instance,
               ∃ answer evidence,
                 u_answer u = Some answer ∧ u_evidence u = Some evidence ∧
                 text_to_instance lower self (u_snippet u) (u_question u)
                   (u_scenario u) (u_history u) (Some (u_utterance_id u))
                   (Some (u_tree_id u)) (Some (u_source_url u))
                   answer evidence = Ok (Some instance))
            dataset instances.
Proof. apply read_loop_complete_records. Qed.

(** X21. What [_read] has yielded stays yielded: the instances of a dataset
    are a prefix of the instances of the same dataset followed by more
    records. An exception ends the iteration: the records after it change
    nothing. *)
Theorem read_prefix (seen rest : list Utterance) :
  (_read lower self seen).1 `prefix_of` (_read lower self (seen ++ rest)).1 ∧
  ((_read lower self seen).2 ≠ None →
   _read lower self (seen ++ rest) = _read lower self seen).
Proof.
  unfold _read. rewrite read_loop_app.
  destruct (read_loop lower self seen None None) as [ys [ex|]]; simpl.
  - split; done.
  - destruct (read_loop lower self rest _ _) as [ys' r']. simpl.
    split; [by exists ys'|done].
Qed.

(** X22. An UnboundLocalError can only come from the first record, before
    anything is yielded: for answer when the first record has no key answer,
    for evidence when it has the key answer and no key evidence. From the
    second record on both locals are bound. *)
Theorem read_unbound_local_only_first (dataset : list Utterance) (name : string) :
  (_read lower self dataset).2 = Some (UnboundLocalError name)
  ↔ ∃ u rest,
      dataset = u :: rest ∧
      ((name = "answer" ∧ u_answer u = None)
       ∨ (name = "evidence" ∧ is_Some (u_answer u) ∧ u_evidence u = None)).
Proof.
  unfold _read. destruct dataset as [|u rest]; cbn [read_loop].
  - split; [done|]. by intros (? & ? & ? & _).
  - destruct (u_answer u) as [a|] eqn:Ha.
    + destruct (u_evidence u) as [e|] eqn:He.
      * split.
        -- destruct (text_to_instance _ _ _ _ _ _ _ _ _ _ _) as [i|ex] eqn:Hi.
           ++ pose proof (read_loop_bound_locals rest a e) as Hrest.
              destruct (read_loop lower self rest (Some a) (Some e)) as [ys [ex|]];
                simpl; [|done].
              intros [= ->]. destruct Hrest as [_ [?|?]]; done.
           ++ simpl. intros [= ->].
              apply text_to_instance_raise_is_key_error in Hi as [?|?]; done.
        -- intros (u' & rest' & [= <- <-] & [[_ ?]|(_ & _ & ?)]); congruence.
      * simpl. split.
        -- intros [= <-]. exists u, rest. split; [done|]. right.
           rewrite Ha. eauto.
        -- intros (u' & rest' & [= <- <-] & [[_ ?]|(-> & _ & _)]);
             [congruence|done].
    + simpl. split.
      * intros [= <-]. exists u, rest. split; [done|]. by left.
      * intros (u' & rest' & [= <- <-] & [[-> _]|(_ & [? ?] & _)]);
          [done|congruence].
Qed.

(** X23. [_read] yields exactly one instance for each record when it raises
    nothing, and fewer instances than records when it raises. *)
Theorem read_yield_count (dataset : list Utterance) :
  match (_read lower self dataset).2 with
  | None => length (_read lower self dataset).1 = length dataset
  | Some _ => length (_read lower self dataset).1 < length dataset
  end.
Proof.
  unfold _read. destruct dataset as [|u rest]; [done|]. cbn [read_loop].
  destruct (u_answer u) as [a|]; [|simpl; lia].
  destruct (u_evidence u) as [e|]; [|simpl; lia].
  destruct (text_to_instance _ _ _ _ _ _ _ _ _ _ _) as [[i|]|ex] eqn:Hi.
  - pose proof (read_loop_bound_locals rest a e) as Hrest.
    destruct (read_loop lower self rest (Some a) (Some e)) as [ys [ex|]];
      simpl; lia.
  - by apply text_to_instance_not_none in Hi.
  - simpl. lia.
Qed.

End ReadMore.

(** ** The constructor *)

Section InitFacts.

Variable word_tokenizer : Tokenizer.

(** X24. The constructor raises ConfigurationError exactly when it is given a
    non-empty dict of source token indexers whose entry tokens is missing or
    is not a SingleIdTokenIndexer. No dict and the empty dict are both
    replaced by the default and raise nothing. *)
Theorem init_configuration_error target_namespace bidaf_input_tokenizer
    bidaf_token_indexers source_tokenizer target_tokenizer
    source_token_indexers lazy :
  (∃ message,
     __init__ word_tokenizer target_namespace bidaf_input_tokenizer
       bidaf_token_indexers source_tokenizer target_tokenizer
       source_token_indexers lazy = ConfigurationError message)
  ↔ ∃ d, source_token_indexers = Some d ∧ d ≠ ∅
         ∧ ∀ indexer, d !! "tokens" ≠ Some (SingleIdArg indexer).
Proof.
  unfold __init__, dict_or. split.
  - intros [message H]. destruct source_token_indexers as [d|].
    + destruct (decide (d = ∅)) as [->|Hne].
      * by rewrite lookup_singleton_eq in H.
      * exists d. split; [done|]. split; [done|]. intros indexer Hd.
        by rewrite Hd in H.
    + by rewrite lookup_singleton_eq in H.
  - intros (d & -> & Hne & Hd). rewrite decide_False by done.
    destruct (d !! "tokens") as [[indexer|name]|] eqn:E; simpl; eauto.
    by destruct (Hd indexer).
Qed.

(** X25. A reader that was constructed has a SingleIdTokenIndexer under the
    key tokens of its source indexers, indexes the target side in the target
    namespace alone, and uses the source tokenizer for the target side when
    no target tokenizer was given. *)
Theorem init_constructed target_namespace bidaf_input_tokenizer
    bidaf_token_indexers source_tokenizer target_tokenizer
    source_token_indexers lazy self :
  __init__ word_tokenizer target_namespace bidaf_input_tokenizer
    bidaf_token_indexers source_tokenizer target_tokenizer
    source_token_indexers lazy = Constructed self →
  (∃ indexer, a_source_token_indexers self !! "tokens" = Some (SingleIdArg indexer)) ∧
  a_target_token_indexers self
  = {[ "tokens" := SingleIdTokenIndexer (Some target_namespace) ]} ∧
  a_bidaf_token_indexers self ≠ ∅ ∧
  (target_tokenizer = None → a_target_tokenizer self = a_source_tokenizer self) ∧
  (source_tokenizer = None → a_source_tokenizer self = word_tokenizer).
Proof.
  unfold __init__.
  destruct (dict_or source_token_indexers _ !! "tokens") as [[indexer|name]|] eqn:E;
    simpl; try done.
  intros [= <-]. simpl. split_and!; eauto.
  - unfold dict_or. destruct bidaf_token_indexers as [d|].
    + case_decide; [|done]. intros H0.
      apply (f_equal (lookup "tokens")) in H0.
      by rewrite lookup_singleton_eq, lookup_empty in H0.
    + intros H0. apply (f_equal (lookup "tokens")) in H0.
      by rewrite lookup_singleton_eq, lookup_empty in H0.
  - by intros ->.
  - by intros ->.
Qed.

End InitFacts.

(** ** The worked examples *)

(** X3 on two spellings of the same three words. *)
Lemma tokens_to_ids_case_insensitive_witness :
  _tokens_to_ids ascii_lower example_tokens
  = _tokens_to_ids ascii_lower example_tokens_shouted.
Proof.
  apply (tokens_to_ids_case_insensitive ascii_lower).
  vm_compute. reflexivity.
Defined.

(** X4 on the third of the example tokens. *)
Lemma tokens_to_ids_bounded_by_position_witness :
  _tokens_to_ids ascii_lower example_tokens !! 2 = Some 0 ∧ 0 ≤ 2.
Proof.
  assert (_tokens_to_ids ascii_lower example_tokens !! 2 = Some 0) as H
    by (vm_compute; reflexivity).
  split; [exact H|].
  exact (tokens_to_ids_bounded_by_position ascii_lower example_tokens 2 0 H).
Defined.

(** X9 on a rule without bullets. *)
Lemma modify_rule_needs_bullet_opening_witness :
  str_in bullet_opening rule_plain = false ∧ modify_rule rule_plain = rule_plain.
Proof.
  assert (str_in bullet_opening rule_plain = false) as H
    by (vm_compute; reflexivity).
  split; [exact H|]. exact (modify_rule_needs_bullet_opening rule_plain H).
Defined.

(** X10 on the flattening example. *)
Lemma pattern_match_structure_witness :
  ∃ m, search rule_flatten pattern = Some m ∧
    ∃ before nls items after,
      rule_flatten
      = before ++ group rule_flatten m 1 ++ replicate nls NL
          ++ group rule_flatten m 2 ++ lit ":" ++ [NL; NL]
          ++ group rule_flatten m 3 ++ after ∧
      group rule_flatten m 3 = bullet_lines items ∧ separated items.
Proof.
  eexists. split; [vm_compute; reflexivity|].
  edestruct (pattern_match_structure rule_flatten)
    as (before & nls & items & after & H1 & _ & _ & _ & _ & _ & H3 & _ & _ & Hsep);
    [vm_compute; reflexivity|].
  exists before, nls, items, after. split; [exact H1|]. split; [exact H3|exact Hsep].
Defined.

(** X11 on the flattening example: its block of bullets is that of
    [example_items], and the newline that ends it gives the last line. *)
Lemma modify_rule_rewritten_lines_witness :
  ∃ m, search rule_flatten pattern = Some m ∧
    excluded (split_last_sentence (group rule_flatten m 2)).2 = false ∧
    ∃ items,
      group rule_flatten m 3 = bullet_lines items ∧
      modify_rule rule_flatten
      = (group rule_flatten m 1 ++ [NL]
           ++ (split_last_sentence (group rule_flatten m 2)).1)
        ++ [NL]
        ++ rewritten_lines (split_last_sentence (group rule_flatten m 2)).2 items.
Proof.
  eexists. split; [vm_compute; reflexivity|].
  split; [vm_compute; reflexivity|].
  edestruct (modify_rule_rewritten_lines rule_flatten)
    as (items & H3 & _ & _ & _ & Hout);
    [vm_compute; reflexivity|vm_compute; reflexivity|].
  exists items. split; [exact H3|exact Hout].
Defined.

Example rewritten_lines_example :
  bullet_lines example_items = lit "* item one" ++ [NL] ++ lit "* item two" ++ [NL]
  ∧ rewritten_lines (lit "Condition") example_items
    = lit "Condition item one." ++ [NL] ++ lit "Condition item two." ++ [NL]
      ++ lit "Condition ." ++ [NL].
Proof. split; vm_compute; reflexivity. Qed.

(** X14 on a history whose turn has no answer. *)
Lemma text_to_instance_key_errors_witness :
  text_to_instance ascii_lower example_reader example_rule example_question
    example_scenario [example_turn_no_answer] None None None None None
  = Raise (KeyError "follow_up_answer").
Proof.
  refine (proj1 (proj2 (text_to_instance_key_errors ascii_lower example_reader
            example_rule example_question example_scenario
            [example_turn_no_answer] None None None None None)) _ _).
  - constructor; [|constructor]. eexists. vm_compute. reflexivity.
  - left. vm_compute. reflexivity.
Defined.

(** X15 on the example call: the answer is not in the closed set. *)
Lemma text_to_instance_label_witness :
  example_training = Ok (Some (built example_training)) ∧
  ∃ action,
    fields (built example_training) !! "label" = Some (LabelField action)
    ∧ action = lit "More".
Proof.
  assert (example_training = Ok (Some (built example_training))) as H
    by (apply built_spec; vm_compute; reflexivity).
  split; [exact H|].
  destruct (text_to_instance_label ascii_lower example_reader example_rule example_question
              example_scenario [example_turn] None None None
              example_answer None (built example_training) H)
    as (action & Hl & _ & _ & Hmore).
  exists action. split; [exact Hl|]. apply Hmore.
  rewrite list_elem_of_In. vm_compute. intuition discriminate.
Defined.

(** X16 on the example call without an answer. *)
Lemma text_to_instance_field_names_witness :
  example_inference = Ok (Some (built example_inference)) ∧
  dom (fields (built example_inference))
  = ({[ "source_tokens"; "source_to_target"; "passage"; "question";
        "source_token_ids"; "metadata" ]} : gset string) ∪ ∅.
Proof.
  assert (example_inference = Ok (Some (built example_inference))) as H
    by (apply built_spec; vm_compute; reflexivity).
  split; [exact H|].
  exact (text_to_instance_field_names ascii_lower example_reader example_rule example_question
              example_scenario [example_turn] None None None
              None None (built example_inference) H).
Defined.

(** X17 on the example call. *)
Lemma text_to_instance_source_views_witness :
  example_training = Ok (Some (built example_training)) ∧
  ∃ inner_source source_token_ids,
    fields (built example_training) !! "source_to_target"
    = Some (NamespaceSwappingField inner_source (lit "target_tokens")) ∧
    fields (built example_training) !! "source_token_ids"
    = Some (ArrayField source_token_ids) ∧
    length source_token_ids = length inner_source.
Proof.
  assert (example_training = Ok (Some (built example_training))) as H
    by (apply built_spec; vm_compute; reflexivity).
  split; [exact H|].
  destruct (text_to_instance_source_views ascii_lower example_reader example_rule example_question
              example_scenario [example_turn] None None None
              (Some example_answer) None (built example_training) H)
    as (inner & ids & meta & _ & H2 & H3 & H4 & _).
  exists inner, ids. split; [exact H2|]. split; [exact H3|exact H4].
Defined.

(** X18 on the two example calls. *)
Lemma text_to_instance_source_side_ignores_answer_witness :
  example_training = Ok (Some (built example_training)) ∧
  example_inference = Ok (Some (built example_inference)) ∧
  fields (built example_training) !! "source_token_ids"
  = fields (built example_inference) !! "source_token_ids".
Proof.
  assert (example_training = Ok (Some (built example_training))) as H1
    by (apply built_spec; vm_compute; reflexivity).
  assert (example_inference = Ok (Some (built example_inference))) as H2
    by (apply built_spec; vm_compute; reflexivity).
  split; [exact H1|]. split; [exact H2|].
  apply (text_to_instance_source_side_ignores_answer ascii_lower example_reader
           example_rule example_question
              example_scenario [example_turn] None None None
           example_answer None (built example_training)
           (built example_inference) H1 H2).
  repeat constructor.
Defined.

(** X19 on the example call. *)
Lemma text_to_instance_tokenizer_inputs_witness :
  example_inference = Ok (Some (built example_inference)) ∧
  fields (built example_inference) !! "passage"
  = Some (TextField (_bidaf_tokenizer example_reader example_rule)
                    (_bidaf_token_indexers example_reader)).
Proof.
  assert (example_inference = Ok (Some (built example_inference))) as H
    by (apply built_spec; vm_compute; reflexivity).
  split; [exact H|].
  destruct (text_to_instance_tokenizer_inputs ascii_lower example_reader
              example_rule example_question example_scenario [example_turn]
              None None None None None (built example_inference) H)
    as (_ & Hpassage & _).
  exact Hpassage.
Defined.

Lemma example_first_complete : complete_record example_first.
Proof. split; [by eexists|]. split; [by eexists|]. constructor. Qed.

(** X20 on the first example record, twice. *)
Lemma read_complete_dataset_witness :
  Forall complete_record [example_first; example_first] ∧
  ∃ instances,
    _read ascii_lower example_reader [example_first; example_first]
    = (instances, None) ∧ length instances = 2.
Proof.
  assert (Forall complete_record [example_first; example_first]) as H
    by (repeat constructor; apply example_first_complete).
  split; [exact H|].
  destruct (read_complete_dataset ascii_lower example_reader _ H)
    as (instances & Hread & Hall).
  exists instances. split; [exact Hread|].
  apply Forall2_length in Hall. symmetry. exact Hall.
Defined.

(** X25 on the constructor with all its defaults. *)
Lemma init_constructed_witness :
  ∃ self,
    __init__ space_tokenizer (lit "target_tokens") None None None None None false
    = Constructed self ∧
    a_target_token_indexers self
    = {[ "tokens" := SingleIdTokenIndexer (Some (lit "target_tokens")) ]}.
Proof.
  eexists. split; [vm_compute; reflexivity|].
  refine (proj1 (proj2 (init_constructed space_tokenizer (lit "target_tokens")
                          None None None None None false _ _))).
  vm_compute; reflexivity.
Defined.

(** X12 on the flattening example. *)
Lemma search_pattern_canonical_witness :
  ∃ m, search (canonical_rule (lit "Intro.") 1 (lit "Condition") example_items)
              pattern = Some m
       ∧ m_start m = 0
       ∧ group (canonical_rule (lit "Intro.") 1 (lit "Condition") example_items) m 2
         = lit "Condition".
Proof.
  destruct (search_pattern_canonical (lit "Intro.") 1 (lit "Condition")
              example_items)
    as (m & Hm & Hs & _ & _ & Hg & _).
  - done.
  - rewrite list_elem_of_In. vm_compute. intuition discriminate.
  - done.
  - rewrite list_elem_of_In. vm_compute. intuition discriminate.
  - done.
  - repeat constructor; try done; simpl;
      rewrite list_elem_of_In; vm_compute; intuition discriminate.
  - simpl. split_and!; try done; lia.
  - exists m. split; [exact Hm|]. split; [exact Hs|exact Hg].
Defined.

(** X13 on the flattening example, which has the canonical shape. *)
Lemma modify_rule_canonical_witness :
  canonical_rule (lit "Intro.") 1 (lit "Condition") example_items = rule_flatten
  ∧ modify_rule (canonical_rule (lit "Intro.") 1 (lit "Condition") example_items)
    = (lit "Intro." ++ [NL] ++ []) ++ [NL]
      ++ rewritten_lines (lit "Condition") example_items.
Proof.
  split; [reflexivity|].
  apply (modify_rule_canonical (lit "Intro.") 1 (lit "Condition") example_items).
  - done.
  - rewrite list_elem_of_In. vm_compute. intuition discriminate.
  - done.
  - rewrite list_elem_of_In. vm_compute. intuition discriminate.
  - done.
  - repeat constructor; try done; simpl;
      rewrite list_elem_of_In; vm_compute; intuition discriminate.
  - simpl. split_and!; try done; lia.
Defined.
